(** * zip-sizer: the virtual offset sampler and the ratio extrapolation

    A shallow embedding of [python/zip-sizer.py] and of its first draft
    [estimate-compression.py], with the properties of the sampling walk
    and of the extrapolation arithmetic.

    Integers are [Z] (Python integers are unbounded), byte strings are
    [list byte], Python floats are the binary64 instance of [SpecFloat],
    exceptions are an explicit error type, and what the program prints is
    threaded through a small writer and error monad. *)

From Stdlib Require Import ZArith List Lia Bool Sorted.
From Stdlib.Strings Require Import String Byte.
From Stdlib.Floats Require Import SpecFloat.
Import ListNotations.
Local Open Scope Z_scope.

(** ** Python values *)

Module Py.

(** The exceptions the two scripts can meet.  [OSError] carries the
    errno: [FileNotFoundError], [PermissionError] and [IsADirectoryError]
    are the subclasses of [OSError] for [ENOENT], [EACCES] and [EISDIR]. *)
Inductive errno := ENOENT | EACCES | EISDIR | EINVAL | EIO.

Inductive exn :=
| OSError (c : errno)
| TypeError
| ValueError
| OverflowError
| ZeroDivisionError.

Inductive result (A : Type) :=
| OK (a : A)
| Raise (e : exn).
Arguments OK {A} a.
Arguments Raise {A} e.

Definition bytes := list byte.

(** [len(b)] *)
Definition len (b : bytes) : Z := Z.of_nat (List.length b).

(** [sum(size for _, size in files_with_sizes)] *)
Definition sum (l : list Z) : Z := fold_left Z.add l 0.

(** [start, start + step, ...], [n] elements *)
Fixpoint range_from (start step : Z) (n : nat) : list Z :=
  match n with
  | O => []
  | S k => start :: range_from (start + step) step k
  end.

(** [list(range(start, stop, step))]: a zero step is a [ValueError], and
    the number of elements is the one CPython computes. *)
Definition range (start stop step : Z) : result (list Z) :=
  if step =? 0 then Raise ValueError
  else
    let n := if 0 <? step then (stop - start + step - 1) / step
             else (start - stop - step - 1) / (- step) in
    OK (range_from start step (Z.to_nat n)).

(** *** Floats: binary64 *)

Definition prec : Z := 53.
Definition emax : Z := 1024.
Definition float := spec_float.

Definition fmul : float -> float -> float := SFmul prec emax.
Definition fdiv : float -> float -> float := SFdiv prec emax.
Definition fleb : float -> float -> bool := SFleb.
Definition fltb : float -> float -> bool := SFltb.

Definition zero : float := S754_zero false.
Definition one : float := S754_finite false 4503599627370496 (-52).

Definition is_zero (x : float) : bool :=
  match x with
  | S754_zero _ => true
  | _ => false
  end.

(** [float(n)] and the implicit conversion of an integer operand: the
    nearest double, ties to even, [OverflowError] when there is none. *)
Definition float_of_int (n : Z) : result float :=
  match binary_normalize prec emax n 0 false with
  | S754_infinity _ => Raise OverflowError
  | x => OK x
  end.

(** [int(x)]: truncation toward zero. *)
Definition int_of_float (x : float) : result Z :=
  match x with
  | S754_nan => Raise ValueError
  | S754_infinity _ => Raise OverflowError
  | S754_zero _ => OK 0
  | S754_finite s m e =>
      let a := if 0 <=? e then Zpos m * 2 ^ e else Zpos m / 2 ^ (- e) in
      OK (if s then - a else a)
  end.

(** [x * n] and [x / n] with [x] a float and [n] an integer *)
Definition fmul_int (x : float) (n : Z) : result float :=
  match float_of_int n with
  | OK y => OK (fmul x y)
  | Raise e => Raise e
  end.

Definition fdiv_int (x : float) (n : Z) : result float :=
  match float_of_int n with
  | OK y => if is_zero y then Raise ZeroDivisionError else OK (fdiv x y)
  | Raise e => Raise e
  end.

(** A number that is an [int] or a [float]. *)
Inductive num :=
| Int (z : Z)
| Float (x : float).

(** [a / b] with both integers: the correctly rounded quotient. *)
Definition int_truediv (a b : Z) : result float :=
  if b =? 0 then Raise ZeroDivisionError
  else
    let '(q, e, l) := SFdiv_core_binary prec emax (Z.abs a) 0 (Z.abs b) 0 in
    match binary_round_aux prec emax (xorb (a <? 0) (b <? 0)) q e l with
    | S754_infinity _ => Raise OverflowError
    | x => OK x
    end.

(** [a / b] with [a] an integer *)
Definition truediv (a : Z) (b : num) : result float :=
  match b with
  | Int b => int_truediv a b
  | Float y =>
      match float_of_int a with
      | OK x => if is_zero y then Raise ZeroDivisionError else OK (fdiv x y)
      | Raise e => Raise e
      end
  end.

(** [size < 1024] and [size / 1024] for a number: an integer is
    compared and divided as an integer, a double as a double (1024 is
    a double, so the comparison with it is exact). *)
Definition f1024 : float := S754_finite false 4503599627370496 (-42).

Definition lt_1024 (size : num) : bool :=
  match size with
  | Int z => z <? 1024
  | Float x => fltb x f1024
  end.

Definition div_1024 (size : num) : result float :=
  match size with
  | Int z => int_truediv z 1024
  | Float x => OK (fdiv x f1024)
  end.

(** The number that [f"{size:.2f}"] shows: an integer is converted to a
    double first, and [OverflowError] is raised when there is none; a
    double is shown whatever it is. *)
Definition formatted (size : num) : result num :=
  match size with
  | Int z =>
      match float_of_int z with
      | OK _ => OK size
      | Raise e => Raise e
      end
  | Float _ => OK size
  end.

End Py.
Import Py.

(** ** The file system, as the scripts see it *)

Module FS.

(** What [open(path, "rb")] and the reads that follow do. *)
Inductive file_state :=
| Regular (content : bytes)
    (** opens, and every read succeeds *)
| Unopenable (c : errno)
    (** [open] raises [OSError c] *)
| Faulty (content : bytes) (bad : Z) (c : errno)
    (** opens, and a read that reaches offset [bad] raises [OSError c] *).

Record handle := {
  h_content : bytes;
  h_bad : option (Z * errno)
}.

Definition open (st : file_state) : result handle :=
  match st with
  | Regular content => OK {| h_content := content; h_bad := None |}
  | Unopenable c => Raise (OSError c)
  | Faulty content bad c =>
      OK {| h_content := content; h_bad := Some (bad, c) |}
  end.

(** The bytes of [content] from [pos] on, at most [n] of them. *)
Definition slice (content : bytes) (pos n : Z) : bytes :=
  firstn (Z.to_nat n) (skipn (Z.to_nat pos) content).

(** [f.seek(pos); f.read(n)] on a buffered binary reader: a negative
    position is [EINVAL], a size below [-1] is a [ValueError], [-1] reads
    to the end of the file, and a read at the end of the file is short. *)
Definition seek_read (h : handle) (pos n : Z) : result bytes :=
  if pos <? 0 then Raise (OSError EINVAL)
  else if n <? -1 then Raise ValueError
  else
    let data := if n =? -1 then skipn (Z.to_nat pos) (h_content h)
                else slice (h_content h) pos n in
    match h_bad h with
    | Some (bad, c) =>
        if Z.max pos bad <? pos + len data then Raise (OSError c) else OK data
    | None => OK data
    end.

(** The content a file would give, whatever its state. *)
Definition content_of (st : file_state) : bytes :=
  match st with
  | Regular content => content
  | Unopenable _ => []
  | Faulty content _ _ => content
  end.

End FS.
Import FS.

(** ** What the run needs from outside *)

Record world := {
  (** the paths [os.path.join(root, file)] in the order of [os.walk] *)
  os_walk : string -> list string;
  isfile : string -> bool;
  isdir : string -> bool;
  islink : string -> bool;
  (** [os.path.getsize]; an error is an [OSError] *)
  getsize : string -> result Z;
  (** the state of each file when the sampler opens it *)
  files : string -> file_state;
  (** [gzip.compress] and [bz2.compress], data and level *)
  gzip_compress : bytes -> Z -> bytes;
  bz2_compress : bytes -> Z -> bytes
}.

Definition inventory := list (string * Z).

Definition total_size (files_with_sizes : inventory) : Z :=
  sum (map snd files_with_sizes).

(** ** The console *)

(** What the scripts print or log, with the values still unformatted:
    f-string formatting and [human_readable_size] only render them. *)
Inductive line :=
| TotalFiles (n : Z)
| TotalSize (total : Z)
| SamplingEvery (sample_size chunk : Z)
| CompressedSample (n : Z)
| OriginalSample (n : Z)
| Rule
| OriginalSize (n : Z)
| EstimatedSize (x : num)
| CompressionRatio (x : float)
| Warning (filepath : string) (e : exn).

(** A computation that prints and may raise. *)
Definition M (A : Type) : Type := list line -> list line * result A.

Definition ret {A} (a : A) : M A := fun out => (out, OK a).

Definition raise {A} (e : exn) : M A := fun out => (out, Raise e).

Definition lift {A} (r : result A) : M A := fun out => (out, r).

Definition bind {A B} (m : M A) (k : A -> M B) : M B :=
  fun out =>
    match m out with
    | (out', OK a) => k a out'
    | (out', Raise e) => (out', Raise e)
    end.

Definition print (l : line) : M unit := fun out => (out ++ [l], OK tt).

Definition when (b : bool) (m : M unit) : M unit := if b then m else ret tt.

Declare Scope py_scope.
Delimit Scope py_scope with py.
Notation "x <- m ;; k" := (bind m (fun x => k))
  (at level 61, m at next level, right associativity) : py_scope.
Notation "m ;; k" := (bind m (fun _ => k))
  (at level 61, right associativity) : py_scope.
Local Open Scope py_scope.

(** The run of a computation from an empty console. *)
Definition run {A} (m : M A) : list line * result A := m [].
Definition printed {A} (m : M A) : list line := fst (run m).
Definition outcome {A} (m : M A) : result A := snd (run m).

(** ** The sampling walk, state and log *)

(** One [f.seek(relative_offset); f.read(sample_size)]: the inventory
    index of the file, the sampling point, [current_offset] at that
    moment and the bytes read. *)
Record window := {
  w_file : nat;
  w_point : Z;
  w_offset : Z;
  w_data : bytes
}.

(** The local variables of [sample_data] that the loop updates, and the
    log of the reads done so far. *)
Record sampler := {
  sampled_data : bytes;
  sampling_points : list Z;
  current_offset : Z;
  reads : list window
}.

(** [not sampling_points or sampling_points[0] >= limit] *)
Definition no_point_below (points : list Z) (limit : Z) : bool :=
  match points with
  | [] => true
  | p :: _ => p >=? limit
  end.

(** The [while] loop over the sampling points that fall in the open
    file, the same in the two scripts.  It stops on the first exception,
    keeping what the earlier turns appended and popped. *)
Fixpoint read_windows (f : handle) (sample_size : Z) (index : nat)
    (filesize offset : Z) (points : list Z) (data : bytes)
    (log : list window) : list Z * bytes * list window * option exn :=
  match points with
  | [] => (points, data, log, None)
  | p :: rest =>
      if offset + filesize >? p then
        let relative_offset := p - offset in
        match seek_read f relative_offset sample_size with
        | OK chunk =>
            read_windows f sample_size index filesize offset rest
              (data ++ chunk)
              (log ++ [{| w_file := index; w_point := p;
                          w_offset := offset; w_data := chunk |}])
        | Raise e => (points, data, log, Some e)
        end
      else (points, data, log, None)
  end.

(** ** python/zip-sizer.py *)

Module ZipSizer.

Definition CHUNKSIZE : Z := 10 * 1024 * 1024.

Inductive algo := gzip | bzip2.

(** The parsed command line, the global [args]. *)
Record args := {
  algorithm : algo;
  level : Z;
  sampling_ratio : float;
  verbose : bool
}.

(** The test of lines 215-217, which ends the run. *)
Definition ratio_rejected (r : float) : bool :=
  fleb r zero || fltb one r.

Fixpoint list_files (w : world) (paths : list string) (acc : inventory)
  : M inventory :=
  match paths with
  | [] => ret acc
  | filepath :: rest =>
      if negb (isfile w filepath) || isdir w filepath || islink w filepath
      then list_files w rest acc
      else
        match getsize w filepath with
        | OK filesize => list_files w rest (acc ++ [(filepath, filesize)])
        | Raise (OSError _) =>
            (* [logging.warning] does not take the keyword [file] *)
            raise TypeError
        | Raise e => raise e
        end
  end.

Definition list_files_with_sizes (w : world) (directory : string)
  : M inventory :=
  list_files w (os_walk w directory) [].

(** [int(args.sampling_ratio * CHUNKSIZE)] *)
Definition sample_size_of (a : args) : result Z :=
  match fmul_int (sampling_ratio a) CHUNKSIZE with
  | OK x => int_of_float x
  | Raise e => Raise e
  end.

(** The [except] clauses of [sample_data]: [IOError] is [OSError], so
    every [OSError] is caught, and so is [TypeError]. *)
Definition caught (e : exn) : bool :=
  match e with
  | OSError _ | TypeError => true
  | _ => false
  end.

(** The [for] loop of [sample_data]. *)
Fixpoint walk (w : world) (sample_size : Z) (index : nat)
    (files_with_sizes : inventory) (st : sampler) : M sampler :=
  match files_with_sizes with
  | [] => ret st
  | (filepath, filesize) :: rest =>
      if no_point_below (sampling_points st) (current_offset st + filesize)
      then
        walk w sample_size (S index) rest
          {| sampled_data := sampled_data st;
             sampling_points := sampling_points st;
             current_offset := current_offset st + filesize;
             reads := reads st |}
      else
        match open (files w filepath) with
        | OK f =>
            let '(points, data, log, raised) :=
              read_windows f sample_size index filesize (current_offset st)
                (sampling_points st) (sampled_data st) (reads st) in
            match raised with
            | None =>
                walk w sample_size (S index) rest
                  {| sampled_data := data;
                     sampling_points := points;
                     current_offset := current_offset st + filesize;
                     reads := log |}
            | Some e =>
                if caught e then
                  print (Warning filepath e) ;;
                  walk w sample_size (S index) rest
                    {| sampled_data := data;
                       sampling_points := points;
                       current_offset := current_offset st;
                       reads := log |}
                else raise e
            end
        | Raise e =>
            if caught e then
              print (Warning filepath e) ;;
              walk w sample_size (S index) rest st
            else raise e
        end
  end.

(** [sample_data], with the final state of its locals. *)
Definition sample_data_state (w : world) (a : args)
    (files_with_sizes : inventory) : M sampler :=
  let total_size := total_size files_with_sizes in
  when (verbose a)
    (print (TotalFiles (Z.of_nat (List.length files_with_sizes))) ;;
     print (TotalSize total_size)) ;;
  sample_size <- lift (sample_size_of a) ;;
  when (verbose a) (print (SamplingEvery sample_size CHUNKSIZE)) ;;
  sampling_points <- lift (range (CHUNKSIZE - sample_size) total_size CHUNKSIZE) ;;
  walk w sample_size 0 files_with_sizes
    {| sampled_data := [];
       sampling_points := sampling_points;
       current_offset := 0;
       reads := [] |}.

Definition sample_data (w : world) (a : args) (files_with_sizes : inventory)
  : M bytes :=
  st <- sample_data_state w a files_with_sizes ;;
  ret (sampled_data st).

Definition compress_sampled_data (w : world) (a : args) (sampled_data : bytes)
  : M Z :=
  let compressed_data :=
    match algorithm a with
    | bzip2 => bz2_compress w sampled_data (level a)
    | gzip => gzip_compress w sampled_data (level a)
    end in
  when (verbose a)
    (print (CompressedSample (len compressed_data)) ;;
     print (OriginalSample (len sampled_data))) ;;
  ret (len compressed_data).

(** Step 4 of [main]: the extrapolation. *)
Definition estimate (compressed_size sample_len original_size : Z)
  : result num :=
  if original_size >? 0 then
    match float_of_int compressed_size with
    | OK c =>
        match fdiv_int c sample_len with
        | OK q =>
            match fmul_int q original_size with
            | OK x => OK (Float x)
            | Raise e => Raise e
            end
        | Raise e => Raise e
        end
    | Raise e => Raise e
    end
  else OK (Int 0).

(** Steps 2 to 5 of [main], from the inventory on. *)
Definition report (w : world) (a : args) (files_with_sizes : inventory)
  : M unit :=
  sampled_data <- sample_data w a files_with_sizes ;;
  compressed_size <- compress_sampled_data w a sampled_data ;;
  let original_size := total_size files_with_sizes in
  compressed_size <-
    lift (estimate compressed_size (len sampled_data) original_size) ;;
  print Rule ;;
  print (OriginalSize original_size) ;;
  print (EstimatedSize compressed_size) ;;
  ratio <- lift (truediv original_size compressed_size) ;;
  print (CompressionRatio ratio) ;;
  print Rule.

Definition main (w : world) (a : args) (directory : string) : M unit :=
  files_with_sizes <- list_files_with_sizes w directory ;;
  report w a files_with_sizes.

(** [human_readable_size]: the number and the unit that the result
    shows, the number with two decimals, or the exception of the
    division or of the formatting. *)
Definition units : list string := ["B"; "KB"; "MB"; "GB"; "TB"]%string.

Fixpoint scale (size : num) (units : list string) : result (num * string) :=
  match units with
  | [] =>
      match formatted size with
      | OK shown => OK (shown, "PB"%string)
      | Raise e => Raise e
      end
  | unit :: rest =>
      if lt_1024 size then
        match formatted size with
        | OK shown => OK (shown, unit)
        | Raise e => Raise e
        end
      else
        match div_1024 size with
        | OK size' => scale (Float size') rest
        | Raise e => Raise e
        end
  end.

Definition human_readable_size (size : num) : result (num * string) :=
  scale size units.

(** The checks of the command line before [main] is called, lines 211
    to 229: what ends the run, or [Run]. *)
Inductive verdict :=
| Usage
| BadSamplingRatio
| BadLevel
| NotADirectory
| Run.

Definition validate (w : world) (directory : option string) (a : args)
  : verdict :=
  match directory with
  | None => Usage
  | Some d =>
      if ratio_rejected (sampling_ratio a) then BadSamplingRatio
      else if (level a <? 1) || (level a >? 9) then BadLevel
      else if negb (isdir w d) then NotADirectory
      else Run
  end.

End ZipSizer.

(** ** estimate-compression.py *)

Module EstimateCompression.

Definition default_chunk_size : Z := 10 * 1024 * 1024.
Definition default_sample_size : Z := 1 * 1024 * 1024.

(** The [for] loop of [sample_data]: no exception is caught. *)
Fixpoint walk (w : world) (sample_size : Z) (index : nat)
    (files_with_sizes : inventory) (st : sampler) : result sampler :=
  match files_with_sizes with
  | [] => OK st
  | (filepath, filesize) :: rest =>
      if no_point_below (sampling_points st) (current_offset st + filesize)
      then
        walk w sample_size (S index) rest
          {| sampled_data := sampled_data st;
             sampling_points := sampling_points st;
             current_offset := current_offset st + filesize;
             reads := reads st |}
      else
        match open (files w filepath) with
        | OK f =>
            let '(points, data, log, raised) :=
              read_windows f sample_size index filesize (current_offset st)
                (sampling_points st) (sampled_data st) (reads st) in
            match raised with
            | None =>
                walk w sample_size (S index) rest
                  {| sampled_data := data;
                     sampling_points := points;
                     current_offset := current_offset st + filesize;
                     reads := log |}
            | Some e => Raise e
            end
        | Raise e => Raise e
        end
  end.

Definition sample_data (w : world) (files_with_sizes : inventory)
    (chunk_size sample_size : Z) : result bytes :=
  let total_size := total_size files_with_sizes in
  match range (chunk_size - sample_size) total_size chunk_size with
  | OK sampling_points =>
      match walk w sample_size 0 files_with_sizes
              {| sampled_data := [];
                 sampling_points := sampling_points;
                 current_offset := 0;
                 reads := [] |} with
      | OK st => OK (sampled_data st)
      | Raise e => Raise e
      end
  | Raise e => Raise e
  end.

(** [list_files_with_sizes]: every name of the walk, no filter, and
    an error of [getsize] ends the run. *)
Fixpoint list_files (w : world) (paths : list string) (acc : inventory)
  : result inventory :=
  match paths with
  | [] => OK acc
  | filepath :: rest =>
      match getsize w filepath with
      | OK filesize => list_files w rest (acc ++ [(filepath, filesize)])
      | Raise e => Raise e
      end
  end.

Definition list_files_with_sizes (w : world) (directory : string)
  : result inventory :=
  list_files w (os_walk w directory) [].

Definition compress_sampled_data (w : world) (sampled_data : bytes) : Z :=
  len (gzip_compress w sampled_data 9).

(** The two lines that [main] prints. *)
Inductive output :=
| Sampled (n : Z)
| CompressedSize (x : num).

(** Step 4 of [main]: both operands of the division are integers. *)
Definition estimate (compressed_size sample_len original_size : Z)
  : result num :=
  if original_size >? 0 then
    match int_truediv compressed_size sample_len with
    | OK q =>
        match fmul_int q original_size with
        | OK x => OK (Float x)
        | Raise e => Raise e
        end
    | Raise e => Raise e
    end
  else OK (Int 0).

Definition main (w : world) (directory : string)
  : list output * result unit :=
  match list_files_with_sizes w directory with
  | Raise e => ([], Raise e)
  | OK files_with_sizes =>
      match sample_data w files_with_sizes default_chunk_size
              default_sample_size with
      | Raise e => ([], Raise e)
      | OK sampled_data =>
          let compressed_size := compress_sampled_data w sampled_data in
          let original_size := total_size files_with_sizes in
          match estimate compressed_size (len sampled_data) original_size with
          | OK x => ([Sampled (len sampled_data); CompressedSize x], OK tt)
          | Raise e => ([Sampled (len sampled_data)], Raise e)
          end
      end
  end.

End EstimateCompression.


(** ** Observations on a run *)

(** The bytes a list of reads returned, the reads done in the file of
    inventory index [i], and their volume. *)
Definition bytes_of (log : list window) : Z :=
  sum (map (fun e => len (w_data e)) log).

Definition reads_of (i : nat) (log : list window) : list window :=
  filter (fun e => Nat.eqb (w_file e) i) log.

Definition bytes_read_from (i : nat) (log : list window) : Z :=
  bytes_of (reads_of i log).

(** Consecutive elements are at least [gap] apart. *)
Definition spaced (gap : Z) : list Z -> Prop :=
  StronglySorted (fun a b => a + gap <= b).

(** The read [e] was done by the [while] loop on the handle [f] of the
    file of index [i], of listed size [size], met at [offset]. *)
Definition window_of (f : handle) (sample_size : Z) (i : nat)
    (size offset : Z) (e : window) : Prop :=
  w_file e = i /\ w_offset e = offset /\ w_point e < offset + size /\
  seek_read f (w_point e - offset) sample_size = OK (w_data e).

(** The read [e] was done in a file of the inventory that opened, at a
    point of the range the loop held for that file. *)
Definition read_in (w : world) (files_with_sizes : inventory)
    (sample_size : Z) (e : window) : Prop :=
  exists filepath filesize f,
    nth_error files_with_sizes (w_file e) = Some (filepath, filesize) /\
    open (files w filepath) = OK f /\
    w_offset e <= w_point e < w_offset e + filesize /\
    seek_read f (w_point e - w_offset e) sample_size = OK (w_data e).

(** What the walk keeps true of its state when it reaches the file of
    index [i]: the points left lie at or after [current_offset], the
    buffer is what the reads returned, the points read and the points
    left make the plan, and no file gave more than it holds. *)
Definition walk_inv (w : world) (files_with_sizes : inventory)
    (sample_size : Z) (plan : list Z) (i : nat) (st : sampler) : Prop :=
  Forall (fun p => current_offset st <= p) (sampling_points st) /\
  sampled_data st = List.concat (map w_data (reads st)) /\
  Forall (fun e => (w_file e < i)%nat /\
                   read_in w files_with_sizes sample_size e) (reads st) /\
  plan = map w_point (reads st) ++ sampling_points st /\
  (forall j filepath filesize,
      nth_error files_with_sizes j = Some (filepath, filesize) ->
      bytes_read_from j (reads st) <= len (content_of (files w filepath))).

(** No file of the inventory fails to open or to read. *)
Definition error_free (w : world) (files_with_sizes : inventory) : Prop :=
  Forall (fun entry => exists content, files w (fst entry) = Regular content)
         files_with_sizes.

(** The virtual offset of the file of index [i]: the sizes before it. *)
Definition virtual_offset (files_with_sizes : inventory) (i : nat) : Z :=
  total_size (firstn i files_with_sizes).

(** A double in the interval (0, 1]. *)
Definition in_unit_interval (r : float) : Prop :=
  valid_binary prec emax r = true /\ fltb zero r = true /\ fleb r one = true.

(** [y] is [x] shifted right by the factor [d]: the mantissa is divided,
    and the two lost-bit flags stay clear when nothing is lost. *)
Definition lossless (x : shr_record) : Prop :=
  shr_r x = false /\ shr_s x = false.

Definition shifts (d : Z) (x y : shr_record) : Prop :=
  0 <= shr_m y /\ shr_m y = shr_m x / d /\
  (lossless x -> (d | shr_m x) -> lossless y).

(** A computation only appends to the console, and what it appends and
    returns does not depend on what was printed before. *)
Definition appends {A} (m : M A) : Prop :=
  forall out, m out = (out ++ printed m, outcome m).

(** ** Inputs of the examples *)

Definition MiB : Z := 1024 * 1024.

(** The default of [--sampling-ratio]: 0.1 as a double. *)
Definition ratio_default : float := S754_finite false 7205759403792794 (-56).

Definition default_args : ZipSizer.args :=
  {| ZipSizer.algorithm := ZipSizer.gzip;
     ZipSizer.level := 9;
     ZipSizer.sampling_ratio := ratio_default;
     ZipSizer.verbose := false |}.

(** A small tree: two files of three bytes, and compressors that only
    put a two-byte header before the data. *)
Definition small_world : world :=
  {| os_walk := fun _ => ["a"%string; "b"%string];
     isfile := fun _ => true;
     isdir := fun _ => false;
     islink := fun _ => false;
     getsize := fun _ => OK 3;
     files := fun _ => Regular [x01; x02; x03];
     gzip_compress := fun data _ => x1f :: x8b :: data;
     bz2_compress := fun data _ => x42 :: x5a :: data |}.

Definition small_inventory : inventory := [("a"%string, 3); ("b"%string, 3)].

(** Three files of 4 MiB each. *)
Definition three_files (p1 p2 p3 : string) : inventory :=
  [(p1, 4 * MiB); (p2, 4 * MiB); (p3, 4 * MiB)].

(** A tree for the three files of 4 MiB: every file holds 4 MiB of
    zero bytes. *)
Definition zeros (n : Z) : bytes := repeat x00 (Z.to_nat n).

Definition zeros_world : world :=
  {| os_walk := fun _ => ["f1"%string; "f2"%string; "f3"%string];
     isfile := fun _ => true;
     isdir := fun _ => false;
     islink := fun _ => false;
     getsize := fun _ => OK (4 * MiB);
     files := fun _ => Regular (zeros (4 * MiB));
     gzip_compress := fun data _ => x1f :: x8b :: data;
     bz2_compress := fun data _ => x42 :: x5a :: data |}.

(** The length [compress_sampled_data] returns. *)
Definition compressed_length (w : world) (a : ZipSizer.args) (data : bytes)
  : Z :=
  len (match ZipSizer.algorithm a with
       | ZipSizer.bzip2 => bz2_compress w data (ZipSizer.level a)
       | ZipSizer.gzip => gzip_compress w data (ZipSizer.level a)
       end).

(** What [compress_sampled_data] prints. *)
Definition compress_lines (w : world) (a : ZipSizer.args) (data : bytes)
  : list line :=
  if ZipSizer.verbose a
  then [CompressedSample (compressed_length w a data);
        OriginalSample (len data)]
  else [].

(** Steps 4 and 5 of [main] on the three numbers they use: the lines
    printed and the outcome. *)
Definition report_tail (compressed_size sample_len original_size : Z)
  : list line * result unit :=
  match ZipSizer.estimate compressed_size sample_len original_size with
  | Raise e => ([], Raise e)
  | OK est =>
      match truediv original_size est with
      | Raise e =>
          ([Rule; OriginalSize original_size; EstimatedSize est], Raise e)
      | OK ratio =>
          ([Rule; OriginalSize original_size; EstimatedSize est;
            CompressionRatio ratio; Rule], OK tt)
      end
  end.

(** Two files of 12 MiB each. *)
Definition two_files (pa pb : string) : inventory :=
  [(pa, 12 * MiB); (pb, 12 * MiB)].

(** A tree for the two files of 12 MiB: the first cannot be opened
    (permission denied), the second holds 12 MiB of zero bytes. *)
Definition locked_world : world :=
  {| os_walk := fun _ => ["a"%string; "b"%string];
     isfile := fun _ => true;
     isdir := fun _ => false;
     islink := fun _ => false;
     getsize := fun _ => OK (12 * MiB);
     files := fun p => if String.eqb p "a" then Unopenable EACCES
                       else Regular (zeros (12 * MiB));
     gzip_compress := fun data _ => x1f :: x8b :: data;
     bz2_compress := fun data _ => x42 :: x5a :: data |}.

(** ** The flag [--verbose] *)

(** The lines that are printed under [if args.verbose]. *)
Definition diagnostic (l : line) : bool :=
  match l with
  | TotalFiles _ | TotalSize _ | SamplingEvery _ _
  | CompressedSample _ | OriginalSample _ => true
  | _ => false
  end.

(** The console without its diagnostics. *)
Definition quiet (out : list line) : list line :=
  filter (fun l => negb (diagnostic l)) out.

Definition with_verbose (b : bool) (a : ZipSizer.args) : ZipSizer.args :=
  {| ZipSizer.algorithm := ZipSizer.algorithm a;
     ZipSizer.level := ZipSizer.level a;
     ZipSizer.sampling_ratio := ZipSizer.sampling_ratio a;
     ZipSizer.verbose := b |}.

(** Two computations end the same way, and the second prints what the
    first does less the diagnostics. *)
Definition same_results {A} (mv mq : M A) : Prop :=
  outcome mv = outcome mq /\ quiet (printed mv) = printed mq.

(** ** The sample size *)

(** [round(x)] in the words of the specification: the nearest integer,
    a tie going to the even one as Python's [round] does. *)
Definition round_nearest (x : float) : result Z :=
  match x with
  | S754_nan => Raise ValueError
  | S754_infinity _ => Raise OverflowError
  | S754_zero _ => OK 0
  | S754_finite s m e =>
      let a :=
        if 0 <=? e then Zpos m * 2 ^ e
        else
          let d := 2 ^ (- e) in
          let q := Zpos m / d in
          let r := Zpos m mod d in
          if 2 * r <? d then q
          else if d <? 2 * r then q + 1
          else if Z.even q then q else q + 1 in
      OK (if s then - a else a)
  end.

(** [round(args.sampling_ratio * CHUNKSIZE)] *)
Definition sample_size_rounded (a : ZipSizer.args) : result Z :=
  match fmul_int (ZipSizer.sampling_ratio a) ZipSizer.CHUNKSIZE with
  | OK x => round_nearest x
  | Raise e => Raise e
  end.

(** [n <= x < n + 1] for a float [x] that is not negative. *)
Definition floor_is (n : Z) (x : float) : Prop :=
  match x with
  | S754_zero _ => n = 0
  | S754_finite false m e =>
      if 0 <=? e then n = Zpos m * 2 ^ e
      else n * 2 ^ (- e) <= Zpos m < (n + 1) * 2 ^ (- e)
  | _ => False
  end.

(** 0.33 and 2^-24 as doubles. *)
Definition ratio_third : float := S754_finite false 5944751508129055 (-54).
Definition ratio_tiny : float := S754_finite false 4503599627370496 (-76).

Definition args_with_ratio (r : float) : ZipSizer.args :=
  {| ZipSizer.algorithm := ZipSizer.gzip;
     ZipSizer.level := 9;
     ZipSizer.sampling_ratio := r;
     ZipSizer.verbose := false |}.

(** ** The magnitude of a double *)

(** The binary exponent of a finite double: [2 ^ (magnitude x - 1)] is
    at most its absolute value, which is below [2 ^ magnitude x]. *)
Definition magnitude (x : float) : Z :=
  match x with
  | S754_finite _ m e => Zdigits2 (Zpos m) + e
  | _ => 0
  end.

(** [x] is finite and not zero with a magnitude of at least [k], or it
    is infinite. *)
Definition at_least (k : Z) (x : float) : Prop :=
  match x with
  | S754_finite _ _ _ => k <= magnitude x
  | S754_infinity _ => True
  | _ => False
  end.

(** 25000.0 and 4.0 as doubles. *)
Definition f25000 : float := S754_finite false 6871947673600000 (-38).
Definition f4 : float := S754_finite false 4503599627370496 (-50).

(** ** The two scripts side by side *)

(** What [sample_data] of [zip-sizer.py] prints before the walk. *)
Definition sampler_lines (a : ZipSizer.args) (files_with_sizes : inventory)
    (sample_size : Z) : list line :=
  if ZipSizer.verbose a
  then [TotalFiles (Z.of_nat (List.length files_with_sizes));
        TotalSize (total_size files_with_sizes);
        SamplingEvery sample_size ZipSizer.CHUNKSIZE]
  else [].

(** The start of the walk. *)
Definition initial (plan : list Z) : sampler :=
  {| sampled_data := []; sampling_points := plan;
     current_offset := 0; reads := [] |}.

(** The filter of [list_files_with_sizes] in [zip-sizer.py]. *)
Definition listed (w : world) (filepath : string) : bool :=
  isfile w filepath && negb (isdir w filepath) && negb (islink w filepath).

(** A tree where the size of the second file cannot be read: the file
    vanished after the walk. *)
Definition vanished_world : world :=
  {| os_walk := fun _ => ["a"%string; "b"%string; "c"%string];
     isfile := fun _ => true;
     isdir := fun _ => false;
     islink := fun _ => false;
     getsize := fun p => if String.eqb p "b" then Raise (OSError ENOENT)
                         else OK 3;
     files := fun _ => Regular [x01; x02; x03];
     gzip_compress := fun data _ => x1f :: x8b :: data;
     bz2_compress := fun data _ => x42 :: x5a :: data |}.

(** A tree with a directory entry and a symbolic link among the names. *)
Definition mixed_world : world :=
  {| os_walk := fun _ => ["a"%string; "link"%string; "b"%string];
     isfile := fun _ => true;
     isdir := fun _ => false;
     islink := fun p => String.eqb p "link";
     getsize := fun _ => OK 3;
     files := fun _ => Regular [x01; x02; x03];
     gzip_compress := fun data _ => x1f :: x8b :: data;
     bz2_compress := fun data _ => x42 :: x5a :: data |}.

(** A directory ["d"] with two files of three bytes. *)
Definition tree_world : world :=
  {| os_walk := fun _ => ["d/a"%string; "d/b"%string];
     isfile := fun p => negb (String.eqb p "d");
     isdir := fun p => String.eqb p "d";
     islink := fun _ => false;
     getsize := fun _ => OK 3;
     files := fun _ => Regular [x01; x02; x03];
     gzip_compress := fun data _ => x1f :: x8b :: data;
     bz2_compress := fun data _ => x42 :: x5a :: data |}.
(** * Properties *)

(** ** Lists, sums and ranges *)

Lemma sum_from (l : list Z) (a : Z) : fold_left Z.add l a = a + sum l.
Proof.
  unfold sum. revert a.
  induction l as [|x l IH]; intros a; simpl; [lia|].
  rewrite (IH (a + x)), (IH x). lia.
Qed.

Lemma sum_cons (x : Z) (l : list Z) : sum (x :: l) = x + sum l.
Proof. unfold sum at 1. simpl. apply sum_from. Qed.

Lemma sum_app (l1 l2 : list Z) : sum (l1 ++ l2) = sum l1 + sum l2.
Proof.
  induction l1 as [|x l1 IH]; simpl; [reflexivity|].
  rewrite !sum_cons, IH. lia.
Qed.

Lemma total_size_cons (path : string) (size : Z) (l : inventory) :
  total_size ((path, size) :: l) = size + total_size l.
Proof. unfold total_size. simpl. apply sum_cons. Qed.

Lemma total_size_app (l1 l2 : inventory) :
  total_size (l1 ++ l2) = total_size l1 + total_size l2.
Proof. unfold total_size. rewrite map_app. apply sum_app. Qed.

Lemma len_app (a b : bytes) : len (a ++ b) = len a + len b.
Proof. unfold len. rewrite length_app. lia. Qed.

Lemma len_nonneg (a : bytes) : 0 <= len a.
Proof. unfold len. lia. Qed.

Lemma range_from_length (start step : Z) (n : nat) :
  List.length (range_from start step n) = n.
Proof. revert start. induction n; intros; simpl; congruence. Qed.

(** The elements of a range with a positive step lie from [start] on. *)
Lemma range_from_lower (step : Z) (n : nat) (start : Z) :
  0 <= step -> Forall (fun p => start <= p) (range_from start step n).
Proof.
  intros Hstep. revert start.
  induction n as [|n IH]; intros start; simpl; constructor; [lia|].
  eapply Forall_impl; [|apply IH]. simpl. intros; lia.
Qed.

(** They increase strictly when the step is positive. *)
Lemma range_from_sorted (step : Z) (n : nat) (start : Z) :
  0 < step -> StronglySorted Z.lt (range_from start step n).
Proof.
  intros Hstep. revert start.
  induction n as [|n IH]; intros start; simpl; constructor; [apply IH|].
  eapply Forall_impl; [|apply (range_from_lower step n (start + step)); lia].
  simpl. intros; lia.
Qed.

(** The points of [range(start, stop, step)] lie below [stop]. *)
Lemma range_from_upper (step stop : Z) (n : nat) (start : Z) :
  0 < step -> Z.of_nat n <= (stop - start + step - 1) / step ->
  Forall (fun p => p < stop) (range_from start step n).
Proof.
  intros Hstep. revert start.
  induction n as [|n IH]; intros start Hn; simpl; constructor.
  - assert (1 <= (stop - start + step - 1) / step) by lia.
    assert (step * ((stop - start + step - 1) / step) <= stop - start + step - 1)
      by (apply Z.mul_div_le; lia).
    nia.
  - apply IH.
    replace (stop - (start + step) + step - 1) with (stop - start + step - 1 + (-1) * step) by lia.
    rewrite Z.div_add by lia. lia.
Qed.

Lemma range_positive_step (start stop step : Z) :
  0 < step ->
  range start stop step =
  OK (range_from start step (Z.to_nat ((stop - start + step - 1) / step))).
Proof.
  intros H. unfold range.
  destruct (Z.eqb_spec step 0); [lia|].
  destruct (Z.ltb_spec 0 step); [reflexivity|lia].
Qed.

(** A range is empty when it starts at or after its stop. *)
Lemma range_empty (start stop step : Z) :
  0 < step -> stop <= start -> range start stop step = OK [].
Proof.
  intros Hstep Hle. rewrite range_positive_step by assumption.
  assert ((stop - start + step - 1) / step <= 0).
  { apply Z.lt_succ_r. apply Z.div_lt_upper_bound; lia. }
  replace (Z.to_nat _) with 0%nat by lia. reflexivity.
Qed.

Lemma OK_inj {A} (a b : A) : OK a = OK b -> a = b.
Proof. intros H. inversion H. reflexivity. Qed.

Lemma spaced_range_from (step : Z) (n : nat) (start : Z) :
  0 <= step -> spaced step (range_from start step n).
Proof.
  intros Hstep. revert start.
  induction n as [|n IH]; intros start; simpl; constructor; [apply IH|].
  eapply Forall_impl; [|apply (range_from_lower step n (start + step)); lia].
  simpl. intros; lia.
Qed.

Lemma spaced_app_r (gap : Z) (l1 l2 : list Z) :
  spaced gap (l1 ++ l2) -> spaced gap l2.
Proof.
  induction l1 as [|x l1 IH]; simpl; intros H; [exact H|].
  apply IH. apply StronglySorted_inv in H. tauto.
Qed.

Lemma spaced_app_l (gap : Z) (l1 l2 : list Z) :
  spaced gap (l1 ++ l2) -> spaced gap l1.
Proof.
  induction l1 as [|x l1 IH]; simpl; intros H; [constructor|].
  apply StronglySorted_inv in H. destruct H as [H1 H2].
  constructor; [apply IH; exact H1|].
  apply Forall_app in H2. tauto.
Qed.

Lemma spaced_lower (gap p : Z) (l : list Z) :
  0 <= gap -> spaced gap (p :: l) -> Forall (fun x => p <= x) (p :: l).
Proof.
  intros Hgap H. apply StronglySorted_inv in H. destruct H as [_ H].
  constructor; [lia|].
  eapply Forall_impl; [|exact H]. simpl; intros; lia.
Qed.

Lemma spaced_increasing (gap : Z) (l : list Z) :
  0 < gap -> spaced gap l -> StronglySorted Z.lt l.
Proof.
  intros Hgap H. induction H as [|x l Hs IH Hx]; constructor; [exact IH|].
  eapply Forall_impl; [|exact Hx]. simpl; intros; lia.
Qed.

(** ** One file: [seek], [read] and the [while] loop *)

Lemma slice_length (content : bytes) (pos n : Z) :
  0 <= pos -> 0 <= n ->
  len (slice content pos n) = Z.min n (Z.max 0 (len content - pos)).
Proof.
  intros Hpos Hn. unfold slice, len.
  rewrite length_firstn, length_skipn. lia.
Qed.

Lemma open_content (st : file_state) (f : handle) :
  open st = OK f -> h_content f = content_of st.
Proof.
  destruct st; simpl; intros H; inversion H; reflexivity.
Qed.

Lemma open_regular (content : bytes) :
  open (Regular content) = OK {| h_content := content; h_bad := None |}.
Proof. reflexivity. Qed.

(** A read that returns started at a position that is not negative. *)
Lemma seek_read_pos (f : handle) (pos n : Z) (data : bytes) :
  seek_read f pos n = OK data -> 0 <= pos.
Proof.
  unfold seek_read. destruct (Z.ltb_spec pos 0); [discriminate|lia].
Qed.

(** It returns the slice asked for. *)
Lemma seek_read_slice (f : handle) (pos n : Z) (data : bytes) :
  0 <= n -> seek_read f pos n = OK data -> data = slice (h_content f) pos n.
Proof.
  intros Hn. unfold seek_read.
  destruct (Z.ltb_spec pos 0); [discriminate|].
  destruct (Z.ltb_spec n (-1)); [lia|].
  destruct (Z.eqb_spec n (-1)); [lia|].
  destruct (h_bad f) as [[bad c]|].
  - destruct (Z.max pos bad <? pos + len (slice (h_content f) pos n));
      intros Hd; inversion Hd; reflexivity.
  - intros Hd; inversion Hd; reflexivity.
Qed.

Lemma seek_read_length (f : handle) (pos n : Z) (data : bytes) :
  0 <= n -> seek_read f pos n = OK data ->
  len data = Z.min n (Z.max 0 (len (h_content f) - pos)).
Proof.
  intros Hn H.
  pose proof (seek_read_pos _ _ _ _ H) as Hpos.
  rewrite (seek_read_slice _ _ _ _ Hn H).
  apply slice_length; assumption.
Qed.

(** On a file without a fault, a read at a position that is not negative
    returns. *)
Lemma seek_read_regular (f : handle) (pos n : Z) :
  h_bad f = None -> 0 <= pos -> 0 <= n ->
  seek_read f pos n = OK (slice (h_content f) pos n).
Proof.
  intros Hbad Hpos Hn. unfold seek_read. rewrite Hbad.
  destruct (Z.ltb_spec pos 0); [lia|].
  destruct (Z.ltb_spec n (-1)); [lia|].
  destruct (Z.eqb_spec n (-1)); [lia|reflexivity].
Qed.

(** The only exceptions of a read with a size from [-1] on are
    [OSError]s. *)
Lemma seek_read_raises (f : handle) (pos n : Z) (e : exn) :
  -1 <= n -> seek_read f pos n = Raise e -> exists c, e = OSError c.
Proof.
  intros Hn. unfold seek_read.
  destruct (Z.ltb_spec pos 0); [intros Hd; inversion Hd; eauto|].
  destruct (Z.ltb_spec n (-1)); [lia|].
  destruct (h_bad f) as [[bad c]|]; [|discriminate].
  match goal with |- context [if ?b then Raise _ else _] => destruct b end;
    intros Hd; inversion Hd; eauto.
Qed.

(** What the [while] loop does to the points, the buffer and the log. *)
Lemma read_windows_spec (f : handle) (ss : Z) (i : nat) (size off : Z) :
  forall points data log points' data' log' raised,
    read_windows f ss i size off points data log
    = (points', data', log', raised) ->
    exists new,
      points = map w_point new ++ points' /\
      data' = data ++ List.concat (map w_data new) /\
      log' = log ++ new /\
      Forall (window_of f ss i size off) new /\
      (raised = None -> no_point_below points' (off + size) = true) /\
      (forall e, raised = Some e ->
                 exists p, seek_read f (p - off) ss = Raise e).
Proof.
  induction points as [|p rest IH]; intros data log points' data' log' raised;
    simpl.
  - intros H; inversion H; subst. exists []. simpl.
    rewrite !app_nil_r. repeat split; auto. discriminate.
  - destruct (Z.gtb_spec (off + size) p) as [Hin|Hout].
    + destruct (seek_read f (p - off) ss) as [chunk|e] eqn:Hread.
      * intros H. apply IH in H.
        destruct H as (new & Hp & Hd & Hl & Hw & Hn & He).
        exists ({| w_file := i; w_point := p; w_offset := off;
                   w_data := chunk |} :: new).
        simpl. rewrite Hp, Hd, Hl, <- !app_assoc. simpl.
        repeat split; auto.
        constructor; [|exact Hw].
        unfold window_of; simpl. repeat split; auto; lia.
      * intros H; inversion H; subst. exists []. simpl.
        rewrite !app_nil_r. repeat split; auto; try discriminate.
        intros e' He'; inversion He'; subst. eauto.
    + intros H; inversion H; subst. exists []. simpl.
      rewrite !app_nil_r. repeat split; auto; try discriminate.
      destruct (Z.geb_spec p (off + size)); [reflexivity|lia].
Qed.

(** On a file without a fault the loop raises nothing, as long as no
    point lies before the file. *)
Lemma read_windows_regular (f : handle) (ss : Z) (i : nat) (size off : Z) :
  h_bad f = None -> 0 <= ss ->
  forall points data log,
    Forall (fun p => off <= p) points ->
    snd (read_windows f ss i size off points data log) = None.
Proof.
  intros Hbad Hss.
  induction points as [|p rest IH]; intros data log Hge; simpl; [reflexivity|].
  inversion Hge; subst.
  destruct (off + size >? p); [|reflexivity].
  rewrite seek_read_regular by (auto; lia).
  apply IH. assumption.
Qed.

Lemma bytes_of_app (l1 l2 : list window) :
  bytes_of (l1 ++ l2) = bytes_of l1 + bytes_of l2.
Proof. unfold bytes_of. rewrite map_app. apply sum_app. Qed.

Lemma bytes_of_cons (e : window) (l : list window) :
  bytes_of (e :: l) = len (w_data e) + bytes_of l.
Proof. unfold bytes_of. simpl. apply sum_cons. Qed.

Lemma bytes_of_concat (l : list window) :
  len (List.concat (map w_data l)) = bytes_of l.
Proof.
  induction l as [|e l IH]; simpl; [reflexivity|].
  rewrite len_app, bytes_of_cons, IH. reflexivity.
Qed.

(** The windows of one file do not overlap when the sample size is at
    most the gap between the points: together they give no more bytes
    than the file holds from the first window on. *)
Lemma windows_bytes_from (f : handle) (ss step : Z) (i : nat) (size off : Z) :
  0 <= ss <= step ->
  forall new,
    Forall (window_of f ss i size off) new ->
    spaced step (map w_point new) ->
    match new with
    | [] => True
    | e :: _ =>
        bytes_of new <= Z.max 0 (len (h_content f) - (w_point e - off))
    end.
Proof.
  intros Hss. induction new as [|e new IH]; intros Hw Hsp; [exact I|].
  inversion Hw as [|? ? He Hw']; subst.
  simpl in Hsp. apply StronglySorted_inv in Hsp. destruct Hsp as [Hsp Hgap].
  specialize (IH Hw' Hsp).
  destruct He as (_ & _ & _ & Hread).
  pose proof (seek_read_length _ _ _ _ (proj1 Hss) Hread) as Hlen.
  rewrite bytes_of_cons.
  destruct new as [|e' new].
  - unfold bytes_of; simpl. unfold sum; simpl. rewrite Hlen. lia.
  - rewrite Hlen. simpl in Hgap. apply Forall_inv in Hgap.
    inversion Hw' as [|? ? He' _]; subst.
    destruct He' as (_ & _ & _ & Hread').
    apply seek_read_pos in Hread. apply seek_read_pos in Hread'.
    lia.
Qed.

Lemma windows_bytes_bound (f : handle) (ss step : Z) (i : nat) (size off : Z)
    (new : list window) :
  0 <= ss <= step ->
  Forall (window_of f ss i size off) new ->
  spaced step (map w_point new) ->
  bytes_of new <= len (h_content f).
Proof.
  intros Hss Hw Hsp.
  pose proof (windows_bytes_from f ss step i size off Hss new Hw Hsp) as H.
  destruct new as [|e new].
  - unfold bytes_of, sum; simpl. apply len_nonneg.
  - inversion Hw as [|? ? He _]; subst.
    destruct He as (_ & _ & _ & Hread).
    apply seek_read_pos in Hread.
    pose proof (len_nonneg (h_content f)). lia.
Qed.

(** ** The reads of one file in the log *)

Lemma reads_of_app (i : nat) (l1 l2 : list window) :
  reads_of i (l1 ++ l2) = reads_of i l1 ++ reads_of i l2.
Proof. apply filter_app. Qed.

Lemma reads_of_other (i : nat) (l : list window) :
  Forall (fun e => w_file e <> i) l -> reads_of i l = [].
Proof.
  induction 1 as [|e l He _ IH]; simpl; [reflexivity|].
  destruct (Nat.eqb_spec (w_file e) i); [contradiction|exact IH].
Qed.

Lemma reads_of_same (i : nat) (l : list window) :
  Forall (fun e => w_file e = i) l -> reads_of i l = l.
Proof.
  induction 1 as [|e l He _ IH]; simpl; [reflexivity|].
  destruct (Nat.eqb_spec (w_file e) i); [|contradiction].
  rewrite IH. reflexivity.
Qed.

Lemma bytes_of_nil : bytes_of [] = 0.
Proof. reflexivity. Qed.

Lemma window_of_file (f : handle) (ss : Z) (i : nat) (size off : Z)
    (l : list window) :
  Forall (window_of f ss i size off) l -> Forall (fun e => w_file e = i) l.
Proof.
  intros H. eapply Forall_impl; [|exact H].
  intros e He. destruct He as [He _]. exact He.
Qed.

(** ** The walk over the inventory *)

Section Walk.

Variables (w : world) (inv : inventory) (ss step : Z) (plan : list Z).
Hypothesis Hss : 0 <= ss <= step.
Hypothesis Hplan : spaced step plan.

(** A file without a point in it: the offset moves on. *)
Lemma walk_inv_skip (i : nat) (st : sampler) (size : Z) :
  walk_inv w inv ss plan i st ->
  no_point_below (sampling_points st) (current_offset st + size) = true ->
  walk_inv w inv ss plan (S i)
    {| sampled_data := sampled_data st;
       sampling_points := sampling_points st;
       current_offset := current_offset st + size;
       reads := reads st |}.
Proof.
  intros (Hge & Hdata & Hreads & Hpl & Hvol) Hskip.
  unfold walk_inv; simpl. repeat split; auto.
  - destruct (sampling_points st) as [|p rest] eqn:Hp; [constructor|].
    simpl in Hskip. apply Z.geb_le in Hskip.
    assert (Hsp : spaced step (p :: rest)).
    { apply (spaced_app_r step (map w_point (reads st))).
      rewrite <- Hpl. exact Hplan. }
    apply spaced_lower in Hsp; [|lia].
    eapply Forall_impl; [|exact Hsp]. simpl; intros; lia.
  - eapply Forall_impl; [|exact Hreads]. simpl. intros e [Hlt He].
    split; [lia|exact He].
Qed.

(** A file that does not open: nothing moves. *)
Lemma walk_inv_next (i : nat) (st : sampler) :
  walk_inv w inv ss plan i st -> walk_inv w inv ss plan (S i) st.
Proof.
  intros (Hge & Hdata & Hreads & Hpl & Hvol).
  unfold walk_inv. repeat split; auto.
  eapply Forall_impl; [|exact Hreads]. simpl. intros e [Hlt He].
  split; [lia|exact He].
Qed.

(** A file that opens: the loop reads its windows, and the offset moves
    on unless a read raised. *)
Lemma walk_inv_read (i : nat) (st : sampler) (filepath : string) (size : Z)
    (f : handle) (points : list Z) (data : bytes) (log : list window)
    (raised : option exn) :
  walk_inv w inv ss plan i st ->
  nth_error inv i = Some (filepath, size) ->
  open (files w filepath) = OK f ->
  read_windows f ss i size (current_offset st) (sampling_points st)
    (sampled_data st) (reads st) = (points, data, log, raised) ->
  walk_inv w inv ss plan (S i)
    {| sampled_data := data;
       sampling_points := points;
       current_offset := match raised with
                         | None => current_offset st + size
                         | Some _ => current_offset st
                         end;
       reads := log |}.
Proof.
  intros (Hge & Hdata & Hreads & Hpl & Hvol) Hnth Hopen Hrw.
  apply read_windows_spec in Hrw.
  destruct Hrw as (new & Hp & Hd & Hl & Hw & Hnone & _).
  assert (Hsp : spaced step (map w_point new ++ points)).
  { apply (spaced_app_r step (map w_point (reads st))).
    rewrite <- Hp, <- Hpl. exact Hplan. }
  unfold walk_inv; simpl. subst data log. repeat split.
  - (* the points left *)
    destruct raised as [e|].
    + rewrite Hp in Hge. apply Forall_app in Hge. tauto.
    + specialize (Hnone eq_refl).
      destruct points as [|p rest]; [constructor|].
      simpl in Hnone. apply Z.geb_le in Hnone.
      apply spaced_app_r in Hsp. apply spaced_lower in Hsp; [|lia].
      eapply Forall_impl; [|exact Hsp]. simpl; intros; lia.
  - (* the buffer *)
    rewrite Hdata, map_app, concat_app. reflexivity.
  - (* the reads *)
    apply Forall_app. split.
    + eapply Forall_impl; [|exact Hreads]. simpl. intros e [Hlt He].
      split; [lia|exact He].
    + eapply Forall_impl; [|exact Hw].
      intros e (Hfile & Hoff & Hlt & Hread). split; [lia|].
      exists filepath, size, f. rewrite Hfile, Hoff.
      pose proof (seek_read_pos _ _ _ _ Hread). repeat split; auto; lia.
  - (* the plan *)
    rewrite Hpl, Hp, map_app, <- app_assoc. reflexivity.
  - (* the volume read from each file *)
    intros j path' size' Hj.
    unfold bytes_read_from. rewrite reads_of_app, bytes_of_app.
    destruct (Nat.eq_dec j i) as [->|Hne].
    + rewrite Hnth in Hj. inversion Hj; subst path' size'.
      rewrite reads_of_other.
      2:{ eapply Forall_impl; [|exact Hreads]. simpl. intros e [Hlt _]. lia. }
      rewrite (reads_of_same i new) by (eapply window_of_file; exact Hw).
      rewrite bytes_of_nil, <- (open_content _ _ Hopen). simpl.
      eapply windows_bytes_bound; [exact Hss|exact Hw|].
      eapply spaced_app_l. exact Hsp.
    + rewrite (reads_of_other j new).
      2:{ apply window_of_file in Hw. eapply Forall_impl; [|exact Hw].
          simpl. intros e He. congruence. }
      rewrite bytes_of_nil, Z.add_0_r. apply (Hvol j path' size' Hj).
Qed.

(** The walk of [zip-sizer.py] returns, whatever the files do, and keeps
    the invariant. *)
Lemma walk_keeps_inv :
  forall files_left pre i st out,
    inv = pre ++ files_left -> i = List.length pre ->
    walk_inv w inv ss plan i st ->
    exists out' st',
      ZipSizer.walk w ss i files_left st out = (out', OK st') /\
      walk_inv w inv ss plan (List.length inv) st'.
Proof.
  induction files_left as [|[filepath size] rest IH];
    intros pre i st out Hinv Hi Hst.
  - exists out, st. split; [reflexivity|].
    replace (List.length inv) with i; [exact Hst|].
    rewrite Hinv, app_nil_r. exact Hi.
  - assert (Hnth : nth_error inv i = Some (filepath, size)).
    { rewrite Hinv, Hi, nth_error_app2, Nat.sub_diag by lia. reflexivity. }
    assert (Hnext : forall st' out',
               walk_inv w inv ss plan (S i) st' ->
               exists out'' st'',
                 ZipSizer.walk w ss (S i) rest st' out' = (out'', OK st'') /\
                 walk_inv w inv ss plan (List.length inv) st'').
    { intros st' out' Hst'.
      apply (IH (pre ++ [(filepath, size)])); auto.
      - rewrite <- app_assoc. exact Hinv.
      - rewrite length_app, Hi. simpl. lia. }
    simpl.
    destruct (no_point_below (sampling_points st) (current_offset st + size))
      eqn:Hskip.
    + apply Hnext. apply walk_inv_skip; assumption.
    + destruct (open (files w filepath)) as [f|e] eqn:Hopen.
      * destruct (read_windows f ss i size (current_offset st)
                    (sampling_points st) (sampled_data st) (reads st))
          as [[[points data] log] raised] eqn:Hrw.
        pose proof (walk_inv_read i st filepath size f points data log raised
                      Hst Hnth Hopen Hrw) as Hst'.
        destruct raised as [e|].
        -- apply read_windows_spec in Hrw.
           destruct Hrw as (_ & _ & _ & _ & _ & _ & He).
           destruct (He e eq_refl) as [p Hp].
           apply seek_read_raises in Hp; [|lia]. destruct Hp as [c ->].
           simpl. unfold bind, print. apply Hnext. exact Hst'.
        -- apply Hnext. exact Hst'.
      * destruct (files w filepath); simpl in Hopen; try discriminate.
        injection Hopen as <-.
        simpl. unfold bind, print. apply Hnext.
        apply walk_inv_next. exact Hst.
Qed.

(** When no file fails, the walk of [zip-sizer.py] logs no warning, the
    walk of [estimate-compression.py] returns the same state, and
    [current_offset] is the virtual offset of the file it has reached. *)
Lemma walk_error_free :
  forall files_left pre i st out,
    inv = pre ++ files_left -> i = List.length pre ->
    error_free w files_left ->
    walk_inv w inv ss plan i st ->
    current_offset st = total_size pre ->
    Forall (fun e => w_offset e = virtual_offset inv (w_file e)) (reads st) ->
    exists st',
      ZipSizer.walk w ss i files_left st out = (out, OK st') /\
      EstimateCompression.walk w ss i files_left st = OK st' /\
      walk_inv w inv ss plan (List.length inv) st' /\
      current_offset st' = total_size inv /\
      Forall (fun e => w_offset e = virtual_offset inv (w_file e)) (reads st').
Proof.
  induction files_left as [|[filepath size] rest IH];
    intros pre i st out Hinv Hi Hfree Hst Hoff Hvirt.
  - exists st.
    split; [reflexivity|]. split; [reflexivity|].
    split; [|split; [|exact Hvirt]].
    + replace (List.length inv) with i; [exact Hst|].
      rewrite Hinv, app_nil_r. exact Hi.
    + rewrite Hoff, Hinv, app_nil_r. reflexivity.
  - assert (Hnth : nth_error inv i = Some (filepath, size)).
    { rewrite Hinv, Hi, nth_error_app2, Nat.sub_diag by lia. reflexivity. }
    assert (Hpre : virtual_offset inv i = total_size pre).
    { unfold virtual_offset.
      rewrite Hinv, Hi, firstn_app, Nat.sub_diag, firstn_all. simpl.
      rewrite app_nil_r. reflexivity. }
    inversion Hfree as [|? ? [content Hreg] Hfree']; subst x l.
    simpl in Hreg.
    assert (Hnext : forall st',
               walk_inv w inv ss plan (S i) st' ->
               current_offset st' = total_size pre + size ->
               Forall (fun e => w_offset e = virtual_offset inv (w_file e))
                      (reads st') ->
               exists st'',
                 ZipSizer.walk w ss (S i) rest st' out = (out, OK st'') /\
                 EstimateCompression.walk w ss (S i) rest st' = OK st'' /\
                 walk_inv w inv ss plan (List.length inv) st'' /\
                 current_offset st'' = total_size inv /\
                 Forall (fun e => w_offset e = virtual_offset inv (w_file e))
                        (reads st'')).
    { intros st' Hst' Hoff' Hvirt'.
      apply (IH (pre ++ [(filepath, size)])); auto.
      - rewrite <- app_assoc. exact Hinv.
      - rewrite length_app, Hi. simpl. lia.
      - rewrite total_size_app, Hoff'. unfold total_size, sum; simpl. lia. }
    simpl.
    destruct (no_point_below (sampling_points st) (current_offset st + size))
      eqn:Hskip.
    + apply Hnext; simpl; auto; [|lia].
      apply walk_inv_skip; assumption.
    + rewrite Hreg, open_regular.
      pose proof (read_windows_regular
                    {| h_content := content; h_bad := None |} ss i size
                    (current_offset st) eq_refl (proj1 Hss)
                    (sampling_points st) (sampled_data st) (reads st)
                    (proj1 Hst)) as Hnone.
      destruct (read_windows _ ss i size (current_offset st)
                  (sampling_points st) (sampled_data st) (reads st))
        as [[[points data] log] raised] eqn:Hrw.
      simpl in Hnone. subst raised.
      assert (Hopen : open (files w filepath)
                      = OK {| h_content := content; h_bad := None |})
        by (rewrite Hreg; reflexivity).
      pose proof (walk_inv_read i st filepath size _ points data log None
                    Hst Hnth Hopen Hrw) as Hst'.
      apply Hnext; simpl; auto; [lia|].
      apply read_windows_spec in Hrw.
      destruct Hrw as (new & _ & _ & Hl & Hw & _).
      rewrite Hl. apply Forall_app. split; [exact Hvirt|].
      eapply Forall_impl; [|exact Hw].
      intros e (Hfile & Hoffe & _). rewrite Hfile, Hoffe, Hpre. exact Hoff.
Qed.

End Walk.

(** ** Binary64 arithmetic: rounding does not pass a bound *)

Lemma fexp_eq (x : Z) : fexp prec emax x = Z.max (x - 53) (-1074).
Proof. reflexivity. Qed.

Lemma digits2_pos_bounds (m : positive) :
  2 ^ (Zpos (digits2_pos m) - 1) <= Zpos m < 2 ^ Zpos (digits2_pos m).
Proof.
  induction m as [m IH|m IH|]; simpl digits2_pos.
  - rewrite Pos2Z.inj_succ, (Pos2Z.inj_xI m).
    replace (Z.succ (Zpos (digits2_pos m)) - 1)
      with (Z.succ (Zpos (digits2_pos m) - 1)) by lia.
    rewrite !Z.pow_succ_r by lia. lia.
  - rewrite Pos2Z.inj_succ, (Pos2Z.inj_xO m).
    replace (Z.succ (Zpos (digits2_pos m)) - 1)
      with (Z.succ (Zpos (digits2_pos m) - 1)) by lia.
    rewrite !Z.pow_succ_r by lia. lia.
  - simpl. lia.
Qed.

Lemma Zdigits2_nonneg (m : Z) : 0 <= Zdigits2 m.
Proof. destruct m; simpl; lia. Qed.

Lemma Zdigits2_bounds (m : Z) :
  0 < m -> 2 ^ (Zdigits2 m - 1) <= m < 2 ^ Zdigits2 m.
Proof.
  destruct m as [|p|p]; try lia. intros _. apply digits2_pos_bounds.
Qed.

(** A number below [2 ^ k] has at most [k] digits. *)
Lemma Zdigits2_le (m k : Z) : 0 <= k -> 0 <= m < 2 ^ k -> Zdigits2 m <= k.
Proof.
  intros Hk [Hm Hlt].
  destruct (Z.eq_dec m 0) as [->|Hne]; [simpl; lia|].
  pose proof (Zdigits2_bounds m ltac:(lia)) as [Hlo _].
  pose proof (Zdigits2_nonneg m).
  destruct (Z.le_gt_cases (Zdigits2 m) k) as [|Hgt]; [assumption|].
  assert (2 ^ k <= 2 ^ (Zdigits2 m - 1)) by (apply Z.pow_le_mono_r; lia).
  lia.
Qed.

(** A number from [2 ^ (k - 1)] on has at least [k] digits. *)
Lemma Zdigits2_ge (m k : Z) : 2 ^ (k - 1) <= m -> 0 < m -> k <= Zdigits2 m.
Proof.
  intros Hle Hm.
  pose proof (Zdigits2_bounds m Hm) as [_ Hhi].
  pose proof (Zdigits2_nonneg m).
  destruct (Z.le_gt_cases k (Zdigits2 m)) as [|Hgt]; [assumption|].
  assert (2 ^ Zdigits2 m <= 2 ^ (k - 1)) by (apply Z.pow_le_mono_r; lia).
  lia.
Qed.

Lemma shifts_refl (x : shr_record) : 0 <= shr_m x -> shifts 1 x x.
Proof.
  intros H. unfold shifts. rewrite Z.div_1_r. auto.
Qed.

Lemma shifts_trans (a b : Z) (x y z : shr_record) :
  0 < a -> 0 < b -> shifts a x y -> shifts b y z -> shifts (a * b) x z.
Proof.
  intros Ha Hb (Hy & Hxy & Hexy) (Hz & Hyz & Heyz).
  unfold shifts. split; [assumption|]. split.
  - rewrite Hyz, Hxy. apply Z.div_div; lia.
  - intros Hx [k Hk].
    assert (Hda : (a | shr_m x)) by (exists (k * b); lia).
    apply Heyz; [apply Hexy; assumption|].
    rewrite Hxy. exists k.
    replace (shr_m x) with (k * b * a) by lia.
    rewrite Z.div_mul by lia. reflexivity.
Qed.

Lemma shr_1_shifts (x : shr_record) : 0 <= shr_m x -> shifts 2 x (shr_1 x).
Proof.
  destruct x as [m r s]. cbn [shr_m]. intros Hm. unfold shifts, lossless.
  destruct m as [|[p|p|]|p]; cbn [shr_1 shr_m shr_r shr_s].
  - split; [lia|]. split; [reflexivity|]. intros [-> ->] _. auto.
  - split; [lia|]. split.
    + rewrite (Pos2Z.inj_xI p), Z.mul_comm, Z.div_add_l by lia.
      rewrite Z.div_small by lia. lia.
    + intros _ [k Hk]. lia.
  - split; [lia|]. split.
    + rewrite (Pos2Z.inj_xO p), Z.mul_comm, Z.div_mul by lia. reflexivity.
    + intros [-> ->] _. auto.
  - split; [lia|]. split; [reflexivity|]. intros _ [k Hk]. lia.
  - exfalso. lia.
Qed.

Lemma iter_shr_1_shifts (p : positive) :
  forall x, 0 <= shr_m x -> shifts (2 ^ Zpos p) x (iter_pos shr_1 p x).
Proof.
  induction p as [p IH|p IH|]; intros x Hx; simpl iter_pos.
  - pose proof (shr_1_shifts x Hx) as H1.
    pose proof (IH _ (proj1 H1)) as H2.
    pose proof (IH _ (proj1 H2)) as H3.
    assert (Hp : 0 < 2 ^ Zpos p) by (apply Z.pow_pos_nonneg; lia).
    replace (2 ^ Zpos p~1) with (2 * 2 ^ Zpos p * 2 ^ Zpos p).
    2:{ rewrite (Pos2Z.inj_xI p).
        replace (2 * Zpos p + 1) with (Z.succ (Zpos p + Zpos p)) by lia.
        rewrite Z.pow_succ_r, Z.pow_add_r by lia. lia. }
    eapply shifts_trans; [lia|lia| |exact H3].
    eapply shifts_trans; [lia|lia|exact H1|exact H2].
  - pose proof (IH _ Hx) as H1.
    pose proof (IH _ (proj1 H1)) as H2.
    assert (Hp : 0 < 2 ^ Zpos p) by (apply Z.pow_pos_nonneg; lia).
    replace (2 ^ Zpos p~0) with (2 ^ Zpos p * 2 ^ Zpos p).
    2:{ rewrite (Pos2Z.inj_xO p), <- Z.pow_add_r by lia. f_equal. lia. }
    eapply shifts_trans; [lia|lia|exact H1|exact H2].
  - apply shr_1_shifts. exact Hx.
Qed.

Lemma shr_shifts (x : shr_record) (e n : Z) :
  0 <= shr_m x ->
  snd (shr x e n) = e + Z.max 0 n /\
  shifts (2 ^ Z.max 0 n) x (fst (shr x e n)).
Proof.
  intros Hx. unfold shr. destruct n as [|p|p]; cbn [fst snd].
  - split; [lia|]. apply shifts_refl. exact Hx.
  - split; [lia|]. change (Z.max 0 (Zpos p)) with (Zpos p).
    apply iter_shr_1_shifts. exact Hx.
  - split; [lia|]. change (Z.max 0 (Zneg p)) with 0.
    apply shifts_refl. exact Hx.
Qed.

Lemma shr_fexp_shifts (m e : Z) :
  0 <= m ->
  snd (shr_fexp prec emax m e loc_Exact)
  = e + Z.max 0 (fexp prec emax (Zdigits2 m + e) - e) /\
  shifts (2 ^ Z.max 0 (fexp prec emax (Zdigits2 m + e) - e))
    {| shr_m := m; shr_r := false; shr_s := false |}
    (fst (shr_fexp prec emax m e loc_Exact)).
Proof.
  intros Hm. unfold shr_fexp. cbn [shr_record_of_loc].
  apply shr_shifts. exact Hm.
Qed.

Lemma round_nearest_even_bounds (y : shr_record) :
  shr_m y <= round_nearest_even (shr_m y) (loc_of_shr_record y) <= shr_m y + 1
  /\ (lossless y ->
      round_nearest_even (shr_m y) (loc_of_shr_record y) = shr_m y).
Proof.
  destruct y as [m r s]. unfold lossless. cbn [shr_m shr_r shr_s].
  destruct r, s; cbn [loc_of_shr_record round_nearest_even];
    (split; [|intros [? ?]; try discriminate; reflexivity]);
    try lia.
  destruct (Z.even m); lia.
Qed.

(** Rounding what was shifted right by [d] stays below every bound that
    held before the shift. *)
Lemma round_shifted_le (d : Z) (x y : shr_record) (B : Z) :
  0 < d -> lossless x -> shifts d x y -> shr_m x <= B * d ->
  0 <= round_nearest_even (shr_m y) (loc_of_shr_record y) <= B.
Proof.
  intros Hd Hx (Hy & Heq & Hex) Hle.
  pose proof (round_nearest_even_bounds y) as [[Hlo Hhi] Hexact].
  split; [lia|].
  destruct (Z.eq_dec (shr_m x mod d) 0) as [Hdiv|Hndiv].
  - rewrite Hexact.
    + rewrite Heq. apply Z.div_le_upper_bound; lia.
    + apply Hex; [exact Hx|]. apply Z.mod_divide; lia.
  - assert (shr_m x <> B * d).
    { intros E. apply Hndiv. rewrite E. apply Z.mod_mul. lia. }
    assert (shr_m x / d < B) by (apply Z.div_lt_upper_bound; lia).
    lia.
Qed.

(** A product that is at most [K], an integer below [2 ^ 53], rounds to
    a double whose integer part is at most [K]. *)
Lemma round_below_bound (M E K : Z) :
  0 < M -> 0 <= K < 2 ^ 53 -> E <= 0 -> M <= K * 2 ^ (- E) ->
  exists n,
    int_of_float (binary_round_aux prec emax false M E loc_Exact) = OK n /\
    0 <= n <= K.
Proof.
  intros HM HK HE Hle.
  unfold binary_round_aux.
  pose proof (shr_fexp_shifts M E ltac:(lia)) as [He1 Hs1].
  destruct (shr_fexp prec emax M E loc_Exact) as [y1 e1]. cbn [fst snd] in *.
  rewrite fexp_eq in He1, Hs1.
  assert (Hp : 0 < 2 ^ (- E)) by (apply Z.pow_pos_nonneg; lia).
  assert (HMlt : M < 2 ^ (53 - E)).
  { replace (53 - E) with (53 + - E) by lia. rewrite Z.pow_add_r by lia. nia. }
  assert (Hd : Zdigits2 M <= 53 - E) by (apply Zdigits2_le; lia).
  pose proof (Zdigits2_nonneg M) as Hd0.
  assert (He1' : E <= e1 <= 0) by lia.
  set (n1 := Z.max 0 (Z.max (Zdigits2 M + E - 53) (-1074) - E)) in *.
  set (m1 := round_nearest_even (shr_m y1) (loc_of_shr_record y1)).
  assert (Hm1 : 0 <= m1 <= K * 2 ^ (- e1)).
  { apply (round_shifted_le (2 ^ n1)
             {| shr_m := M; shr_r := false; shr_s := false |} y1).
    - apply Z.pow_pos_nonneg; lia.
    - split; reflexivity.
    - exact Hs1.
    - cbn [shr_m]. rewrite <- Z.mul_assoc, <- Z.pow_add_r by lia.
      replace (- e1 + n1) with (- E) by lia. exact Hle. }
  pose proof (shr_fexp_shifts m1 e1 ltac:(lia)) as [He2 Hs2].
  destruct (shr_fexp prec emax m1 e1 loc_Exact) as [y2 e2]. cbn [fst snd] in *.
  rewrite fexp_eq in He2, Hs2.
  assert (Hp1 : 0 < 2 ^ (- e1)) by (apply Z.pow_pos_nonneg; lia).
  assert (Hm1lt : m1 < 2 ^ (53 - e1)).
  { replace (53 - e1) with (53 + - e1) by lia. rewrite Z.pow_add_r by lia. nia. }
  assert (Hd1 : Zdigits2 m1 <= 53 - e1) by (apply Zdigits2_le; lia).
  pose proof (Zdigits2_nonneg m1) as Hd10.
  assert (He2' : e1 <= e2 <= 0) by lia.
  set (n2 := Z.max 0 (Z.max (Zdigits2 m1 + e1 - 53) (-1074) - e1)) in *.
  destruct Hs2 as (Hy2 & Hy2eq & _). cbn [shr_m] in Hy2eq.
  assert (Hp2 : 0 < 2 ^ n2) by (apply Z.pow_pos_nonneg; lia).
  assert (Hm2 : shr_m y2 <= K * 2 ^ (- e2)).
  { rewrite Hy2eq. apply Z.div_le_upper_bound; [exact Hp2|].
    rewrite Z.mul_comm, <- Z.mul_assoc, <- Z.pow_add_r by lia.
    replace (- e2 + n2) with (- e1) by lia. lia. }
  assert (Hp3 : 0 < 2 ^ (- e2)) by (apply Z.pow_pos_nonneg; lia).
  destruct (shr_m y2) as [|m|m] eqn:Hm.
  - exists 0. split; [reflexivity|lia].
  - destruct (Z.leb_spec e2 (emax - prec)) as [_|Hbad];
      [|unfold emax, prec in Hbad; lia].
    cbn [int_of_float]. destruct (Z.leb_spec 0 e2) as [H0|H0].
    + exists (Zpos m * 2 ^ e2). split; [reflexivity|].
      replace e2 with 0 in * by lia. simpl in Hm2. lia.
    + exists (Zpos m / 2 ^ (- e2)). split; [reflexivity|]. split.
      * apply Z.div_pos; lia.
      * apply Z.div_le_upper_bound; [exact Hp3|]. lia.
  - lia.
Qed.

(** ** The sample size *)

Lemma float_of_CHUNKSIZE :
  float_of_int ZipSizer.CHUNKSIZE = OK (S754_finite false 5629499534213120 (-29)).
Proof. vm_compute. reflexivity. Qed.

(** A binary64 number that is at most one: its mantissa and exponent. *)
Lemma at_most_one (m : positive) (e : Z) :
  valid_binary prec emax (S754_finite false m e) = true ->
  fleb (S754_finite false m e) one = true ->
  e <= -52 /\ Zpos m <= 2 ^ (- e).
Proof.
  intros Hvalid Hle.
  cbn [valid_binary] in Hvalid. unfold bounded, canonical_mantissa in Hvalid.
  apply andb_prop in Hvalid. destruct Hvalid as [Hcan _].
  apply Z.eqb_eq in Hcan. rewrite fexp_eq in Hcan.
  pose proof (digits2_pos_bounds m) as [_ Hm].
  assert (Hd : Zpos (digits2_pos m) <= 53) by lia.
  assert (Hm53 : Zpos m < 2 ^ 53).
  { eapply Z.lt_le_trans; [exact Hm|]. apply Z.pow_le_mono_r; lia. }
  unfold fleb, SFleb, one in Hle. cbn [SFcompare] in Hle.
  destruct (Z.compare_spec e (-52)) as [He|He|He].
  - subst e. split; [lia|].
    change (2 ^ (- -52)) with 4503599627370496.
    destruct (Pos.compare_cont Eq m 4503599627370496) eqn:Hc;
      try discriminate.
    + apply Pos.compare_eq in Hc. subst m. lia.
    + assert (Hlt : (m < 4503599627370496)%positive) by exact Hc.
      apply Z.lt_le_incl. exact (Pos2Z.pos_lt_pos _ _ Hlt).
  - split; [lia|].
    assert (2 ^ 53 <= 2 ^ (- e)) by (apply Z.pow_le_mono_r; lia). lia.
  - discriminate.
Qed.

(** For a ratio in (0, 1] the conversion returns a size from zero to the
    chunk size. *)
Lemma sample_size_bounds (a : ZipSizer.args) :
  in_unit_interval (ZipSizer.sampling_ratio a) ->
  exists ss,
    ZipSizer.sample_size_of a = OK ss /\ 0 <= ss <= ZipSizer.CHUNKSIZE.
Proof.
  intros (Hvalid & Hpos & Hle).
  unfold ZipSizer.sample_size_of, fmul_int. rewrite float_of_CHUNKSIZE.
  destruct (ZipSizer.sampling_ratio a) as [s|s| |s m e];
    try discriminate.
  - destruct s; discriminate.
  - destruct s; [discriminate|].
    destruct (at_most_one m e Hvalid Hle) as [He Hm].
    unfold fmul, SFmul. cbn [xorb].
    apply round_below_bound.
    + lia.
    + unfold ZipSizer.CHUNKSIZE. split; [lia|]. reflexivity.
    + lia.
    + rewrite Pos2Z.inj_mul.
      replace (- (e + -29)) with (29 + - e) by lia.
      rewrite Z.pow_add_r by lia.
      assert (0 < 2 ^ (- e)) by (apply Z.pow_pos_nonneg; lia).
      unfold ZipSizer.CHUNKSIZE.
      change (2 ^ 29) with 536870912. nia.
Qed.

(** The validation of the command line lets such a ratio through. *)
Lemma in_unit_interval_accepted (r : float) :
  in_unit_interval r -> ZipSizer.ratio_rejected r = false.
Proof.
  intros (Hvalid & Hpos & Hle). unfold ZipSizer.ratio_rejected.
  destruct r as [s|s| |s m e]; try discriminate.
  - destruct s; discriminate.
  - destruct s; [discriminate|].
    destruct (at_most_one m e Hvalid Hle) as [He Hm].
    apply orb_false_intro; [reflexivity|].
    unfold fltb, SFltb, one. cbn [SFcompare].
    destruct (Z.compare_spec (-52) e) as [Heq|Hlt|Hgt];
      [|lia|reflexivity].
    subst e. change (2 ^ (- -52)) with 4503599627370496 in Hm.
    change (Pos.compare_cont Eq 4503599627370496 m)
      with (Pos.compare 4503599627370496 m).
    destruct (Pos.compare_spec 4503599627370496 m); try reflexivity. lia.
Qed.

(** ** Binary64 arithmetic: conversions from integers do not overflow *)

(** Rounding a value that is at most [2 ^ k]: the exponent of the result
    and its mantissa stay within that bound. *)
Lemma round_below_pow2 (s : bool) (M E k : Z) :
  0 < M -> E <= k -> -1074 <= k -> M <= 2 ^ (k - E) ->
  match binary_round_aux prec emax s M E loc_Exact with
  | S754_zero _ => True
  | S754_finite _ m e =>
      e <= Z.max E (Z.max (k - 52) (-1074)) /\ Zpos m <= 2 ^ (k - e)
  | S754_infinity _ => 971 < Z.max E (Z.max (k - 52) (-1074))
  | S754_nan => False
  end.
Proof.
  intros HM HE Hk Hle.
  unfold binary_round_aux.
  pose proof (shr_fexp_shifts M E ltac:(lia)) as [He1 Hs1].
  destruct (shr_fexp prec emax M E loc_Exact) as [y1 e1]. cbn [fst snd] in *.
  rewrite fexp_eq in He1, Hs1.
  assert (Hp : 0 < 2 ^ (k - E)) by (apply Z.pow_pos_nonneg; lia).
  assert (HMlt : M < 2 ^ (k - E + 1)).
  { rewrite Z.pow_add_r by lia. lia. }
  assert (Hd : Zdigits2 M <= k - E + 1) by (apply Zdigits2_le; lia).
  pose proof (Zdigits2_nonneg M) as Hd0.
  set (n1 := Z.max 0 (Z.max (Zdigits2 M + E - 53) (-1074) - E)) in *.
  assert (He1' : E <= e1 <= Z.max E (Z.max (k - 52) (-1074))) by lia.
  set (m1 := round_nearest_even (shr_m y1) (loc_of_shr_record y1)).
  assert (Hm1 : 0 <= m1 <= 2 ^ (k - e1)).
  { apply (round_shifted_le (2 ^ n1)
             {| shr_m := M; shr_r := false; shr_s := false |} y1).
    - apply Z.pow_pos_nonneg; lia.
    - split; reflexivity.
    - exact Hs1.
    - cbn [shr_m]. rewrite <- Z.pow_add_r by lia.
      replace (k - e1 + n1) with (k - E) by lia. exact Hle. }
  pose proof (shr_fexp_shifts m1 e1 ltac:(lia)) as [He2 Hs2].
  destruct (shr_fexp prec emax m1 e1 loc_Exact) as [y2 e2]. cbn [fst snd] in *.
  rewrite fexp_eq in He2, Hs2.
  assert (Hp1 : 0 < 2 ^ (k - e1)) by (apply Z.pow_pos_nonneg; lia).
  assert (Hm1lt : m1 < 2 ^ (k - e1 + 1)).
  { rewrite Z.pow_add_r by lia. lia. }
  assert (Hd1 : Zdigits2 m1 <= k - e1 + 1) by (apply Zdigits2_le; lia).
  pose proof (Zdigits2_nonneg m1) as Hd10.
  set (n2 := Z.max 0 (Z.max (Zdigits2 m1 + e1 - 53) (-1074) - e1)) in *.
  assert (He2' : e1 <= e2 <= Z.max E (Z.max (k - 52) (-1074))) by lia.
  destruct Hs2 as (Hy2 & Hy2eq & _). cbn [shr_m] in Hy2eq.
  assert (Hp2 : 0 < 2 ^ n2) by (apply Z.pow_pos_nonneg; lia).
  assert (Hm2 : shr_m y2 <= 2 ^ (k - e2)).
  { rewrite Hy2eq. apply Z.div_le_upper_bound; [exact Hp2|].
    rewrite <- Z.pow_add_r by lia.
    replace (n2 + (k - e2)) with (k - e1) by lia. lia. }
  destruct (shr_m y2) as [|m|m] eqn:Hm.
  - exact I.
  - unfold emax, prec.
    destruct (Z.leb_spec e2 (1024 - 53)) as [Hfin|Hinf].
    + split; [lia|exact Hm2].
    + lia.
  - lia.
Qed.

Lemma iter_xO (d p : positive) :
  Zpos (Pos.iter xO p d) = Zpos p * 2 ^ Zpos d.
Proof.
  induction d as [|d IH] using Pos.peano_ind.
  - cbn [Pos.iter]. rewrite (Pos2Z.inj_xO p). change (2 ^ 1) with 2. lia.
  - rewrite Pos.iter_succ, (Pos2Z.inj_xO (Pos.iter xO p d)), IH.
    rewrite Pos2Z.inj_succ, Z.pow_succ_r by lia. lia.
Qed.

(** The mantissa and exponent that [binary_round] rounds: the same
    value, with an exponent that is not positive. *)
Lemma shl_align_value (p : positive) (ex' : Z) :
  let '(mz, ez) := shl_align p 0 ex' in
  ez <= 0 /\ Zpos mz = Zpos p * 2 ^ (- ez).
Proof.
  unfold shl_align. destruct (ex' - 0) as [|d|d] eqn:Hd.
  - split; [lia|]. change (2 ^ (- 0)) with 1. lia.
  - split; [lia|]. change (2 ^ (- 0)) with 1. lia.
  - assert (ex' = Zneg d) by lia. subst ex'.
    split; [lia|]. rewrite iter_xO. reflexivity.
Qed.

(** [float(n)] returns for every integer from zero to [2 ^ 1023]. *)
Lemma float_of_int_returns (n : Z) :
  0 <= n < 2 ^ 1023 -> exists x, float_of_int n = OK x.
Proof.
  intros [Hn0 Hn]. unfold float_of_int, binary_normalize.
  destruct n as [|p|p]; [eexists; reflexivity| |lia].
  unfold binary_round.
  pose proof (shl_align_value p (fexp prec emax (Zpos (digits2_pos p) + 0)))
    as Hal.
  destruct (shl_align p 0 _) as [mz ez]. destruct Hal as [Hez Hmz].
  pose proof (round_below_pow2 false (Zpos mz) ez 1023) as Hr.
  destruct (binary_round_aux prec emax false (Zpos mz) ez loc_Exact)
    as [s|s| |s m e]; try (eexists; reflexivity).
  exfalso.
  assert (0 < 2 ^ (- ez)) by (apply Z.pow_pos_nonneg; lia).
  assert (971 < Z.max ez (Z.max (1023 - 52) (-1074))); [|lia].
  apply Hr; try lia.
  rewrite Hmz.
  replace (1023 - ez) with (1023 + - ez) by lia.
  rewrite Z.pow_add_r by lia.
  apply Z.mul_le_mono_nonneg_r; lia.
Qed.

(** ** The console monad *)

Lemma appends_ret {A} (a : A) : appends (ret a).
Proof. intros out. unfold ret, printed, outcome, run. simpl. rewrite app_nil_r. reflexivity. Qed.

Lemma appends_raise {A} (e : exn) : appends (@raise A e).
Proof. intros out. unfold raise, printed, outcome, run. simpl. rewrite app_nil_r. reflexivity. Qed.

Lemma appends_lift {A} (r : result A) : appends (lift r).
Proof. intros out. unfold lift, printed, outcome, run. simpl. rewrite app_nil_r. reflexivity. Qed.

Lemma appends_print (l : line) : appends (print l).
Proof. intros out. reflexivity. Qed.

Lemma appends_bind {A B} (m : M A) (k : A -> M B) :
  appends m -> (forall a, appends (k a)) -> appends (bind m k).
Proof.
  intros Hm Hk out. unfold printed, outcome, run, bind.
  rewrite (Hm out), (Hm []). simpl.
  destruct (outcome m) as [a|e]; simpl.
  - rewrite (Hk a (out ++ printed m)), (Hk a (printed m)). simpl.
    rewrite app_assoc. reflexivity.
  - reflexivity.
Qed.

Lemma appends_when (b : bool) (m : M unit) : appends m -> appends (when b m).
Proof. intros Hm. destruct b; simpl; [exact Hm|apply appends_ret]. Qed.

(** The outcome and the console of a sequence. *)
Lemma bind_OK {A B} (m : M A) (k : A -> M B) (a : A) :
  appends m -> (forall x, appends (k x)) -> outcome m = OK a ->
  outcome (bind m k) = outcome (k a) /\
  printed (bind m k) = printed m ++ printed (k a).
Proof.
  intros Hm Hk Ha. unfold outcome, printed, run, bind.
  rewrite (Hm []). simpl. rewrite Ha.
  rewrite (Hk a (printed m)). simpl. split; reflexivity.
Qed.

Lemma bind_Raise {A B} (m : M A) (k : A -> M B) (e : exn) :
  appends m -> outcome m = Raise e ->
  outcome (bind m k) = Raise e /\ printed (bind m k) = printed m.
Proof.
  intros Hm He. unfold outcome, printed, run, bind.
  rewrite (Hm []). simpl. rewrite He. split; reflexivity.
Qed.

Lemma appends_walk (w : world) (ss : Z) :
  forall files_left i st, appends (ZipSizer.walk w ss i files_left st).
Proof.
  induction files_left as [|[filepath size] rest IH]; intros i st;
    cbn [ZipSizer.walk].
  - apply appends_ret.
  - destruct (no_point_below _ _); [apply IH|].
    destruct (open (files w filepath)) as [f|e].
    + destruct (read_windows _ _ _ _ _ _ _ _) as [[[points data] log] raised].
      destruct raised as [e|]; [|apply IH].
      destruct (ZipSizer.caught e); [|apply appends_raise].
      apply appends_bind; [apply appends_print|]. intros _. apply IH.
    + destruct (ZipSizer.caught e); [|apply appends_raise].
      apply appends_bind; [apply appends_print|]. intros _. apply IH.
Qed.

Lemma appends_sample_data_state (w : world) (a : ZipSizer.args)
    (inv : inventory) :
  appends (ZipSizer.sample_data_state w a inv).
Proof.
  unfold ZipSizer.sample_data_state.
  apply appends_bind.
  { apply appends_when. apply appends_bind; [apply appends_print|].
    intros _. apply appends_print. }
  intros _. apply appends_bind; [apply appends_lift|]. intros ss.
  apply appends_bind; [apply appends_when, appends_print|]. intros _.
  apply appends_bind; [apply appends_lift|]. intros plan.
  apply appends_walk.
Qed.

Lemma appends_sample_data (w : world) (a : ZipSizer.args) (inv : inventory) :
  appends (ZipSizer.sample_data w a inv).
Proof.
  unfold ZipSizer.sample_data.
  apply appends_bind; [apply appends_sample_data_state|].
  intros st. apply appends_ret.
Qed.

Lemma appends_compress (w : world) (a : ZipSizer.args) (data : bytes) :
  appends (ZipSizer.compress_sampled_data w a data).
Proof.
  unfold ZipSizer.compress_sampled_data.
  apply appends_bind.
  { apply appends_when. apply appends_bind; [apply appends_print|].
    intros _. apply appends_print. }
  intros _. apply appends_ret.
Qed.

Lemma appends_report (w : world) (a : ZipSizer.args) (inv : inventory) :
  appends (ZipSizer.report w a inv).
Proof.
  unfold ZipSizer.report.
  apply appends_bind; [apply appends_sample_data|]. intros data.
  apply appends_bind; [apply appends_compress|]. intros c.
  apply appends_bind; [apply appends_lift|]. intros est.
  repeat (apply appends_bind; [apply appends_print|]; intros _).
  apply appends_bind; [apply appends_lift|]. intros ratio.
  apply appends_bind; [apply appends_print|]. intros _.
  apply appends_print.
Qed.

Lemma appends_list_files (w : world) :
  forall paths acc, appends (ZipSizer.list_files w paths acc).
Proof.
  induction paths as [|filepath rest IH]; intros acc; cbn [ZipSizer.list_files].
  - apply appends_ret.
  - destruct (negb (isfile w filepath) || isdir w filepath || islink w filepath);
      [apply IH|].
    destruct (getsize w filepath) as [size|e]; [apply IH|].
    destruct e; apply appends_raise.
Qed.

(** The outcome of the sampler is the buffer of its final state. *)
Lemma sample_data_outcome (w : world) (a : ZipSizer.args) (inv : inventory)
    (st : sampler) :
  outcome (ZipSizer.sample_data_state w a inv) = OK st ->
  outcome (ZipSizer.sample_data w a inv) = OK (sampled_data st) /\
  printed (ZipSizer.sample_data w a inv)
  = printed (ZipSizer.sample_data_state w a inv).
Proof.
  intros H. unfold ZipSizer.sample_data.
  destruct (bind_OK (ZipSizer.sample_data_state w a inv)
              (fun st => ret (sampled_data st)) st) as [Ho Hp]; auto.
  - apply appends_sample_data_state.
  - intros x. apply appends_ret.
  - rewrite Ho, Hp. split; [reflexivity|].
    unfold printed at 2. simpl. apply app_nil_r.
Qed.

(** ** The sampler of [zip-sizer.py] *)

Lemma CHUNKSIZE_pos : 0 < ZipSizer.CHUNKSIZE.
Proof. reflexivity. Qed.

(** The sampling points the sampler computes. *)
Lemma plan_eq (ss total : Z) :
  range (ZipSizer.CHUNKSIZE - ss) total ZipSizer.CHUNKSIZE
  = OK (range_from (ZipSizer.CHUNKSIZE - ss) ZipSizer.CHUNKSIZE
          (Z.to_nat ((total - (ZipSizer.CHUNKSIZE - ss)
                      + ZipSizer.CHUNKSIZE - 1) / ZipSizer.CHUNKSIZE))).
Proof. apply range_positive_step. reflexivity. Qed.

(** From the size and the plan on, [sample_data] is the walk. *)
Lemma sample_data_state_walk (w : world) (a : ZipSizer.args) (inv : inventory)
    (ss : Z) (plan : list Z) :
  ZipSizer.sample_size_of a = OK ss ->
  range (ZipSizer.CHUNKSIZE - ss) (total_size inv) ZipSizer.CHUNKSIZE = OK plan ->
  outcome (ZipSizer.sample_data_state w a inv)
  = outcome (ZipSizer.walk w ss 0 inv
               {| sampled_data := []; sampling_points := plan;
                  current_offset := 0; reads := [] |}).
Proof.
  intros Hss Hplan. unfold ZipSizer.sample_data_state.
  unfold outcome, run, bind, when, lift, print, ret.
  rewrite Hss, Hplan.
  destruct (ZipSizer.verbose a); cbn -[ZipSizer.walk].
  - rewrite (appends_walk w ss inv 0 _ _). reflexivity.
  - reflexivity.
Qed.

(** The walk starts in a state that satisfies its invariant. *)
Lemma walk_inv_init (w : world) (inv : inventory) (ss : Z) (n : nat) :
  0 <= ss <= ZipSizer.CHUNKSIZE ->
  walk_inv w inv ss
    (range_from (ZipSizer.CHUNKSIZE - ss) ZipSizer.CHUNKSIZE n) 0
    {| sampled_data := [];
       sampling_points := range_from (ZipSizer.CHUNKSIZE - ss) ZipSizer.CHUNKSIZE n;
       current_offset := 0; reads := [] |}.
Proof.
  intros Hss. unfold walk_inv.
  cbn [sampled_data sampling_points current_offset reads map List.concat app].
  split; [|split; [reflexivity|split; [constructor|split; [reflexivity|]]]].
  - pose proof CHUNKSIZE_pos as Hc.
    eapply Forall_impl;
      [|apply (range_from_lower ZipSizer.CHUNKSIZE n (ZipSizer.CHUNKSIZE - ss));
        lia].
    cbv beta. intros p Hp. lia.
  - intros j path size _. unfold bytes_read_from, reads_of.
    cbn [filter]. rewrite bytes_of_nil. apply len_nonneg.
Qed.

(** For a ratio in (0, 1] the sampler returns, and its final state
    satisfies the invariant of the walk for the plan it computed. *)
Lemma sampler_returns (w : world) (a : ZipSizer.args) (inv : inventory) :
  in_unit_interval (ZipSizer.sampling_ratio a) ->
  exists ss plan st,
    ZipSizer.sample_size_of a = OK ss /\
    0 <= ss <= ZipSizer.CHUNKSIZE /\
    range (ZipSizer.CHUNKSIZE - ss) (total_size inv) ZipSizer.CHUNKSIZE
    = OK plan /\
    spaced ZipSizer.CHUNKSIZE plan /\
    Forall (fun p => p < total_size inv) plan /\
    outcome (ZipSizer.sample_data_state w a inv) = OK st /\
    walk_inv w inv ss plan (List.length inv) st.
Proof.
  intros Hr. destruct (sample_size_bounds a Hr) as (ss & Hss & Hb).
  pose proof (plan_eq ss (total_size inv)) as Hplan.
  set (n := Z.to_nat _) in Hplan.
  set (plan := range_from (ZipSizer.CHUNKSIZE - ss) ZipSizer.CHUNKSIZE n) in *.
  assert (Hsp : spaced ZipSizer.CHUNKSIZE plan)
    by (apply spaced_range_from; unfold ZipSizer.CHUNKSIZE; lia).
  destruct (walk_keeps_inv w inv ss ZipSizer.CHUNKSIZE plan Hb Hsp
              inv [] 0%nat
              {| sampled_data := []; sampling_points := plan;
                 current_offset := 0; reads := [] |} []
              eq_refl eq_refl (walk_inv_init w inv ss n Hb))
    as (out' & st & Hwalk & Hinv).
  exists ss, plan, st.
  split; [exact Hss|]. split; [exact Hb|]. split; [exact Hplan|].
  split; [exact Hsp|]. split; [|split; [|exact Hinv]].
  - destruct (Nat.eq_dec n 0) as [Hn|Hn].
    + subst plan. rewrite Hn. constructor.
    + apply range_from_upper; [reflexivity|]. subst n. lia.
  - rewrite (sample_data_state_walk w a inv ss plan Hss Hplan).
    unfold outcome, run. rewrite Hwalk. reflexivity.
Qed.

(** ** Single steps of the walk *)

Lemma walk_skip (w : world) (ss : Z) (i : nat) (filepath : string) (size : Z)
    (rest : inventory) (st : sampler) (out : list line) :
  no_point_below (sampling_points st) (current_offset st + size) = true ->
  ZipSizer.walk w ss i ((filepath, size) :: rest) st out
  = ZipSizer.walk w ss (S i) rest
      {| sampled_data := sampled_data st;
         sampling_points := sampling_points st;
         current_offset := current_offset st + size;
         reads := reads st |} out.
Proof. intros H. cbn [ZipSizer.walk]. rewrite H. reflexivity. Qed.

Lemma walk_read (w : world) (ss : Z) (i : nat) (filepath : string) (size : Z)
    (rest : inventory) (st : sampler) (out : list line) (f : handle)
    (points : list Z) (data : bytes) (log : list window) :
  no_point_below (sampling_points st) (current_offset st + size) = false ->
  open (files w filepath) = OK f ->
  read_windows f ss i size (current_offset st) (sampling_points st)
    (sampled_data st) (reads st) = (points, data, log, None) ->
  ZipSizer.walk w ss i ((filepath, size) :: rest) st out
  = ZipSizer.walk w ss (S i) rest
      {| sampled_data := data;
         sampling_points := points;
         current_offset := current_offset st + size;
         reads := log |} out.
Proof.
  intros Hskip Hopen Hrw. cbn [ZipSizer.walk].
  rewrite Hskip, Hopen, Hrw. reflexivity.
Qed.

(** A file that does not open leaves the state as it is. *)
Lemma walk_unopenable (w : world) (ss : Z) (i : nat) (filepath : string)
    (size : Z) (rest : inventory) (st : sampler) (out : list line) (c : errno) :
  no_point_below (sampling_points st) (current_offset st + size) = false ->
  files w filepath = Unopenable c ->
  ZipSizer.walk w ss i ((filepath, size) :: rest) st out
  = ZipSizer.walk w ss (S i) rest st
      (out ++ [Warning filepath (OSError c)]).
Proof.
  intros Hskip Hfile. cbn [ZipSizer.walk].
  rewrite Hskip, Hfile. reflexivity.
Qed.

(** The loop on a single point that lies in the file. *)
Lemma read_windows_one (f : handle) (ss : Z) (i : nat) (size off p : Z)
    (data chunk : bytes) (log : list window) :
  p < off + size ->
  seek_read f (p - off) ss = OK chunk ->
  read_windows f ss i size off [p] data log
  = ([], data ++ chunk,
     log ++ [{| w_file := i; w_point := p; w_offset := off;
                w_data := chunk |}], None).
Proof.
  intros Hp Hread. cbn [read_windows].
  destruct (Z.gtb_spec (off + size) p); [|lia].
  rewrite Hread. reflexivity.
Qed.

Lemma read_windows_step (f : handle) (ss : Z) (i : nat) (size off p : Z)
    (rest : list Z) (data chunk : bytes) (log : list window) :
  p < off + size ->
  seek_read f (p - off) ss = OK chunk ->
  read_windows f ss i size off (p :: rest) data log
  = read_windows f ss i size off rest (data ++ chunk)
      (log ++ [{| w_file := i; w_point := p; w_offset := off;
                  w_data := chunk |}]).
Proof.
  intros Hp Hread. cbn [read_windows].
  destruct (Z.gtb_spec (off + size) p); [|lia].
  rewrite Hread. reflexivity.
Qed.

Lemma read_windows_stop (f : handle) (ss : Z) (i : nat) (size off : Z)
    (points : list Z) (data : bytes) (log : list window) :
  no_point_below points (off + size) = true ->
  read_windows f ss i size off points data log = (points, data, log, None).
Proof.
  destruct points as [|p rest]; cbn [read_windows no_point_below];
    [reflexivity|].
  intros H. apply Z.geb_le in H.
  destruct (Z.gtb_spec (off + size) p); [lia|reflexivity].
Qed.

(** ** The report *)

Lemma compress_run (w : world) (a : ZipSizer.args) (data : bytes) :
  run (ZipSizer.compress_sampled_data w a data)
  = (compress_lines w a data, OK (compressed_length w a data)).
Proof.
  unfold ZipSizer.compress_sampled_data, compress_lines, compressed_length.
  unfold run, bind, when, print, ret.
  destruct (ZipSizer.verbose a); reflexivity.
Qed.

(** The run of steps 2 to 5 once the sampler has returned. *)
Lemma report_run (w : world) (a : ZipSizer.args) (inv : inventory)
    (data : bytes) :
  outcome (ZipSizer.sample_data w a inv) = OK data ->
  run (ZipSizer.report w a inv)
  = (printed (ZipSizer.sample_data w a inv) ++ compress_lines w a data
     ++ fst (report_tail (compressed_length w a data) (len data)
               (total_size inv)),
     snd (report_tail (compressed_length w a data) (len data)
            (total_size inv))).
Proof.
  intros Hdata.
  unfold ZipSizer.report, run. unfold bind at 1.
  rewrite (appends_sample_data w a inv []), Hdata. cbn [app].
  unfold bind at 1.
  rewrite (appends_compress w a data _).
  unfold printed, outcome. rewrite compress_run. cbn [fst snd].
  unfold report_tail, bind, lift, print.
  destruct (ZipSizer.estimate _ _ _) as [est|e]; cbn [fst snd].
  - destruct (truediv (total_size inv) est) as [ratio|e]; cbn [fst snd];
      rewrite <- !app_assoc; reflexivity.
  - rewrite app_nil_r. reflexivity.
Qed.

(** A walk with no sampling point left reads nothing. *)
Lemma walk_no_points (w : world) (ss : Z) :
  forall files_left i st out,
    sampling_points st = [] ->
    exists st',
      ZipSizer.walk w ss i files_left st out = (out, OK st') /\
      sampled_data st' = sampled_data st /\
      sampling_points st' = [] /\
      reads st' = reads st.
Proof.
  induction files_left as [|[filepath size] rest IH]; intros i st out Hp.
  - exists st. repeat split; auto.
  - rewrite walk_skip by (rewrite Hp; reflexivity).
    destruct (IH (S i)
                {| sampled_data := sampled_data st;
                   sampling_points := sampling_points st;
                   current_offset := current_offset st + size;
                   reads := reads st |} out Hp)
      as (st' & Hw & Hd & Hpts & Hr).
    exists st'. repeat split; auto.
Qed.

(** When the plan is empty the sampler returns an empty buffer and has
    read nothing. *)
Lemma empty_plan_sample (w : world) (a : ZipSizer.args) (inv : inventory)
    (ss : Z) :
  ZipSizer.sample_size_of a = OK ss ->
  range (ZipSizer.CHUNKSIZE - ss) (total_size inv) ZipSizer.CHUNKSIZE = OK [] ->
  exists st,
    outcome (ZipSizer.sample_data_state w a inv) = OK st /\
    sampled_data st = [] /\ reads st = [] /\
    outcome (ZipSizer.sample_data w a inv) = OK [].
Proof.
  intros Hss Hplan.
  destruct (walk_no_points w ss inv 0%nat
              {| sampled_data := []; sampling_points := [];
                 current_offset := 0; reads := [] |} [] eq_refl)
    as (st & Hw & Hd & _ & Hr).
  cbn [sampled_data reads] in Hd, Hr.
  assert (Hst : outcome (ZipSizer.sample_data_state w a inv) = OK st).
  { rewrite (sample_data_state_walk w a inv ss [] Hss Hplan).
    unfold outcome, run. rewrite Hw. reflexivity. }
  exists st. repeat split; auto.
  rewrite <- Hd. apply sample_data_outcome. exact Hst.
Qed.

(** [main] is the report on the inventory the listing returned. *)
Lemma main_run (w : world) (a : ZipSizer.args) (directory : string)
    (inv : inventory) :
  outcome (ZipSizer.list_files_with_sizes w directory) = OK inv ->
  outcome (ZipSizer.main w a directory) = outcome (ZipSizer.report w a inv) /\
  printed (ZipSizer.main w a directory)
  = printed (ZipSizer.list_files_with_sizes w directory)
    ++ printed (ZipSizer.report w a inv).
Proof.
  intros H. unfold ZipSizer.main. apply bind_OK; [|intros x; apply appends_report|exact H].
  unfold ZipSizer.list_files_with_sizes. apply appends_list_files.
Qed.

(** With an empty plan the report stops at a division by zero: the
    first when the original size is positive and the conversion of the
    compressed length returns, the second when the size is zero. *)
Lemma report_tail_empty_sample (c total : Z) :
  0 <= c < 2 ^ 1023 -> 0 < total ->
  report_tail c 0 total = ([], Raise ZeroDivisionError).
Proof.
  intros Hc Ht. unfold report_tail, ZipSizer.estimate.
  destruct (Z.gtb_spec total 0); [|lia].
  destruct (float_of_int_returns c Hc) as [x ->].
  reflexivity.
Qed.

Lemma report_tail_zero_size (c s : Z) :
  report_tail c s 0
  = ([Rule; OriginalSize 0; EstimatedSize (Int 0)], Raise ZeroDivisionError).
Proof. reflexivity. Qed.

Lemma compressed_length_nonneg (w : world) (a : ZipSizer.args) (data : bytes) :
  0 <= compressed_length w a data.
Proof. apply len_nonneg. Qed.

(** ** The flag [--verbose] *)

Lemma quiet_app (o1 o2 : list line) : quiet (o1 ++ o2) = quiet o1 ++ quiet o2.
Proof. apply filter_app. Qed.

Lemma same_results_bind {A B} (mv mq : M A) (kv kq : A -> M B) :
  appends mv -> appends mq ->
  (forall x, appends (kv x)) -> (forall x, appends (kq x)) ->
  same_results mv mq ->
  (forall x, same_results (kv x) (kq x)) ->
  same_results (bind mv kv) (bind mq kq).
Proof.
  intros Hv Hq Hkv Hkq [Ho Hp] Hk. unfold same_results.
  destruct (outcome mv) as [x|e] eqn:Hov.
  - destruct (bind_OK mv kv x Hv Hkv Hov) as [-> ->].
    destruct (bind_OK mq kq x Hq Hkq (eq_sym Ho)) as [-> ->].
    destruct (Hk x) as [Hko Hkp].
    split; [exact Hko|]. rewrite quiet_app, Hp, Hkp. reflexivity.
  - destruct (bind_Raise mv kv e Hv Hov) as [-> ->].
    destruct (bind_Raise mq kq e Hq (eq_sym Ho)) as [-> ->].
    split; [reflexivity|exact Hp].
Qed.

Lemma same_results_ret {A} (x : A) : same_results (ret x) (ret x).
Proof. split; reflexivity. Qed.

Lemma same_results_raise {A} (e : exn) : same_results (@raise A e) (raise e).
Proof. split; reflexivity. Qed.

Lemma same_results_lift {A} (r : result A) : same_results (lift r) (lift r).
Proof. split; reflexivity. Qed.

Lemma same_results_print (l : line) :
  diagnostic l = false -> same_results (print l) (print l).
Proof.
  intros Hl. split; [reflexivity|].
  unfold quiet, printed, run, print. cbn [fst app filter].
  rewrite Hl. reflexivity.
Qed.

Lemma same_results_walk (w : world) (ss : Z) :
  forall files_left i st,
    same_results (ZipSizer.walk w ss i files_left st)
                 (ZipSizer.walk w ss i files_left st).
Proof.
  induction files_left as [|[filepath size] rest IH]; intros i st;
    cbn [ZipSizer.walk].
  - apply same_results_ret.
  - destruct (no_point_below _ _); [apply IH|].
    destruct (open (files w filepath)) as [f|e].
    + destruct (read_windows _ _ _ _ _ _ _ _) as [[[points data] log] raised].
      destruct raised as [e|]; [|apply IH].
      destruct (ZipSizer.caught e); [|apply same_results_raise].
      apply same_results_bind;
        try apply appends_print; try (intros _; apply appends_walk).
      * apply same_results_print. reflexivity.
      * intros _. apply IH.
    + destruct (ZipSizer.caught e); [|apply same_results_raise].
      apply same_results_bind;
        try apply appends_print; try (intros _; apply appends_walk).
      * apply same_results_print. reflexivity.
      * intros _. apply IH.
Qed.

Ltac appends_tac :=
  repeat first
    [ apply appends_bind | apply appends_when | apply appends_print
    | apply appends_lift | apply appends_ret | apply appends_raise
    | apply appends_walk | apply appends_sample_data_state
    | apply appends_sample_data | apply appends_compress
    | apply appends_report | apply appends_list_files | intros ? ].

Lemma same_results_when (m : M unit) :
  appends m -> outcome m = OK tt -> quiet (printed m) = [] ->
  same_results (when true m) (when false m).
Proof. intros _ Ho Hp. split; [exact Ho|exact Hp]. Qed.

Lemma same_results_sample_data_state (w : world) (a : ZipSizer.args)
    (inv : inventory) :
  same_results (ZipSizer.sample_data_state w (with_verbose true a) inv)
               (ZipSizer.sample_data_state w (with_verbose false a) inv).
Proof.
  unfold ZipSizer.sample_data_state, ZipSizer.sample_size_of.
  cbn [ZipSizer.verbose ZipSizer.sampling_ratio with_verbose].
  apply same_results_bind; try solve [appends_tac].
  { apply same_results_when; [appends_tac|reflexivity|reflexivity]. }
  intros _. apply same_results_bind; try solve [appends_tac].
  { apply same_results_lift. }
  intros ss. apply same_results_bind; try solve [appends_tac].
  { apply same_results_when; [appends_tac|reflexivity|reflexivity]. }
  intros _. apply same_results_bind; try solve [appends_tac].
  { apply same_results_lift. }
  intros plan. apply same_results_walk.
Qed.

Lemma same_results_sample_data (w : world) (a : ZipSizer.args)
    (inv : inventory) :
  same_results (ZipSizer.sample_data w (with_verbose true a) inv)
               (ZipSizer.sample_data w (with_verbose false a) inv).
Proof.
  unfold ZipSizer.sample_data.
  apply same_results_bind; try solve [appends_tac].
  - apply same_results_sample_data_state.
  - intros st. apply same_results_ret.
Qed.

Lemma same_results_compress (w : world) (a : ZipSizer.args) (data : bytes) :
  same_results (ZipSizer.compress_sampled_data w (with_verbose true a) data)
               (ZipSizer.compress_sampled_data w (with_verbose false a) data).
Proof.
  unfold ZipSizer.compress_sampled_data.
  cbn [ZipSizer.verbose ZipSizer.algorithm ZipSizer.level with_verbose].
  apply same_results_bind; try solve [appends_tac].
  - apply same_results_when; [appends_tac|reflexivity|reflexivity].
  - intros _. apply same_results_ret.
Qed.

Lemma same_results_report (w : world) (a : ZipSizer.args) (inv : inventory) :
  same_results (ZipSizer.report w (with_verbose true a) inv)
               (ZipSizer.report w (with_verbose false a) inv).
Proof.
  unfold ZipSizer.report.
  apply same_results_bind; try solve [appends_tac].
  { apply same_results_sample_data. }
  intros data. apply same_results_bind; try solve [appends_tac].
  { apply same_results_compress. }
  intros c. apply same_results_bind; try solve [appends_tac].
  { apply same_results_lift. }
  intros est.
  repeat (apply same_results_bind; try solve [appends_tac];
          [apply same_results_print; reflexivity|intros _]).
  apply same_results_bind; try solve [appends_tac].
  { apply same_results_lift. }
  intros ratio.
  apply same_results_bind; try solve [appends_tac].
  { apply same_results_print; reflexivity. }
  intros _. apply same_results_print; reflexivity.
Qed.

Lemma same_results_refl_quiet {A} (m : M A) :
  quiet (printed m) = printed m -> same_results m m.
Proof. intros H. split; [reflexivity|exact H]. Qed.

Lemma list_files_console (w : world) :
  forall paths acc out, fst (ZipSizer.list_files w paths acc out) = out.
Proof.
  induction paths as [|filepath rest IH]; intros acc out;
    cbn [ZipSizer.list_files].
  - reflexivity.
  - destruct (negb (isfile w filepath) || isdir w filepath || islink w filepath);
      [apply IH|].
    destruct (getsize w filepath) as [size|e]; [apply IH|].
    destruct e; reflexivity.
Qed.

Lemma list_files_prints_nothing (w : world) (paths : list string)
    (acc : inventory) :
  printed (ZipSizer.list_files w paths acc) = [].
Proof. apply list_files_console. Qed.

Lemma same_results_main (w : world) (a : ZipSizer.args) (directory : string) :
  same_results (ZipSizer.main w (with_verbose true a) directory)
               (ZipSizer.main w (with_verbose false a) directory).
Proof.
  unfold ZipSizer.main, ZipSizer.list_files_with_sizes.
  apply same_results_bind; try solve [appends_tac].
  - apply same_results_refl_quiet.
    rewrite list_files_prints_nothing. reflexivity.
  - intros inv. apply same_results_report.
Qed.

(** ** Truncation and rounding of a double *)

(** Rounding keeps the sign it is given. *)
Lemma binary_round_aux_sign (s : bool) (M E : Z) (l : location) :
  match binary_round_aux prec emax s M E l with
  | S754_zero s' | S754_infinity s' | S754_finite s' _ _ => s' = s
  | S754_nan => True
  end.
Proof.
  unfold binary_round_aux.
  destruct (shr_fexp prec emax M E l) as [y1 e1].
  destruct (shr_fexp prec emax _ e1 loc_Exact) as [y2 e2].
  destruct (shr_m y2); [reflexivity| |exact I].
  destruct (e2 <=? emax - prec); reflexivity.
Qed.

(** [int] of a double that is not negative is its floor. *)
Lemma int_of_float_floor (x : float) (n : Z) :
  match x with
  | S754_zero _ | S754_finite false _ _ => True
  | _ => False
  end ->
  int_of_float x = OK n -> floor_is n x.
Proof.
  destruct x as [s|s| |s m e]; try contradiction.
  - intros _ H. apply OK_inj in H. cbn [floor_is]. congruence.
  - destruct s; [contradiction|]. intros _ H. apply OK_inj in H.
    cbn [floor_is]. cbn [int_of_float] in H.
    destruct (Z.leb_spec 0 e); [congruence|].
    subst n.
    assert (Hd : 0 < 2 ^ (- e)) by (apply Z.pow_pos_nonneg; lia).
    pose proof (Z.mul_div_le (Zpos m) _ Hd).
    pose proof (Z.mul_succ_div_gt (Zpos m) _ Hd).
    lia.
Qed.

(** The nearest integer is the truncation or one above it. *)
Lemma round_nearest_above (x : float) (n : Z) :
  match x with
  | S754_zero _ | S754_finite false _ _ => True
  | _ => False
  end ->
  int_of_float x = OK n ->
  exists r, round_nearest x = OK r /\ n <= r <= n + 1.
Proof.
  destruct x as [s|s| |s m e]; try contradiction.
  - intros _ H. apply OK_inj in H. exists 0. split; [reflexivity|lia].
  - destruct s; [contradiction|]. intros _ H. apply OK_inj in H.
    cbn [round_nearest]. destruct (0 <=? e).
    + exists n. split; [congruence|lia].
    + subst n. cbv zeta.
      destruct (2 * (Zpos m mod 2 ^ (- e)) <? 2 ^ (- e));
        [eexists; split; [reflexivity|lia]|].
      destruct (2 ^ (- e) <? 2 * (Zpos m mod 2 ^ (- e)));
        [eexists; split; [reflexivity|lia]|].
      destruct (Z.even (Zpos m / 2 ^ (- e)));
        eexists; (split; [reflexivity|lia]).
Qed.

(** The product of a positive ratio and the chunk size is not negative. *)
Lemma product_not_negative (r : float) :
  fltb zero r = true ->
  exists x,
    fmul_int r ZipSizer.CHUNKSIZE = OK x /\
    match x with
    | S754_finite true _ _ => False
    | _ => True
    end.
Proof.
  intros Hpos. unfold fmul_int. rewrite float_of_CHUNKSIZE.
  eexists. split; [reflexivity|].
  destruct r as [s|s| |s m e]; try discriminate.
  - destruct s; [discriminate|]. exact I.
  - destruct s; [discriminate|].
    unfold fmul, SFmul. cbn [xorb].
    match goal with
    | |- context [binary_round_aux ?p ?q ?s ?M ?E ?l] =>
        pose proof (binary_round_aux_sign s M E l) as Hs;
        change (binary_round_aux prec emax s M E l)
          with (binary_round_aux p q s M E l) in Hs;
        destruct (binary_round_aux p q s M E l) as [s'|s'| |s' m' e']
    end; try exact I.
    rewrite Hs. exact I.
Qed.

(** ** Binary64 arithmetic: lower bounds, results that are not zero *)

(** The shift of [shr_fexp] for any location of the input. *)
Lemma shr_fexp_shifts_loc (m e : Z) (l : location) :
  0 <= m ->
  snd (shr_fexp prec emax m e l)
  = e + Z.max 0 (fexp prec emax (Zdigits2 m + e) - e) /\
  shr_m (fst (shr_fexp prec emax m e l))
  = m / 2 ^ Z.max 0 (fexp prec emax (Zdigits2 m + e) - e).
Proof.
  intros Hm. unfold shr_fexp.
  assert (Hx : shr_m (shr_record_of_loc m l) = m).
  { destruct l as [|c]; [reflexivity|]. destruct c; reflexivity. }
  destruct (shr_shifts (shr_record_of_loc m l) e
              (fexp prec emax (Zdigits2 m + e) - e)) as (He & _ & Hs & _).
  { rewrite Hx. exact Hm. }
  split; [exact He|]. rewrite Hs, Hx. reflexivity.
Qed.

(** Dropping [n] of the digits of [m] leaves the others. *)
Lemma div_pow2_lower (m n : Z) :
  0 < m -> 0 <= n < Zdigits2 m ->
  2 ^ (Zdigits2 m - 1 - n) <= m / 2 ^ n.
Proof.
  intros Hm Hn.
  pose proof (Zdigits2_bounds m Hm) as [Hlo _].
  apply Z.div_le_lower_bound; [apply Z.pow_pos_nonneg; lia|].
  rewrite <- Z.pow_add_r by lia.
  replace (n + (Zdigits2 m - 1 - n)) with (Zdigits2 m - 1) by lia.
  exact Hlo.
Qed.

Lemma Zdigits2_pos (m : Z) : 0 < m -> 1 <= Zdigits2 m.
Proof.
  intros Hm. apply Zdigits2_ge; [|exact Hm]. change (2 ^ (1 - 1)) with 1. lia.
Qed.

(** Rounding a positive value above the smallest double does not lose
    its magnitude: the result is not zero. *)
Lemma round_lower (s : bool) (M E : Z) (l : location) :
  0 < M -> -1074 < Zdigits2 M + E ->
  match binary_round_aux prec emax s M E l with
  | S754_finite _ m e => Zdigits2 M + E <= Zdigits2 (Zpos m) + e
  | S754_infinity _ => True
  | _ => False
  end.
Proof.
  intros HM Hmag.
  unfold binary_round_aux.
  pose proof (shr_fexp_shifts_loc M E l ltac:(lia)) as [He1 Hm1].
  destruct (shr_fexp prec emax M E l) as [y1 e1]. cbn [fst snd] in *.
  rewrite fexp_eq in He1, Hm1.
  pose proof (Zdigits2_pos M HM) as Hd.
  set (d := Zdigits2 M) in *.
  set (n1 := Z.max 0 (Z.max (d + E - 53) (-1074) - E)) in *.
  assert (Hn1 : 0 <= n1 < d) by lia.
  pose proof (div_pow2_lower M n1 HM Hn1) as Hy1. fold d in Hy1.
  rewrite <- Hm1 in Hy1.
  pose proof (round_nearest_even_bounds y1) as [[Hlo _] _].
  set (m1 := round_nearest_even (shr_m y1) (loc_of_shr_record y1)) in *.
  assert (Hp1 : 0 < 2 ^ (d - 1 - n1)) by (apply Z.pow_pos_nonneg; lia).
  assert (Hm1pos : 0 < m1) by lia.
  assert (Hd1 : d - n1 <= Zdigits2 m1).
  { apply Zdigits2_ge; [|exact Hm1pos].
    replace (d - n1 - 1) with (d - 1 - n1) by lia. lia. }
  pose proof (shr_fexp_shifts_loc m1 e1 loc_Exact ltac:(lia)) as [He2 Hm2].
  destruct (shr_fexp prec emax m1 e1 loc_Exact) as [y2 e2].
  cbn [fst snd] in *. rewrite fexp_eq in He2, Hm2.
  set (d1 := Zdigits2 m1) in *.
  set (n2 := Z.max 0 (Z.max (d1 + e1 - 53) (-1074) - e1)) in *.
  assert (Hn2 : 0 <= n2 < d1) by lia.
  pose proof (div_pow2_lower m1 n2 Hm1pos Hn2) as Hy2. fold d1 in Hy2.
  rewrite <- Hm2 in Hy2.
  assert (Hp2 : 0 < 2 ^ (d1 - 1 - n2)) by (apply Z.pow_pos_nonneg; lia).
  destruct (shr_m y2) as [|m|m] eqn:Hm; [lia| |lia].
  destruct (e2 <=? emax - prec); [|exact I].
  assert (Hd2 : d1 - n2 <= Zdigits2 (Zpos m)).
  { apply Zdigits2_ge; [|lia].
    replace (d1 - n2 - 1) with (d1 - 1 - n2) by lia. lia. }
  lia.
Qed.

(** [float(n)] of a positive integer below [2 ^ K]: a positive finite
    double between 1 and [2 ^ K]. *)
Lemma float_of_int_pos (n K : Z) :
  0 < n < 2 ^ K -> K <= 1023 ->
  exists m e,
    float_of_int n = OK (S754_finite false m e) /\
    1 <= magnitude (S754_finite false m e) <= K + 1.
Proof.
  intros [Hn0 Hn] HK. unfold float_of_int, binary_normalize.
  destruct n as [|p|p]; [lia| |lia].
  assert (HK0 : 0 <= K).
  { destruct (Z.lt_ge_cases K 0) as [Hneg|]; [|assumption].
    rewrite Z.pow_neg_r in Hn by assumption. lia. }
  unfold binary_round.
  pose proof (shl_align_value p (fexp prec emax (Zpos (digits2_pos p) + 0)))
    as Hal.
  destruct (shl_align p 0 _) as [mz ez]. destruct Hal as [Hez Hmz].
  assert (Hpw : 0 < 2 ^ (- ez)) by (apply Z.pow_pos_nonneg; lia).
  assert (Hdz : 1 - ez <= Zdigits2 (Zpos mz)).
  { apply Zdigits2_ge; [|lia].
    replace (1 - ez - 1) with (- ez) by lia. rewrite Hmz. nia. }
  pose proof (round_below_pow2 false (Zpos mz) ez K) as Hup.
  pose proof (round_lower false (Zpos mz) ez loc_Exact) as Hlo.
  pose proof (binary_round_aux_sign false (Zpos mz) ez loc_Exact) as Hs.
  destruct (binary_round_aux prec emax false (Zpos mz) ez loc_Exact)
    as [s|s| |s m e].
  - exfalso. apply Hlo; lia.
  - exfalso.
    assert (971 < Z.max ez (Z.max (K - 52) (-1074))); [|lia].
    apply Hup; try lia.
    rewrite Hmz. replace (K - ez) with (K + - ez) by lia.
    rewrite Z.pow_add_r by lia.
    apply Z.mul_le_mono_nonneg_r; lia.
  - exfalso. apply Hlo; lia.
  - subst s. exists m, e. split; [reflexivity|].
    cbn [magnitude].
    assert (Hlo' : Zdigits2 (Zpos mz) + ez <= Zdigits2 (Zpos m) + e)
      by (apply Hlo; lia).
    split; [lia|].
    destruct Hup as [He Hm]; try lia.
    { rewrite Hmz. replace (K - ez) with (K + - ez) by lia.
      rewrite Z.pow_add_r by lia.
      apply Z.mul_le_mono_nonneg_r; lia. }
    destruct (Z.lt_ge_cases (K - e) 0) as [Hneg|Hge].
    { rewrite Z.pow_neg_r in Hm by assumption. lia. }
    assert (Zdigits2 (Zpos m) <= K - e + 1); [|lia].
    apply Zdigits2_le; [lia|]. split; [lia|].
    rewrite Z.pow_add_r by lia. change (2 ^ 1) with 2.
    assert (0 < 2 ^ (K - e)) by (apply Z.pow_pos_nonneg; lia). lia.
Qed.

(** The product of two finite doubles does not underflow to zero when
    the magnitudes add up to more than that of the smallest double. *)
Lemma fmul_lower (sx sy : bool) (mx my : positive) (ex ey : Z) :
  -1074 < magnitude (S754_finite sx mx ex) + magnitude (S754_finite sy my ey) - 1 ->
  at_least (magnitude (S754_finite sx mx ex) + magnitude (S754_finite sy my ey) - 1)
    (fmul (S754_finite sx mx ex) (S754_finite sy my ey)).
Proof.
  cbn [magnitude]. intros Hmag. unfold fmul, SFmul.
  pose proof (Zdigits2_bounds (Zpos mx) ltac:(lia)) as [Hx _].
  pose proof (Zdigits2_bounds (Zpos my) ltac:(lia)) as [Hy _].
  pose proof (Zdigits2_pos (Zpos mx) ltac:(lia)) as Hdx.
  pose proof (Zdigits2_pos (Zpos my) ltac:(lia)) as Hdy.
  assert (Hd : Zdigits2 (Zpos mx) + Zdigits2 (Zpos my) - 1
               <= Zdigits2 (Zpos (mx * my))).
  { apply Zdigits2_ge; [|lia].
    replace (Zdigits2 (Zpos mx) + Zdigits2 (Zpos my) - 1 - 1)
      with ((Zdigits2 (Zpos mx) - 1) + (Zdigits2 (Zpos my) - 1)) by lia.
    rewrite Z.pow_add_r by lia. rewrite Pos2Z.inj_mul.
    apply Z.mul_le_mono_nonneg; try assumption;
      apply Z.pow_nonneg; lia. }
  pose proof (round_lower (xorb sx sy) (Zpos (mx * my)) (ex + ey) loc_Exact)
    as Hlo.
  destruct (binary_round_aux prec emax (xorb sx sy) (Zpos (mx * my))
              (ex + ey) loc_Exact) as [s|s| |s m e]; cbn [at_least magnitude].
  - apply Hlo; lia.
  - exact I.
  - apply Hlo; lia.
  - assert (Zdigits2 (Zpos (mx * my)) + (ex + ey) <= Zdigits2 (Zpos m) + e)
      by (apply Hlo; lia).
    lia.
Qed.

Lemma shift_match (m s : Z) :
  0 <= s ->
  match s with
  | Zpos _ => Z.shiftl m s
  | Z0 => m
  | Zneg _ => 0
  end = m * 2 ^ s.
Proof.
  intros Hs. destruct s as [|p|p].
  - rewrite Z.pow_0_r. lia.
  - apply Z.shiftl_mul_pow2. lia.
  - lia.
Qed.

(** The quotient of two finite doubles does not underflow to zero when
    the difference of the magnitudes is that of a double. *)
Lemma fdiv_lower (sx sy : bool) (mx my : positive) (ex ey : Z) :
  -1073 <= magnitude (S754_finite sx mx ex) - magnitude (S754_finite sy my ey) ->
  at_least (magnitude (S754_finite sx mx ex) - magnitude (S754_finite sy my ey))
    (fdiv (S754_finite sx mx ex) (S754_finite sy my ey)).
Proof.
  cbn [magnitude]. intros HD. unfold fdiv, SFdiv, SFdiv_core_binary.
  cbv zeta. rewrite fexp_eq.
  pose proof (Zdigits2_bounds (Zpos mx) ltac:(lia)) as [Hx _].
  pose proof (Zdigits2_bounds (Zpos my) ltac:(lia)) as [_ Hy].
  pose proof (Zdigits2_pos (Zpos mx) ltac:(lia)) as Hdx.
  pose proof (Zdigits2_pos (Zpos my) ltac:(lia)) as Hdy.
  set (d1 := Zdigits2 (Zpos mx)) in *. set (d2 := Zdigits2 (Zpos my)) in *.
  set (e' := Z.min (Z.max (d1 + ex - (d2 + ey) - 53) (-1074)) (ex - ey)).
  assert (He' : d2 - d1 + 1 <= ex - ey - e' /\ 0 <= ex - ey - e')
    by (unfold e'; lia).
  rewrite (shift_match (Zpos mx) (ex - ey - e')) by lia.
  set (s := ex - ey - e') in *.
  destruct (Z.div_eucl (Zpos mx * 2 ^ s) (Zpos my)) as [q r] eqn:Hqr.
  assert (Hq : q = Zpos mx * 2 ^ s / Zpos my)
    by (unfold Z.div; rewrite Hqr; reflexivity).
  assert (Hlow : 2 ^ (d1 - 1 + s - d2) <= q).
  { rewrite Hq. apply Z.div_le_lower_bound; [lia|].
    apply Z.le_trans with (2 ^ d2 * 2 ^ (d1 - 1 + s - d2)).
    - apply Z.mul_le_mono_nonneg_r; [apply Z.pow_nonneg; lia|lia].
    - rewrite <- Z.pow_add_r by lia.
      replace (d2 + (d1 - 1 + s - d2)) with ((d1 - 1) + s) by lia.
      rewrite Z.pow_add_r by lia.
      apply Z.mul_le_mono_nonneg_r; [apply Z.pow_nonneg; lia|exact Hx]. }
  assert (Hqpos : 0 < q).
  { assert (0 < 2 ^ (d1 - 1 + s - d2)) by (apply Z.pow_pos_nonneg; lia). lia. }
  assert (Hdq : d1 + s - d2 <= Zdigits2 q).
  { apply Zdigits2_ge; [|exact Hqpos].
    replace (d1 + s - d2 - 1) with (d1 - 1 + s - d2) by lia. exact Hlow. }
  match goal with
  | |- context [binary_round_aux ?p ?em ?sg ?M ?E ?l] =>
      pose proof (round_lower sg M E l Hqpos) as Hlo;
      change (binary_round_aux prec emax sg M E l)
        with (binary_round_aux p em sg M E l) in Hlo;
      destruct (binary_round_aux p em sg M E l) as [s0|s0| |s0 m e]
  end; cbn [at_least magnitude].
  - apply Hlo. unfold s in *. lia.
  - exact I.
  - apply Hlo. unfold s in *. lia.
  - assert (Zdigits2 q + e' <= Zdigits2 (Zpos m) + e)
      by (apply Hlo; unfold s in *; lia).
    unfold s in *. lia.
Qed.

(** An inventory of positive size and a sample that is not empty: the
    extrapolation returns a double that is not zero, and so does the
    ratio. *)
Lemma report_tail_extrapolates (c s total : Z) :
  0 < c < 2 ^ 1023 -> 0 < s < 2 ^ 1023 -> 0 < total < 2 ^ 1023 ->
  exists fc fs ft,
    float_of_int c = OK fc /\
    float_of_int s = OK fs /\
    float_of_int total = OK ft /\
    is_zero (fmul (fdiv fc fs) ft) = false /\
    ZipSizer.estimate c s total = OK (Float (fmul (fdiv fc fs) ft)) /\
    truediv total (Float (fmul (fdiv fc fs) ft))
    = OK (fdiv ft (fmul (fdiv fc fs) ft)) /\
    report_tail c s total
    = ([Rule; OriginalSize total; EstimatedSize (Float (fmul (fdiv fc fs) ft));
        CompressionRatio (fdiv ft (fmul (fdiv fc fs) ft)); Rule], OK tt).
Proof.
  intros Hc Hs Ht.
  destruct (float_of_int_pos c 1023 Hc ltac:(lia)) as (mc & ec & Hfc & Hmc).
  destruct (float_of_int_pos s 1023 Hs ltac:(lia)) as (ms & es & Hfs & Hms).
  destruct (float_of_int_pos total 1023 Ht ltac:(lia)) as (mt & et & Hft & Hmt).
  exists (S754_finite false mc ec), (S754_finite false ms es),
    (S754_finite false mt et).
  split; [exact Hfc|]. split; [exact Hfs|]. split; [exact Hft|].
  assert (Hz : is_zero (fmul (fdiv (S754_finite false mc ec)
                                   (S754_finite false ms es))
                             (S754_finite false mt et)) = false).
  { pose proof (fdiv_lower false false mc ms ec es ltac:(lia)) as Hq.
    destruct (fdiv (S754_finite false mc ec) (S754_finite false ms es))
      as [sq|sq| |sq mq eq]; cbn [at_least] in Hq; try contradiction.
    - reflexivity.
    - pose proof (fmul_lower sq false mq mt eq et ltac:(lia)) as He.
      destruct (fmul (S754_finite sq mq eq) (S754_finite false mt et))
        as [se|se| |se me ee]; cbn [at_least] in He; try contradiction;
        reflexivity. }
  assert (He : ZipSizer.estimate c s total
               = OK (Float (fmul (fdiv (S754_finite false mc ec)
                                       (S754_finite false ms es))
                                 (S754_finite false mt et)))).
  { unfold ZipSizer.estimate, fdiv_int, fmul_int.
    destruct (Z.gtb_spec total 0); [|lia].
    rewrite Hfc, Hfs, Hft. reflexivity. }
  assert (Hr : truediv total
                 (Float (fmul (fdiv (S754_finite false mc ec)
                                    (S754_finite false ms es))
                              (S754_finite false mt et)))
               = OK (fdiv (S754_finite false mt et)
                       (fmul (fdiv (S754_finite false mc ec)
                                   (S754_finite false ms es))
                             (S754_finite false mt et)))).
  { unfold truediv. rewrite Hft, Hz. reflexivity. }
  split; [exact Hz|]. split; [exact He|]. split; [exact Hr|].
  unfold report_tail. rewrite He, Hr. reflexivity.
Qed.

(** ** The two walks side by side *)

Lemma sample_data_state_run (w : world) (a : ZipSizer.args) (inv : inventory)
    (ss : Z) (plan : list Z) :
  ZipSizer.sample_size_of a = OK ss ->
  range (ZipSizer.CHUNKSIZE - ss) (total_size inv) ZipSizer.CHUNKSIZE = OK plan ->
  run (ZipSizer.sample_data_state w a inv)
  = (sampler_lines a inv ss
     ++ printed (ZipSizer.walk w ss 0 inv (initial plan)),
     outcome (ZipSizer.walk w ss 0 inv (initial plan))).
Proof.
  intros Hss Hplan. unfold ZipSizer.sample_data_state, sampler_lines, initial.
  unfold run, bind, when, lift, print, ret.
  rewrite Hss, Hplan.
  destruct (ZipSizer.verbose a); cbn -[ZipSizer.walk].
  - rewrite (appends_walk w ss inv 0 _ _). reflexivity.
  - rewrite (appends_walk w ss inv 0 _ _). reflexivity.
Qed.

(** While the walk of [estimate-compression.py] returns, the walk of
    [zip-sizer.py] does the same and prints nothing. *)
Lemma walk_lockstep (w : world) (ss : Z) :
  forall files_left i st st' out,
    EstimateCompression.walk w ss i files_left st = OK st' ->
    ZipSizer.walk w ss i files_left st out = (out, OK st').
Proof.
  induction files_left as [|[filepath size] rest IH]; intros i st st' out;
    cbn [EstimateCompression.walk ZipSizer.walk].
  - intros H. apply OK_inj in H. subst st'. reflexivity.
  - destruct (no_point_below _ _); [apply IH|].
    destruct (open (files w filepath)) as [f|e]; [|discriminate].
    destruct (read_windows _ _ _ _ _ _ _ _) as [[[points data] log] raised].
    destruct raised as [e|]; [discriminate|]. apply IH.
Qed.

(** When the walk of [estimate-compression.py] raises, the walk of
    [zip-sizer.py] has reached the same file: it logs the exception
    when it is one that it catches, and raises it otherwise. *)
Lemma walk_first_failure (w : world) (ss : Z) :
  forall files_left i st e out,
    EstimateCompression.walk w ss i files_left st = Raise e ->
    if ZipSizer.caught e
    then exists filepath,
           In filepath (map fst files_left) /\
           In (Warning filepath e)
              (fst (ZipSizer.walk w ss i files_left st out))
    else ZipSizer.walk w ss i files_left st out = (out, Raise e).
Proof.
  induction files_left as [|[filepath size] rest IH]; intros i st e out;
    cbn [EstimateCompression.walk ZipSizer.walk].
  - discriminate.
  - assert (Hnext : forall st1,
               EstimateCompression.walk w ss (S i) rest st1 = Raise e ->
               if ZipSizer.caught e
               then exists filepath0,
                   In filepath0 (map fst ((filepath, size) :: rest)) /\
                   In (Warning filepath0 e)
                      (fst (ZipSizer.walk w ss (S i) rest st1 out))
               else ZipSizer.walk w ss (S i) rest st1 out = (out, Raise e)).
    { intros st1 H. specialize (IH (S i) st1 e out H).
      destruct (ZipSizer.caught e); [|exact IH].
      destruct IH as (p & Hp & Hw). exists p. split; [right; exact Hp|exact Hw]. }
    assert (Hhere : forall st1 (e1 : exn),
               e1 = e -> ZipSizer.caught e1 = true ->
               exists filepath0,
                 In filepath0 (map fst ((filepath, size) :: rest)) /\
                 In (Warning filepath0 e)
                    (fst (bind (print (Warning filepath e1))
                            (fun _ => ZipSizer.walk w ss (S i) rest st1) out))).
    { intros st1 e1 -> _. exists filepath. split; [left; reflexivity|].
      unfold bind, print.
      rewrite (appends_walk w ss rest (S i) st1 _). cbn [fst].
      apply in_or_app. left. apply in_or_app. right. left. reflexivity. }
    destruct (no_point_below _ _); [apply Hnext|].
    destruct (open (files w filepath)) as [f|e1].
    + destruct (read_windows _ _ _ _ _ _ _ _) as [[[points data] log] raised].
      destruct raised as [e1|]; [|apply Hnext].
      intros H. inversion H; subst e1.
      destruct (ZipSizer.caught e) eqn:Hc; [|reflexivity].
      apply Hhere; [reflexivity|exact Hc].
    + intros H. inversion H; subst e1.
      destruct (ZipSizer.caught e) eqn:Hc; [|reflexivity].
      apply Hhere; [reflexivity|exact Hc].
Qed.

(** The walk prints warnings only, one for a file of the inventory
    each. *)
Lemma walk_prints_warnings (w : world) (ss : Z) :
  forall files_left i st,
    Forall (fun l => exists filepath e,
                l = Warning filepath e /\ ZipSizer.caught e = true /\
                In filepath (map fst files_left))
           (printed (ZipSizer.walk w ss i files_left st)).
Proof.
  induction files_left as [|[filepath size] rest IH]; intros i st.
  - constructor.
  - assert (Hnext : forall st1,
               Forall (fun l => exists filepath0 e,
                           l = Warning filepath0 e /\
                           ZipSizer.caught e = true /\
                           In filepath0 (map fst ((filepath, size) :: rest)))
                      (printed (ZipSizer.walk w ss (S i) rest st1))).
    { intros st1. eapply Forall_impl; [|apply IH].
      intros l (p & e & -> & Hc & Hin). exists p, e.
      split; [reflexivity|]. split; [exact Hc|right; exact Hin]. }
    assert (Hhere : forall st1 e, ZipSizer.caught e = true ->
               Forall (fun l => exists filepath0 e0,
                           l = Warning filepath0 e0 /\
                           ZipSizer.caught e0 = true /\
                           In filepath0 (map fst ((filepath, size) :: rest)))
                      (printed (bind (print (Warning filepath e))
                                  (fun _ => ZipSizer.walk w ss (S i) rest st1)))).
    { intros st1 e Hc. unfold printed, run, bind, print.
      rewrite (appends_walk w ss rest (S i) st1 _). cbn [fst app].
      constructor; [|apply Hnext].
      exists filepath, e. split; [reflexivity|]. split; [exact Hc|].
      left. reflexivity. }
    cbn [ZipSizer.walk].
    destruct (no_point_below _ _); [apply Hnext|].
    destruct (open (files w filepath)) as [f|e].
    + destruct (read_windows _ _ _ _ _ _ _ _) as [[[points data] log] raised].
      destruct raised as [e|]; [|apply Hnext].
      destruct (ZipSizer.caught e) eqn:Hc; [apply Hhere; exact Hc|constructor].
    + destruct (ZipSizer.caught e) eqn:Hc; [apply Hhere; exact Hc|constructor].
Qed.

(** The only exceptions of the walk of [estimate-compression.py] are
    the [OSError]s of [open] and of the reads. *)
Lemma walk_raises_OSError (w : world) (ss : Z) :
  -1 <= ss ->
  forall files_left i st e,
    EstimateCompression.walk w ss i files_left st = Raise e ->
    exists c, e = OSError c.
Proof.
  intros Hss.
  induction files_left as [|[filepath size] rest IH]; intros i st e;
    cbn [EstimateCompression.walk].
  - discriminate.
  - destruct (no_point_below _ _); [apply IH|].
    destruct (open (files w filepath)) as [f|e1] eqn:Hopen.
    + destruct (read_windows _ _ _ _ _ _ _ _)
        as [[[points data] log] raised] eqn:Hrw.
      destruct raised as [e1|]; [|apply IH].
      intros H. inversion H; subst e1.
      apply read_windows_spec in Hrw.
      destruct Hrw as (new & _ & _ & _ & _ & _ & He).
      destruct (He e eq_refl) as (p & Hp).
      exact (seek_read_raises _ _ _ _ Hss Hp).
    + intros H. inversion H; subst e1.
      unfold open in Hopen.
      destruct (files w filepath) as [content|c|content bad c];
        try discriminate.
      inversion Hopen. eauto.
Qed.

(** The run of [sample_data] in [zip-sizer.py] from the walk. *)
Lemma sample_data_run (w : world) (a : ZipSizer.args) (inv : inventory)
    (ss : Z) (plan : list Z) (st : sampler) :
  ZipSizer.sample_size_of a = OK ss ->
  range (ZipSizer.CHUNKSIZE - ss) (total_size inv) ZipSizer.CHUNKSIZE = OK plan ->
  outcome (ZipSizer.walk w ss 0 inv (initial plan)) = OK st ->
  run (ZipSizer.sample_data w a inv)
  = (sampler_lines a inv ss
     ++ printed (ZipSizer.walk w ss 0 inv (initial plan)),
     OK (sampled_data st)).
Proof.
  intros Hss Hplan Hst.
  pose proof (sample_data_state_run w a inv ss plan Hss Hplan) as Hrun.
  unfold ZipSizer.sample_data, run, bind.
  unfold run in Hrun. rewrite Hrun, Hst. unfold ret. reflexivity.
Qed.

(** ** The listings *)

Lemma listed_skip (w : world) (filepath : string) :
  negb (isfile w filepath) || isdir w filepath || islink w filepath
  = negb (listed w filepath).
Proof.
  unfold listed.
  destruct (isfile w filepath), (isdir w filepath), (islink w filepath);
    reflexivity.
Qed.

(** The listing of [zip-sizer.py] when every size it asks for is
    returned. *)
Lemma list_files_filter (w : world) :
  forall paths acc out,
    (forall p, In p paths -> listed w p = true ->
               exists size, getsize w p = OK size) ->
    exists inv,
      ZipSizer.list_files w paths acc out = (out, OK (acc ++ inv)) /\
      map fst inv = filter (listed w) paths /\
      Forall (fun entry => getsize w (fst entry) = OK (snd entry)) inv.
Proof.
  induction paths as [|filepath rest IH]; intros acc out Hsize;
    cbn [ZipSizer.list_files filter].
  - exists []. rewrite app_nil_r. repeat split. constructor.
  - rewrite listed_skip.
    destruct (listed w filepath) eqn:Hl; cbn [negb].
    + destruct (Hsize filepath (or_introl eq_refl) Hl) as (size & Hs).
      rewrite Hs.
      destruct (IH (acc ++ [(filepath, size)]) out) as (inv & Hrun & Hm & Hf).
      { intros p Hp. apply Hsize. right. exact Hp. }
      exists ((filepath, size) :: inv).
      rewrite Hrun, <- app_assoc. cbn [app map fst].
      split; [reflexivity|]. split; [rewrite Hm; reflexivity|].
      constructor; [exact Hs|exact Hf].
    + apply IH. intros p Hp. apply Hsize. right. exact Hp.
Qed.

(** The listing of [zip-sizer.py] on the first size that is not
    returned: the handler calls [logging.warning] with a keyword it does
    not take. *)
Lemma list_files_error (w : world) :
  forall pre acc out p rest c,
    (forall q, In q pre -> listed w q = true ->
               exists size, getsize w q = OK size) ->
    listed w p = true ->
    getsize w p = Raise (OSError c) ->
    ZipSizer.list_files w (pre ++ p :: rest) acc out = (out, Raise TypeError).
Proof.
  induction pre as [|filepath pre IH]; intros acc out p rest c Hsize Hl Hp;
    cbn [app ZipSizer.list_files].
  - rewrite listed_skip, Hl, Hp. reflexivity.
  - rewrite listed_skip.
    destruct (listed w filepath) eqn:Hl1; cbn [negb].
    + destruct (Hsize filepath (or_introl eq_refl) Hl1) as (size & Hs).
      rewrite Hs. apply (IH _ _ _ _ c); auto.
      intros q Hq. apply Hsize. right. exact Hq.
    + apply (IH _ _ _ _ c); auto.
      intros q Hq. apply Hsize. right. exact Hq.
Qed.

(** The listing of [estimate-compression.py]: every name, in order. *)
Lemma list_files_all (w : world) :
  forall paths acc r,
    EstimateCompression.list_files w paths acc = OK r ->
    exists inv,
      r = acc ++ inv /\
      map fst inv = paths /\
      Forall (fun entry => getsize w (fst entry) = OK (snd entry)) inv.
Proof.
  induction paths as [|filepath rest IH]; intros acc r;
    cbn [EstimateCompression.list_files].
  - intros H. apply OK_inj in H. subst r. exists [].
    rewrite app_nil_r. repeat split. constructor.
  - destruct (getsize w filepath) as [size|e] eqn:Hs; [|discriminate].
    intros H. destruct (IH _ _ H) as (inv & -> & Hm & Hf).
    exists ((filepath, size) :: inv). rewrite <- app_assoc.
    split; [reflexivity|]. split; [cbn [map fst]; rewrite Hm; reflexivity|].
    constructor; [exact Hs|exact Hf].
Qed.

(** Entries whose sizes are the ones [getsize] returns are listed by
    [zip-sizer.py] when they pass its filter. *)
Lemma list_files_of_entries (w : world) :
  forall inv acc out,
    Forall (fun entry => getsize w (fst entry) = OK (snd entry)) inv ->
    ZipSizer.list_files w (map fst inv) acc out
    = (out, OK (acc ++ filter (fun entry => listed w (fst entry)) inv)).
Proof.
  induction inv as [|[filepath size] rest IH]; intros acc out Hf;
    cbn [map fst ZipSizer.list_files filter].
  - rewrite app_nil_r. reflexivity.
  - inversion Hf as [|? ? Hs Hrest]; subst. cbn [fst snd] in Hs.
    rewrite listed_skip.
    destruct (listed w filepath); cbn [negb].
    + rewrite Hs, (IH _ _ Hrest), <- app_assoc. reflexivity.
    + apply IH. exact Hrest.
Qed.

(** ** The sampler of [estimate-compression.py] with any parameters *)

Lemma walk_inv_start (w : world) (inv : inventory) (ss : Z) (plan : list Z) :
  Forall (fun p => 0 <= p) plan ->
  walk_inv w inv ss plan 0 (initial plan).
Proof.
  intros Hplan. unfold walk_inv, initial.
  cbn [sampled_data sampling_points current_offset reads map List.concat app].
  split; [exact Hplan|].
  split; [reflexivity|]. split; [constructor|]. split; [reflexivity|].
  intros j path size _. unfold bytes_read_from, reads_of.
  cbn [filter]. rewrite bytes_of_nil. apply len_nonneg.
Qed.

(** With no sampling point left the walk opens no file. *)
Lemma walk_without_points (w : world) (ss : Z) :
  forall files_left i st,
    sampling_points st = [] ->
    exists st',
      EstimateCompression.walk w ss i files_left st = OK st' /\
      sampled_data st' = sampled_data st.
Proof.
  induction files_left as [|[filepath size] rest IH]; intros i st Hp;
    cbn [EstimateCompression.walk].
  - exists st. split; reflexivity.
  - rewrite Hp. cbn [no_point_below].
    destruct (IH (S i)
                {| sampled_data := sampled_data st;
                   sampling_points := [];
                   current_offset := current_offset st + size;
                   reads := reads st |} eq_refl) as (st' & Hw & Hd).
    exists st'. split; [exact Hw|exact Hd].
Qed.

(** ** [current_offset] under failures *)

Lemma total_size_nonneg (inv : inventory) :
  Forall (fun entry => 0 <= snd entry) inv -> 0 <= total_size inv.
Proof.
  induction 1 as [|[path size] rest Hs _ IH].
  - reflexivity.
  - rewrite total_size_cons. cbn [snd] in Hs. lia.
Qed.

Lemma print_then_walk (w : world) (ss : Z) (i : nat) (rest : inventory)
    (st : sampler) (l : line) :
  outcome (bind (print l) (fun _ => ZipSizer.walk w ss i rest st))
  = outcome (ZipSizer.walk w ss i rest st) /\
  printed (bind (print l) (fun _ => ZipSizer.walk w ss i rest st))
  = l :: printed (ZipSizer.walk w ss i rest st).
Proof.
  unfold outcome, printed, run, bind, print.
  rewrite (appends_walk w ss rest i st _). split; reflexivity.
Qed.

(** The walk advances [current_offset] by the size of every file but
    those whose exception it logs. *)
Lemma walk_offset (w : world) (ss : Z) :
  forall files_left i st st',
    Forall (fun entry => 0 <= snd entry) files_left ->
    outcome (ZipSizer.walk w ss i files_left st) = OK st' ->
    current_offset st <= current_offset st'
                      <= current_offset st + total_size files_left /\
    (printed (ZipSizer.walk w ss i files_left st) = [] ->
     current_offset st' = current_offset st + total_size files_left).
Proof.
  induction files_left as [|[filepath size] rest IH]; intros i st st' Hpos.
  - intros H. apply OK_inj in H. subst st'.
    change (total_size []) with 0. lia.
  - inversion Hpos as [|? ? Hsize Hrest]; subst. cbn [snd] in Hsize.
    pose proof (total_size_nonneg rest Hrest) as Htot.
    rewrite total_size_cons.
    assert (Hadv : forall data points log,
               outcome (ZipSizer.walk w ss (S i) rest
                          {| sampled_data := data; sampling_points := points;
                             current_offset := current_offset st + size;
                             reads := log |}) = OK st' ->
               current_offset st <= current_offset st'
                                 <= current_offset st + (size + total_size rest) /\
               (printed (ZipSizer.walk w ss (S i) rest
                           {| sampled_data := data; sampling_points := points;
                              current_offset := current_offset st + size;
                              reads := log |}) = [] ->
                current_offset st' = current_offset st + (size + total_size rest))).
    { intros data points log H.
      destruct (IH (S i) _ st' Hrest H) as [Hb Heq].
      cbn [current_offset] in Hb, Heq. split; [lia|].
      intros Hp. rewrite (Heq Hp). lia. }
    assert (Hfail : forall st1 e,
               current_offset st1 = current_offset st ->
               outcome (bind (print (Warning filepath e))
                          (fun _ => ZipSizer.walk w ss (S i) rest st1)) = OK st' ->
               current_offset st <= current_offset st'
                                 <= current_offset st + (size + total_size rest) /\
               (printed (bind (print (Warning filepath e))
                           (fun _ => ZipSizer.walk w ss (S i) rest st1)) = [] ->
                current_offset st' = current_offset st + (size + total_size rest))).
    { intros st1 e Hoff H.
      destruct (print_then_walk w ss (S i) rest st1 (Warning filepath e))
        as [Ho Hp].
      rewrite Ho in H. rewrite Hp.
      destruct (IH (S i) st1 st' Hrest H) as [Hb _].
      rewrite Hoff in Hb. split; [lia|discriminate]. }
    cbn [ZipSizer.walk].
    destruct (no_point_below _ _); [apply Hadv|].
    destruct (open (files w filepath)) as [f|e].
    + destruct (read_windows _ _ _ _ _ _ _ _) as [[[points data] log] raised].
      destruct raised as [e|]; [|apply Hadv].
      destruct (ZipSizer.caught e); [|discriminate].
      apply Hfail. reflexivity.
    + destruct (ZipSizer.caught e); [|discriminate].
      apply Hfail. reflexivity.
Qed.

(** Warnings are not diagnostics. *)
Lemma quiet_walk (w : world) (ss : Z) (i : nat) (files_left : inventory)
    (st : sampler) :
  quiet (printed (ZipSizer.walk w ss i files_left st))
  = printed (ZipSizer.walk w ss i files_left st).
Proof.
  pose proof (walk_prints_warnings w ss files_left i st) as H.
  induction H as [|l out (p & e & -> & _) _ IH]; [reflexivity|].
  unfold quiet in *. cbn [filter diagnostic negb]. rewrite IH. reflexivity.
Qed.

(** ** Binary64 arithmetic: roundings that are exact *)

(** The digits of a number shifted to the left. *)
Lemma Zdigits2_shift (m k : Z) :
  0 < m -> 0 <= k -> Zdigits2 (m * 2 ^ k) = Zdigits2 m + k.
Proof.
  intros Hm Hk.
  pose proof (Zdigits2_bounds m Hm) as [Hlo Hhi].
  pose proof (Zdigits2_pos m Hm) as Hd.
  assert (Hp : 0 < 2 ^ k) by (apply Z.pow_pos_nonneg; lia).
  apply Z.le_antisymm.
  - apply Zdigits2_le; [lia|]. split; [nia|].
    rewrite Z.pow_add_r by lia. nia.
  - apply Zdigits2_ge; [|nia].
    replace (Zdigits2 m + k - 1) with ((Zdigits2 m - 1) + k) by lia.
    rewrite Z.pow_add_r by lia. nia.
Qed.

(** Rounding a value that a double holds: the digits that are dropped
    are zeros, and the result is that value. *)
Lemma round_exact (s : bool) (M E : Z) (m' : positive) (n : Z) :
  0 < M ->
  n = Z.max 0 (Z.max (Zdigits2 M + E - 53) (-1074) - E) ->
  M = Zpos m' * 2 ^ n ->
  Zdigits2 (Zpos m') <= 53 ->
  E + n <= 971 ->
  binary_round_aux prec emax s M E loc_Exact = S754_finite s m' (E + n).
Proof.
  intros HM Hn HMm Hd He.
  assert (Hn0 : 0 <= n) by lia.
  assert (Hpn : 0 < 2 ^ n) by (apply Z.pow_pos_nonneg; lia).
  unfold binary_round_aux.
  pose proof (shr_fexp_shifts M E ltac:(lia)) as [He1 Hs1].
  destruct (shr_fexp prec emax M E loc_Exact) as [y1 e1]. cbn [fst snd] in *.
  rewrite fexp_eq in He1, Hs1. rewrite <- Hn in He1, Hs1.
  destruct Hs1 as (_ & Hy1 & Hloss). cbn [shr_m] in Hy1, Hloss.
  assert (Hy1' : shr_m y1 = Zpos m').
  { rewrite Hy1, HMm. apply Z.div_mul. lia. }
  assert (Hl1 : lossless y1).
  { apply Hloss; [split; reflexivity|]. exists (Zpos m'). exact HMm. }
  pose proof (round_nearest_even_bounds y1) as [_ Hexact].
  rewrite (Hexact Hl1), Hy1'. subst e1.
  pose proof (shr_fexp_shifts (Zpos m') (E + n) ltac:(lia)) as [He2 Hs2].
  destruct (shr_fexp prec emax (Zpos m') (E + n) loc_Exact) as [y2 e2].
  cbn [fst snd] in *. rewrite fexp_eq in He2, Hs2.
  replace (Z.max 0 (Z.max (Zdigits2 (Zpos m') + (E + n) - 53) (-1074)
                    - (E + n))) with 0 in He2, Hs2 by lia.
  destruct Hs2 as (_ & Hy2 & _). cbn [shr_m] in Hy2.
  change (2 ^ 0) with 1 in Hy2. rewrite Z.div_1_r in Hy2.
  rewrite Hy2. replace e2 with (E + n) by lia.
  destruct (Z.leb_spec (E + n) (emax - prec)) as [_|Hgt]; [reflexivity|].
  unfold emax, prec in Hgt. lia.
Qed.

(** [n / 1024] for an integer from 1024 to below 1024 * 1024: the
    double that is exactly that quotient. *)
Lemma int_truediv_1024 (n : Z) :
  1024 <= n < 1024 * 1024 ->
  int_truediv n 1024
  = OK (S754_finite false (Z.to_pos (n * 2 ^ (53 - Zdigits2 n)))
          (Zdigits2 n - 63)).
Proof.
  intros [Hlo Hhi].
  assert (Hd1 : 11 <= Zdigits2 n).
  { apply Zdigits2_ge; [|lia]. change (2 ^ (11 - 1)) with 1024. exact Hlo. }
  assert (Hd2 : Zdigits2 n <= 20).
  { apply Zdigits2_le; [lia|]. change (2 ^ 20) with (1024 * 1024). lia. }
  set (d := Zdigits2 n) in *.
  assert (Hp53 : 0 < 2 ^ (53 - d)) by (apply Z.pow_pos_nonneg; lia).
  assert (Hm' : Zpos (Z.to_pos (n * 2 ^ (53 - d))) = n * 2 ^ (53 - d))
    by (apply Z2Pos.id; nia).
  assert (H54 : 2 ^ (54 - d) = 2 ^ (53 - d) * 2).
  { replace (54 - d) with ((53 - d) + 1) by lia.
    rewrite Z.pow_add_r by lia. reflexivity. }
  assert (H64 : 2 ^ (64 - d) = 2 ^ (54 - d) * 1024).
  { replace (64 - d) with ((54 - d) + 10) by lia.
    rewrite Z.pow_add_r by lia. reflexivity. }
  unfold int_truediv. change (1024 =? 0) with false. cbv iota.
  rewrite (Z.abs_eq n) by lia. change (Z.abs 1024) with 1024.
  unfold SFdiv_core_binary. cbv zeta. rewrite fexp_eq.
  change (Zdigits2 1024) with 11. fold d.
  replace (Z.min (Z.max (d + 0 - (11 + 0) - 53) (-1074)) (0 - 0))
    with (d - 64) by lia.
  rewrite (shift_match n (0 - 0 - (d - 64))) by lia.
  replace (0 - 0 - (d - 64)) with (64 - d) by lia.
  destruct (Z.div_eucl (n * 2 ^ (64 - d)) 1024) as [q r] eqn:Hqr.
  assert (Hq : q = n * 2 ^ (54 - d)).
  { change q with (fst (q, r)). rewrite <- Hqr.
    change (fst (Z.div_eucl (n * 2 ^ (64 - d)) 1024))
      with (n * 2 ^ (64 - d) / 1024).
    rewrite H64, Z.mul_assoc. apply Z.div_mul. lia. }
  assert (Hr : r = 0).
  { change r with (snd (q, r)). rewrite <- Hqr.
    change (snd (Z.div_eucl (n * 2 ^ (64 - d)) 1024))
      with ((n * 2 ^ (64 - d)) mod 1024).
    rewrite H64, Z.mul_assoc. apply Z.mod_mul. lia. }
  subst q r. change (new_location 1024 0) with loc_Exact.
  destruct (Z.ltb_spec n 0); [lia|]. change (1024 <? 0) with false.
  cbn [xorb].
  rewrite (round_exact false (n * 2 ^ (54 - d)) (d - 64)
             (Z.to_pos (n * 2 ^ (53 - d))) 1).
  - replace (d - 64 + 1) with (d - 63) by lia. reflexivity.
  - nia.
  - rewrite Zdigits2_shift by lia. fold d. lia.
  - rewrite Hm', H54. change (2 ^ 1) with 2. lia.
  - rewrite Hm', Zdigits2_shift by lia. fold d. lia.
  - lia.
Qed.

(** [float(n)] returns for every integer between [- 2 ^ 1023] and
    [2 ^ 1023]. *)
Lemma float_of_int_in_range (n : Z) :
  - 2 ^ 1023 < n < 2 ^ 1023 -> exists x, float_of_int n = OK x.
Proof.
  intros [Hlo Hhi].
  destruct n as [|p|p].
  - eexists. reflexivity.
  - apply float_of_int_returns. split; [apply Pos2Z.is_nonneg|exact Hhi].
  - assert (Hp : Zpos p < 2 ^ 1023).
    { apply Z.opp_lt_mono. exact Hlo. }
    unfold float_of_int, binary_normalize, binary_round.
    pose proof (shl_align_value p (fexp prec emax (Zpos (digits2_pos p) + 0)))
      as Hal.
    destruct (shl_align p 0 _) as [mz ez]. destruct Hal as [Hez Hmz].
    pose proof (round_below_pow2 true (Zpos mz) ez 1023) as Hr.
    destruct (binary_round_aux prec emax true (Zpos mz) ez loc_Exact)
      as [s|s| |s m e]; try (eexists; reflexivity).
    exfalso.
    assert (0 < 2 ^ (- ez)) by (apply Z.pow_pos_nonneg; lia).
    assert (971 < Z.max ez (Z.max (1023 - 52) (-1074))); [|lia].
    apply Hr; try lia.
    rewrite Hmz.
    replace (1023 - ez) with (1023 + - ez) by lia.
    rewrite Z.pow_add_r by lia.
    apply Z.mul_le_mono_nonneg_r; [lia|].
    apply Z.lt_le_incl. exact Hp.
Qed.

(** * The claims *)

Lemma ratio_default_in_unit_interval : in_unit_interval ratio_default.
Proof. repeat split. Qed.

Lemma sample_size_default (a : ZipSizer.args) :
  ZipSizer.sampling_ratio a = ratio_default ->
  ZipSizer.sample_size_of a = OK MiB.
Proof.
  intros H. unfold ZipSizer.sample_size_of. rewrite H. vm_compute. reflexivity.
Qed.

Lemma bytes_of_le (ss : Z) (log : list window) :
  Forall (fun e => len (w_data e) <= ss) log ->
  bytes_of log <= ss * Z.of_nat (List.length log).
Proof.
  induction 1 as [|e log He _ IH].
  - rewrite bytes_of_nil. simpl. lia.
  - rewrite bytes_of_cons. cbn [List.length]. lia.
Qed.

Lemma read_in_length (w : world) (inv : inventory) (ss : Z) (e : window) :
  0 <= ss -> read_in w inv ss e -> len (w_data e) <= ss.
Proof.
  intros Hss (path & size & f & _ & _ & _ & Hread).
  rewrite (seek_read_length _ _ _ _ Hss Hread). lia.
Qed.

(** C6: for every inventory the sample buffer is the concatenation of the
    windows read, each window gives at most [sample_size] bytes, and the
    buffer is at most [sample_size] times the number of sampling points
    long. *)
Theorem sample_length_bounded (w : world) (a : ZipSizer.args)
    (inv : inventory) :
  in_unit_interval (ZipSizer.sampling_ratio a) ->
  exists ss plan st,
    ZipSizer.sample_size_of a = OK ss /\
    range (ZipSizer.CHUNKSIZE - ss) (total_size inv) ZipSizer.CHUNKSIZE
    = OK plan /\
    outcome (ZipSizer.sample_data_state w a inv) = OK st /\
    outcome (ZipSizer.sample_data w a inv) = OK (sampled_data st) /\
    sampled_data st = List.concat (map w_data (reads st)) /\
    Forall (fun e => len (w_data e) <= ss) (reads st) /\
    len (sampled_data st) <= ss * Z.of_nat (List.length plan).
Proof.
  intros Hr.
  destruct (sampler_returns w a inv Hr)
    as (ss & plan & st & Hss & Hb & Hplan & _ & _ & Hst & Hinv).
  destruct Hinv as (_ & Hdata & Hreads & Hpl & _).
  assert (Hwin : Forall (fun e => len (w_data e) <= ss) (reads st)).
  { eapply Forall_impl; [|exact Hreads]. simpl. intros e [_ He].
    eapply read_in_length; [|exact He]. lia. }
  exists ss, plan, st. repeat split; auto.
  - apply sample_data_outcome. exact Hst.
  - rewrite Hdata, bytes_of_concat.
    eapply Z.le_trans; [apply bytes_of_le; exact Hwin|].
    rewrite Hpl, length_app, length_map. nia.
Qed.

Lemma sample_length_bounded_witness :
  exists ss plan st,
    ZipSizer.sample_size_of default_args = OK ss /\
    range (ZipSizer.CHUNKSIZE - ss)
      (total_size (three_files "f1" "f2" "f3")) ZipSizer.CHUNKSIZE = OK plan /\
    outcome (ZipSizer.sample_data_state zeros_world default_args
               (three_files "f1" "f2" "f3")) = OK st /\
    outcome (ZipSizer.sample_data zeros_world default_args
               (three_files "f1" "f2" "f3"))
    = OK (sampled_data st) /\
    sampled_data st = List.concat (map w_data (reads st)) /\
    Forall (fun e => len (w_data e) <= ss) (reads st) /\
    len (sampled_data st) <= ss * Z.of_nat (List.length plan).
Proof.
  apply (sample_length_bounded zeros_world default_args
           (three_files "f1" "f2" "f3")).
  exact ratio_default_in_unit_interval.
Defined.

(** C7: for every inventory and every file in it, the bytes read from
    the file over all its windows are at most the bytes the file holds,
    which is its listed size when the listing is still accurate. *)
Theorem bytes_read_per_file_bounded (w : world) (a : ZipSizer.args)
    (inv : inventory) (i : nat) (filepath : string) (filesize : Z) :
  in_unit_interval (ZipSizer.sampling_ratio a) ->
  nth_error inv i = Some (filepath, filesize) ->
  exists st,
    outcome (ZipSizer.sample_data_state w a inv) = OK st /\
    bytes_read_from i (reads st) <= len (content_of (files w filepath)) /\
    (len (content_of (files w filepath)) = filesize ->
     bytes_read_from i (reads st) <= filesize).
Proof.
  intros Hr Hnth.
  destruct (sampler_returns w a inv Hr)
    as (ss & plan & st & _ & _ & _ & _ & _ & Hst & Hinv).
  destruct Hinv as (_ & _ & _ & _ & Hvol).
  exists st. split; [exact Hst|].
  pose proof (Hvol i filepath filesize Hnth) as H.
  split; [exact H|]. intros Hsize. rewrite <- Hsize. exact H.
Qed.

Lemma bytes_read_per_file_bounded_witness :
  exists st,
    outcome (ZipSizer.sample_data_state zeros_world default_args
               (three_files "f1" "f2" "f3")) = OK st /\
    bytes_read_from 2 (reads st)
    <= len (content_of (files zeros_world "f3"%string)) /\
    (len (content_of (files zeros_world "f3"%string)) = 4 * MiB ->
     bytes_read_from 2 (reads st) <= 4 * MiB).
Proof.
  apply (bytes_read_per_file_bounded zeros_world default_args
           (three_files "f1" "f2" "f3") 2 "f3"%string (4 * MiB)).
  - exact ratio_default_in_unit_interval.
  - reflexivity.
Defined.

Lemma sorted_NoDup (l : list Z) : StronglySorted Z.lt l -> NoDup l.
Proof.
  induction 1 as [|x l _ IH Hx]; constructor; [|exact IH].
  intros Hin. rewrite Forall_forall in Hx. specialize (Hx x Hin). lia.
Qed.

(** The three files of 4 MiB: one point at 9 MiB, read in the third
    file at 1 MiB. *)
Lemma three_files_example (w : world) (a : ZipSizer.args) (p1 p2 p3 : string)
    (content : bytes) :
  ZipSizer.sampling_ratio a = ratio_default ->
  files w p3 = Regular content ->
  len content = 4 * MiB ->
  ZipSizer.sample_size_of a = OK MiB /\
  range (ZipSizer.CHUNKSIZE - MiB) (total_size (three_files p1 p2 p3))
    ZipSizer.CHUNKSIZE = OK [9 * MiB] /\
  outcome (ZipSizer.sample_data_state w a (three_files p1 p2 p3))
  = OK {| sampled_data := slice content MiB MiB;
          sampling_points := [];
          current_offset := 12 * MiB;
          reads := [{| w_file := 2; w_point := 9 * MiB;
                       w_offset := 8 * MiB;
                       w_data := slice content MiB MiB |}] |} /\
  len (slice content MiB MiB) = MiB.
Proof.
  intros Hratio Hfile Hlen.
  pose proof (sample_size_default a Hratio) as Hss.
  assert (Hplan : range (ZipSizer.CHUNKSIZE - MiB)
                    (total_size (three_files p1 p2 p3)) ZipSizer.CHUNKSIZE
                  = OK [9 * MiB]) by (vm_compute; reflexivity).
  split; [exact Hss|]. split; [exact Hplan|]. split.
  - rewrite (sample_data_state_walk w a _ MiB [9 * MiB] Hss Hplan).
    unfold outcome, run, three_files.
    rewrite walk_skip by reflexivity.
    rewrite walk_skip by reflexivity.
    rewrite (walk_read w MiB 2 p3 (4 * MiB) [] _ []
               {| h_content := content; h_bad := None |}
               [] ([] ++ slice content MiB MiB)
               ([] ++ [{| w_file := 2; w_point := 9 * MiB;
                          w_offset := 8 * MiB;
                          w_data := slice content MiB MiB |}])).
    + reflexivity.
    + reflexivity.
    + rewrite Hfile. reflexivity.
    + cbn [sampled_data sampling_points current_offset reads].
      change (0 + 4 * MiB + 4 * MiB) with (8 * MiB).
      apply read_windows_one; [reflexivity|].
      change (9 * MiB - 8 * MiB) with MiB.
      apply seek_read_regular; [reflexivity|discriminate|discriminate].
  - rewrite slice_length by (unfold MiB; lia). rewrite Hlen. unfold MiB. lia.
Qed.

(** C3: for every inventory the sampling points the sampler consumes
    are strictly increasing, hence each is consumed once, by the file
    whose range from [current_offset] to [current_offset + filesize]
    contains it; when no file fails, every point of the plan is
    consumed and [current_offset] is the virtual offset of the file; and
    on three files of 4 MiB the one point, 9 MiB, is read in the third
    file at 1 MiB and gives 1 MiB. *)
Theorem sampling_points_consumed_once :
  (forall (w : world) (a : ZipSizer.args) (inv : inventory),
      in_unit_interval (ZipSizer.sampling_ratio a) ->
      exists ss plan st,
        ZipSizer.sample_size_of a = OK ss /\
        range (ZipSizer.CHUNKSIZE - ss) (total_size inv) ZipSizer.CHUNKSIZE
        = OK plan /\
        outcome (ZipSizer.sample_data_state w a inv) = OK st /\
        StronglySorted Z.lt plan /\
        plan = map w_point (reads st) ++ sampling_points st /\
        StronglySorted Z.lt (map w_point (reads st)) /\
        NoDup (map w_point (reads st)) /\
        Forall (fun e =>
                  exists filepath filesize,
                    nth_error inv (w_file e) = Some (filepath, filesize) /\
                    w_offset e <= w_point e < w_offset e + filesize)
               (reads st) /\
        (error_free w inv ->
         plan = map w_point (reads st) /\
         Forall (fun e => w_offset e = virtual_offset inv (w_file e))
                (reads st))) /\
  (forall (w : world) (a : ZipSizer.args) (p1 p2 p3 : string)
          (content : bytes),
      ZipSizer.sampling_ratio a = ratio_default ->
      files w p3 = Regular content ->
      len content = 4 * MiB ->
      ZipSizer.sample_size_of a = OK MiB /\
      range (ZipSizer.CHUNKSIZE - MiB) (total_size (three_files p1 p2 p3))
        ZipSizer.CHUNKSIZE = OK [9 * MiB] /\
      outcome (ZipSizer.sample_data_state w a (three_files p1 p2 p3))
      = OK {| sampled_data := slice content MiB MiB;
              sampling_points := [];
              current_offset := 12 * MiB;
              reads := [{| w_file := 2; w_point := 9 * MiB;
                           w_offset := 8 * MiB;
                           w_data := slice content MiB MiB |}] |} /\
      len (slice content MiB MiB) = MiB).
Proof.
  split; [|apply three_files_example].
  intros w a inv Hr.
  destruct (sampler_returns w a inv Hr)
    as (ss & plan & st & Hss & Hb & Hplan & Hsp & Hup & Hst & Hinv).
  assert (Hstep : 0 < ZipSizer.CHUNKSIZE) by reflexivity.
  pose proof (spaced_increasing _ _ Hstep Hsp) as Hsorted.
  pose proof Hinv as (_ & _ & Hreads & Hpl & _).
  assert (Hsorted' : StronglySorted Z.lt (map w_point (reads st))).
  { apply (spaced_increasing ZipSizer.CHUNKSIZE); [exact Hstep|].
    apply (spaced_app_l _ _ (sampling_points st)). rewrite <- Hpl. exact Hsp. }
  exists ss, plan, st. repeat split; auto.
  - apply sorted_NoDup. exact Hsorted'.
  - eapply Forall_impl; [|exact Hreads]. simpl.
    intros e (_ & path & size & f & Hnth & _ & Hrange & _).
    exists path, size. split; assumption.
  - (* every point of the plan is consumed *)
    pose proof (plan_eq ss (total_size inv)) as Hplan'.
    rewrite Hplan in Hplan'. apply OK_inj in Hplan'.
    destruct (walk_error_free w inv ss ZipSizer.CHUNKSIZE plan Hb Hsp
                inv [] 0%nat
                {| sampled_data := []; sampling_points := plan;
                   current_offset := 0; reads := [] |} []
                eq_refl eq_refl H) as (st' & Hwalk & _ & Hinv' & Hoff & _).
    + rewrite Hplan'. apply walk_inv_init. exact Hb.
    + reflexivity.
    + constructor.
    + rewrite (sample_data_state_walk w a inv ss plan Hss Hplan) in Hst.
      unfold outcome, run in Hst. rewrite Hwalk in Hst.
      apply OK_inj in Hst. subst st.
      destruct Hinv' as (Hge & _ & _ & Hpl' & _).
      destruct (sampling_points st') as [|p rest] eqn:Hp.
      * rewrite app_nil_r in Hpl'. exact Hpl'.
      * exfalso. apply Forall_inv in Hge.
        rewrite Forall_forall in Hup.
        assert (p < total_size inv).
        { apply Hup. rewrite Hpl'. apply in_or_app. right. left. reflexivity. }
        lia.
  - pose proof (plan_eq ss (total_size inv)) as Hplan'.
    rewrite Hplan in Hplan'. apply OK_inj in Hplan'.
    destruct (walk_error_free w inv ss ZipSizer.CHUNKSIZE plan Hb Hsp
                inv [] 0%nat
                {| sampled_data := []; sampling_points := plan;
                   current_offset := 0; reads := [] |} []
                eq_refl eq_refl H) as (st' & Hwalk & _ & _ & _ & Hvirt).
    + rewrite Hplan'. apply walk_inv_init. exact Hb.
    + reflexivity.
    + constructor.
    + rewrite (sample_data_state_walk w a inv ss plan Hss Hplan) in Hst.
      unfold outcome, run in Hst. rewrite Hwalk in Hst.
      apply OK_inj in Hst. subst st. exact Hvirt.
Qed.
Lemma len_zeros (n : Z) : 0 <= n -> len (zeros n) = n.
Proof.
  intros Hn. unfold len, zeros. rewrite repeat_length. lia.
Qed.

Lemma sampling_points_consumed_once_witness :
  (exists ss plan st,
      ZipSizer.sample_size_of default_args = OK ss /\
      range (ZipSizer.CHUNKSIZE - ss) (total_size small_inventory)
        ZipSizer.CHUNKSIZE = OK plan /\
      outcome (ZipSizer.sample_data_state small_world default_args
                 small_inventory) = OK st /\
      StronglySorted Z.lt plan /\
      plan = map w_point (reads st) ++ sampling_points st /\
      StronglySorted Z.lt (map w_point (reads st)) /\
      NoDup (map w_point (reads st)) /\
      Forall (fun e =>
                exists filepath filesize,
                  nth_error small_inventory (w_file e)
                  = Some (filepath, filesize) /\
                  w_offset e <= w_point e < w_offset e + filesize)
             (reads st) /\
      (error_free small_world small_inventory ->
       plan = map w_point (reads st) /\
       Forall (fun e => w_offset e = virtual_offset small_inventory (w_file e))
              (reads st))) /\
  (ZipSizer.sample_size_of default_args = OK MiB /\
   range (ZipSizer.CHUNKSIZE - MiB)
     (total_size (three_files "f1"%string "f2"%string "f3"%string))
     ZipSizer.CHUNKSIZE = OK [9 * MiB] /\
   outcome (ZipSizer.sample_data_state zeros_world default_args
              (three_files "f1"%string "f2"%string "f3"%string))
   = OK {| sampled_data := slice (zeros (4 * MiB)) MiB MiB;
           sampling_points := [];
           current_offset := 12 * MiB;
           reads := [{| w_file := 2; w_point := 9 * MiB;
                        w_offset := 8 * MiB;
                        w_data := slice (zeros (4 * MiB)) MiB MiB |}] |} /\
   len (slice (zeros (4 * MiB)) MiB MiB) = MiB).
Proof.
  split.
  - apply (proj1 sampling_points_consumed_once small_world default_args
             small_inventory).
    exact ratio_default_in_unit_interval.
  - apply (proj2 sampling_points_consumed_once zeros_world default_args
             "f1"%string "f2"%string "f3"%string (zeros (4 * MiB))).
    + reflexivity.
    + reflexivity.
    + apply len_zeros. unfold MiB. lia.
Defined.

(** C1 (the code fails it): for every inventory of total size 0 the
    plan and the sample are empty and the estimate is the integer 0,
    but the report then divides the size by that estimate and the run
    ends with [ZeroDivisionError] after printing the estimate. *)
Theorem zero_total_size_raises (w : world) (a : ZipSizer.args)
    (inv : inventory) :
  in_unit_interval (ZipSizer.sampling_ratio a) ->
  total_size inv = 0 ->
  exists ss,
    ZipSizer.sample_size_of a = OK ss /\
    range (ZipSizer.CHUNKSIZE - ss) (total_size inv) ZipSizer.CHUNKSIZE
    = OK [] /\
    outcome (ZipSizer.sample_data w a inv) = OK [] /\
    ZipSizer.estimate (compressed_length w a []) (len []) (total_size inv)
    = OK (Int 0) /\
    truediv (total_size inv) (Int 0) = Raise ZeroDivisionError /\
    outcome (ZipSizer.report w a inv) = Raise ZeroDivisionError /\
    printed (ZipSizer.report w a inv)
    = printed (ZipSizer.sample_data w a inv) ++ compress_lines w a []
      ++ [Rule; OriginalSize 0; EstimatedSize (Int 0)] /\
    (forall directory,
        outcome (ZipSizer.list_files_with_sizes w directory) = OK inv ->
        outcome (ZipSizer.main w a directory) = Raise ZeroDivisionError).
Proof.
  intros Hr Hzero.
  destruct (sample_size_bounds a Hr) as (ss & Hss & Hb).
  assert (Hplan : range (ZipSizer.CHUNKSIZE - ss) (total_size inv)
                    ZipSizer.CHUNKSIZE = OK []).
  { apply range_empty; [apply CHUNKSIZE_pos|lia]. }
  destruct (empty_plan_sample w a inv ss Hss Hplan) as (st & _ & _ & _ & Hdata).
  pose proof (report_run w a inv [] Hdata) as Hrun.
  rewrite Hzero in Hrun. rewrite report_tail_zero_size in Hrun.
  cbn [fst snd] in Hrun.
  assert (Hout : outcome (ZipSizer.report w a inv) = Raise ZeroDivisionError).
  { unfold outcome. rewrite Hrun. reflexivity. }
  exists ss. rewrite Hzero in *.
  split; [exact Hss|]. split; [exact Hplan|]. split; [exact Hdata|].
  split; [reflexivity|]. split; [reflexivity|]. split; [exact Hout|]. split.
  - unfold printed at 1. rewrite Hrun. reflexivity.
  - intros directory Hdir.
    destruct (main_run w a directory inv Hdir) as [Hm _].
    rewrite Hm. exact Hout.
Qed.

Lemma zero_total_size_raises_witness :
  exists ss,
    ZipSizer.sample_size_of default_args = OK ss /\
    range (ZipSizer.CHUNKSIZE - ss) (total_size []) ZipSizer.CHUNKSIZE
    = OK [] /\
    outcome (ZipSizer.sample_data small_world default_args []) = OK [] /\
    ZipSizer.estimate (compressed_length small_world default_args [])
      (len []) (total_size []) = OK (Int 0) /\
    truediv (total_size []) (Int 0) = Raise ZeroDivisionError /\
    outcome (ZipSizer.report small_world default_args [])
    = Raise ZeroDivisionError /\
    printed (ZipSizer.report small_world default_args [])
    = printed (ZipSizer.sample_data small_world default_args [])
      ++ compress_lines small_world default_args []
      ++ [Rule; OriginalSize 0; EstimatedSize (Int 0)] /\
    (forall directory,
        outcome (ZipSizer.list_files_with_sizes small_world directory)
        = OK [] ->
        outcome (ZipSizer.main small_world default_args directory)
        = Raise ZeroDivisionError).
Proof.
  apply (zero_total_size_raises small_world default_args []).
  - exact ratio_default_in_unit_interval.
  - reflexivity.
Defined.

(** C9: for every inventory with a total size above 0 and at most
    [CHUNKSIZE - sample_size], the plan and the sample are empty while
    the original size is positive, and the division by the length of
    the sample ends the run with [ZeroDivisionError] before any report
    line.  The compressed length is assumed to be an integer that
    [float] converts, as every length of a [bytes] object is. *)
Theorem small_directory_raises (w : world) (a : ZipSizer.args)
    (inv : inventory) (ss : Z) :
  in_unit_interval (ZipSizer.sampling_ratio a) ->
  compressed_length w a [] < 2 ^ 1023 ->
  ZipSizer.sample_size_of a = OK ss ->
  0 < total_size inv <= ZipSizer.CHUNKSIZE - ss ->
  range (ZipSizer.CHUNKSIZE - ss) (total_size inv) ZipSizer.CHUNKSIZE = OK [] /\
  outcome (ZipSizer.sample_data w a inv) = OK [] /\
  ZipSizer.estimate (compressed_length w a []) (len []) (total_size inv)
  = Raise ZeroDivisionError /\
  outcome (ZipSizer.report w a inv) = Raise ZeroDivisionError /\
  printed (ZipSizer.report w a inv)
  = printed (ZipSizer.sample_data w a inv) ++ compress_lines w a [] /\
  (forall directory,
      outcome (ZipSizer.list_files_with_sizes w directory) = OK inv ->
      outcome (ZipSizer.main w a directory) = Raise ZeroDivisionError).
Proof.
  intros Hr Hw Hss Htotal.
  assert (Hplan : range (ZipSizer.CHUNKSIZE - ss) (total_size inv)
                    ZipSizer.CHUNKSIZE = OK []).
  { apply range_empty; [apply CHUNKSIZE_pos|lia]. }
  destruct (empty_plan_sample w a inv ss Hss Hplan) as (st & _ & _ & _ & Hdata).
  pose proof (report_run w a inv [] Hdata) as Hrun.
  assert (Hc' : 0 <= compressed_length w a [] < 2 ^ 1023).
  { split; [apply compressed_length_nonneg|exact Hw]. }
  pose proof (report_tail_empty_sample _ _ Hc' (proj1 Htotal)) as Htail.
  change (len []) with 0 in Hrun. rewrite Htail in Hrun. cbn [fst snd] in Hrun.
  assert (Hout : outcome (ZipSizer.report w a inv) = Raise ZeroDivisionError).
  { unfold outcome. rewrite Hrun. reflexivity. }
  split; [exact Hplan|]. split; [exact Hdata|]. split.
  { unfold report_tail in Htail. change (len []) with 0.
    destruct (ZipSizer.estimate _ 0 _) as [est|e].
    - destruct (truediv (total_size inv) est); discriminate.
    - inversion Htail. reflexivity. }
  split; [exact Hout|]. split.
  - unfold printed at 1. rewrite Hrun. rewrite app_nil_r. reflexivity.
  - intros directory Hdir.
    destruct (main_run w a directory inv Hdir) as [Hm _].
    rewrite Hm. exact Hout.
Qed.

Lemma small_directory_raises_witness :
  range (ZipSizer.CHUNKSIZE - MiB) (total_size small_inventory)
    ZipSizer.CHUNKSIZE = OK [] /\
  outcome (ZipSizer.sample_data small_world default_args small_inventory)
  = OK [] /\
  ZipSizer.estimate (compressed_length small_world default_args [])
    (len []) (total_size small_inventory) = Raise ZeroDivisionError /\
  outcome (ZipSizer.report small_world default_args small_inventory)
  = Raise ZeroDivisionError /\
  printed (ZipSizer.report small_world default_args small_inventory)
  = printed (ZipSizer.sample_data small_world default_args small_inventory)
    ++ compress_lines small_world default_args [] /\
  (forall directory,
      outcome (ZipSizer.list_files_with_sizes small_world directory)
      = OK small_inventory ->
      outcome (ZipSizer.main small_world default_args directory)
      = Raise ZeroDivisionError).
Proof.
  apply (small_directory_raises small_world default_args small_inventory MiB).
  - exact ratio_default_in_unit_interval.
  - reflexivity.
  - apply sample_size_default. reflexivity.
  - split; [reflexivity|discriminate].
Defined.

(** C10: on every inventory whose files all read without error, the
    sampler of [estimate-compression.py] with its default chunk and
    sample sizes returns the buffer that the sampler of [zip-sizer.py]
    returns for the sampling ratio 0.1. *)
Theorem samplers_agree (w : world) (a : ZipSizer.args) (inv : inventory) :
  ZipSizer.sampling_ratio a = ratio_default ->
  error_free w inv ->
  exists data,
    EstimateCompression.sample_data w inv
      EstimateCompression.default_chunk_size
      EstimateCompression.default_sample_size = OK data /\
    outcome (ZipSizer.sample_data w a inv) = OK data.
Proof.
  intros Hratio Hfree.
  pose proof (sample_size_default a Hratio) as Hss.
  pose proof (plan_eq MiB (total_size inv)) as Hplan.
  set (n := Z.to_nat _) in Hplan.
  set (plan := range_from (ZipSizer.CHUNKSIZE - MiB) ZipSizer.CHUNKSIZE n) in *.
  assert (Hb : 0 <= MiB <= ZipSizer.CHUNKSIZE) by (split; discriminate).
  assert (Hsp : spaced ZipSizer.CHUNKSIZE plan).
  { apply spaced_range_from. discriminate. }
  destruct (walk_error_free w inv MiB ZipSizer.CHUNKSIZE plan Hb Hsp
              inv [] 0%nat
              {| sampled_data := []; sampling_points := plan;
                 current_offset := 0; reads := [] |} []
              eq_refl eq_refl Hfree (walk_inv_init w inv MiB n Hb)
              eq_refl (Forall_nil _))
    as (st & Hzip & Hest & _).
  exists (sampled_data st). split.
  - unfold EstimateCompression.sample_data.
    change EstimateCompression.default_chunk_size with ZipSizer.CHUNKSIZE.
    change EstimateCompression.default_sample_size with MiB.
    rewrite Hplan, Hest. reflexivity.
  - apply sample_data_outcome.
    rewrite (sample_data_state_walk w a inv MiB plan Hss Hplan).
    unfold outcome, run. rewrite Hzip. reflexivity.
Qed.

Lemma zeros_world_error_free :
  error_free zeros_world (three_files "f1" "f2" "f3").
Proof.
  repeat constructor; exists (zeros (4 * MiB)); reflexivity.
Qed.

Lemma samplers_agree_witness :
  exists data,
    EstimateCompression.sample_data zeros_world (three_files "f1" "f2" "f3")
      EstimateCompression.default_chunk_size
      EstimateCompression.default_sample_size = OK data /\
    outcome (ZipSizer.sample_data zeros_world default_args
               (three_files "f1" "f2" "f3"))
    = OK data.
Proof.
  apply (samplers_agree zeros_world default_args (three_files "f1" "f2" "f3")).
  - reflexivity.
  - exact zeros_world_error_free.
Defined.

(** C2 (the code fails it): on two files of 12 MiB the plan is 9 MiB and
    19 MiB.  When the first file does not open, [current_offset] stays at
    0 for the second file instead of its virtual offset 12 MiB: the
    second file is then read for the point 9 MiB at 9 MiB, and the point
    19 MiB is never consumed.  When the first file reads, the second is
    read for the point 19 MiB at 7 MiB. *)
Theorem unreadable_file_keeps_offset (w : world) (a : ZipSizer.args)
    (pa pb : string) (cb : bytes) :
  ZipSizer.sampling_ratio a = ratio_default ->
  files w pb = Regular cb ->
  range (ZipSizer.CHUNKSIZE - MiB) (total_size (two_files pa pb))
    ZipSizer.CHUNKSIZE = OK [9 * MiB; 19 * MiB] /\
  virtual_offset (two_files pa pb) 1 = 12 * MiB /\
  (forall c,
      files w pa = Unopenable c ->
      outcome (ZipSizer.sample_data_state w a (two_files pa pb))
      = OK {| sampled_data := slice cb (9 * MiB) MiB;
              sampling_points := [19 * MiB];
              current_offset := 12 * MiB;
              reads := [{| w_file := 1; w_point := 9 * MiB;
                           w_offset := 0;
                           w_data := slice cb (9 * MiB) MiB |}] |}) /\
  (forall ca,
      files w pa = Regular ca ->
      outcome (ZipSizer.sample_data_state w a (two_files pa pb))
      = OK {| sampled_data := slice ca (9 * MiB) MiB ++ slice cb (7 * MiB) MiB;
              sampling_points := [];
              current_offset := 24 * MiB;
              reads := [{| w_file := 0; w_point := 9 * MiB;
                           w_offset := 0;
                           w_data := slice ca (9 * MiB) MiB |};
                        {| w_file := 1; w_point := 19 * MiB;
                           w_offset := 12 * MiB;
                           w_data := slice cb (7 * MiB) MiB |}] |}).
Proof.
  intros Hratio Hb.
  pose proof (sample_size_default a Hratio) as Hss.
  assert (Hplan : range (ZipSizer.CHUNKSIZE - MiB)
                    (total_size (two_files pa pb)) ZipSizer.CHUNKSIZE
                  = OK [9 * MiB; 19 * MiB]) by (vm_compute; reflexivity).
  split; [exact Hplan|]. split; [vm_compute; reflexivity|]. split.
  - intros c Ha.
    rewrite (sample_data_state_walk w a _ MiB _ Hss Hplan).
    unfold outcome, run, two_files.
    rewrite (walk_unopenable w MiB 0 pa (12 * MiB) _ _ _ c) by
      (reflexivity || exact Ha).
    rewrite (walk_read w MiB 1 pb (12 * MiB) [] _ _
               {| h_content := cb; h_bad := None |}
               [19 * MiB] ([] ++ slice cb (9 * MiB) MiB)
               ([] ++ [{| w_file := 1; w_point := 9 * MiB; w_offset := 0;
                          w_data := slice cb (9 * MiB) MiB |}])).
    + reflexivity.
    + reflexivity.
    + rewrite Hb. reflexivity.
    + cbn [sampled_data sampling_points current_offset reads].
      rewrite (read_windows_step _ _ _ _ _ _ _ _ (slice cb (9 * MiB) MiB));
        [|reflexivity|].
      * apply read_windows_stop. reflexivity.
      * change (9 * MiB - 0) with (9 * MiB).
        apply seek_read_regular; [reflexivity|discriminate|discriminate].
  - intros ca Ha.
    rewrite (sample_data_state_walk w a _ MiB _ Hss Hplan).
    unfold outcome, run, two_files.
    rewrite (walk_read w MiB 0 pa (12 * MiB) _ _ _
               {| h_content := ca; h_bad := None |}
               [19 * MiB] ([] ++ slice ca (9 * MiB) MiB)
               ([] ++ [{| w_file := 0; w_point := 9 * MiB; w_offset := 0;
                          w_data := slice ca (9 * MiB) MiB |}])).
    + rewrite (walk_read w MiB 1 pb (12 * MiB) [] _ _
                 {| h_content := cb; h_bad := None |}
                 [] (([] ++ slice ca (9 * MiB) MiB) ++ slice cb (7 * MiB) MiB)
                 (([] ++ [{| w_file := 0; w_point := 9 * MiB; w_offset := 0;
                             w_data := slice ca (9 * MiB) MiB |}])
                  ++ [{| w_file := 1; w_point := 19 * MiB;
                         w_offset := 12 * MiB;
                         w_data := slice cb (7 * MiB) MiB |}])).
      * reflexivity.
      * reflexivity.
      * rewrite Hb. reflexivity.
      * cbn [sampled_data sampling_points current_offset reads].
        change (0 + 12 * MiB) with (12 * MiB).
        apply read_windows_one; [reflexivity|].
        change (19 * MiB - 12 * MiB) with (7 * MiB).
        apply seek_read_regular; [reflexivity|discriminate|discriminate].
    + reflexivity.
    + rewrite Ha. reflexivity.
    + cbn [sampled_data sampling_points current_offset reads].
      rewrite (read_windows_step _ _ _ _ _ _ _ _ (slice ca (9 * MiB) MiB));
        [|reflexivity|].
      * apply read_windows_stop. reflexivity.
      * change (9 * MiB - 0) with (9 * MiB).
        apply seek_read_regular; [reflexivity|discriminate|discriminate].
Qed.

Lemma unreadable_file_keeps_offset_witness :
  virtual_offset (two_files "a" "b") 1 = 12 * MiB /\
  outcome (ZipSizer.sample_data_state locked_world default_args
             (two_files "a" "b"))
  = OK {| sampled_data := slice (zeros (12 * MiB)) (9 * MiB) MiB;
          sampling_points := [19 * MiB];
          current_offset := 12 * MiB;
          reads := [{| w_file := 1; w_point := 9 * MiB; w_offset := 0;
                       w_data := slice (zeros (12 * MiB)) (9 * MiB) MiB |}] |}.
Proof.
  pose proof (unreadable_file_keeps_offset locked_world default_args
                "a" "b" (zeros (12 * MiB)) eq_refl eq_refl) as H.
  split.
  - exact (proj1 (proj2 H)).
  - exact (proj1 (proj2 (proj2 H)) EACCES eq_refl).
Defined.

(** C8: two runs whose arguments differ only in [--verbose] return the
    same sample buffer and the same compressed length and end the same
    way; the quiet run prints exactly what the verbose run prints less
    the diagnostics, so the estimate and the ratio it reports are the
    same lines. *)
Theorem verbose_changes_only_diagnostics (w : world) (a : ZipSizer.args)
    (directory : string) :
  with_verbose (ZipSizer.verbose a) a = a /\
  (forall inv,
      outcome (ZipSizer.sample_data w (with_verbose true a) inv)
      = outcome (ZipSizer.sample_data w (with_verbose false a) inv)) /\
  (forall data,
      outcome (ZipSizer.compress_sampled_data w (with_verbose true a) data)
      = outcome (ZipSizer.compress_sampled_data w (with_verbose false a) data)) /\
  outcome (ZipSizer.main w (with_verbose true a) directory)
  = outcome (ZipSizer.main w (with_verbose false a) directory) /\
  quiet (printed (ZipSizer.main w (with_verbose true a) directory))
  = printed (ZipSizer.main w (with_verbose false a) directory) /\
  (forall l,
      diagnostic l = false ->
      In l (printed (ZipSizer.main w (with_verbose true a) directory)) <->
      In l (printed (ZipSizer.main w (with_verbose false a) directory))).
Proof.
  destruct (same_results_main w a directory) as [Ho Hp].
  split; [destruct a; reflexivity|].
  split; [intros inv; apply same_results_sample_data|].
  split; [intros data; apply same_results_compress|].
  split; [exact Ho|]. split; [exact Hp|].
  intros l Hl. rewrite <- Hp. unfold quiet. rewrite filter_In, Hl.
  cbn [negb]. tauto.
Qed.

(** C5 (what the code does not do): the ratios 0.33 and 2^-24 pass the
    validation, and the sample size the code computes for them is one
    less than the product rounded to the nearest integer. *)
Lemma sample_size_not_rounded :
  (in_unit_interval ratio_third /\
   ZipSizer.ratio_rejected ratio_third = false /\
   ZipSizer.sample_size_of (args_with_ratio ratio_third) = OK 3460300 /\
   sample_size_rounded (args_with_ratio ratio_third) = OK 3460301) /\
  (in_unit_interval ratio_tiny /\
   ZipSizer.ratio_rejected ratio_tiny = false /\
   ZipSizer.sample_size_of (args_with_ratio ratio_tiny) = OK 0 /\
   sample_size_rounded (args_with_ratio ratio_tiny) = OK 1).
Proof.
  split; (split; [repeat split|]); repeat split; vm_compute; reflexivity.
Qed.

(** C5 (amended): for every sampling ratio in (0, 1] the sampler uses
    [sample_size = int(sampling_ratio * CHUNKSIZE)], the double product
    truncated to its floor, with [CHUNKSIZE] fixed at 10 MiB: it lies
    between 0 and the chunk size, and it is the product rounded to the
    nearest integer or one less. *)
Theorem sample_size_truncates (a : ZipSizer.args) :
  in_unit_interval (ZipSizer.sampling_ratio a) ->
  ZipSizer.CHUNKSIZE = 10 * MiB /\
  exists x ss r,
    fmul_int (ZipSizer.sampling_ratio a) ZipSizer.CHUNKSIZE = OK x /\
    ZipSizer.sample_size_of a = OK ss /\
    floor_is ss x /\
    0 <= ss <= ZipSizer.CHUNKSIZE /\
    sample_size_rounded a = OK r /\
    r - 1 <= ss <= r.
Proof.
  intros Hin. split; [reflexivity|].
  destruct (sample_size_bounds a Hin) as (ss & Hss & Hb).
  destruct Hin as (_ & Hpos & _).
  destruct (product_not_negative _ Hpos) as (x & Hx & Hsign).
  pose proof Hss as Hint.
  unfold ZipSizer.sample_size_of in Hint. unfold sample_size_rounded.
  rewrite Hx in Hint. rewrite Hx.
  assert (Hx' : match x with
                | S754_zero _ | S754_finite false _ _ => True
                | _ => False
                end).
  { destruct x as [s|s| |s m e]; try discriminate; [exact I|].
    destruct s; [contradiction|exact I]. }
  destruct (round_nearest_above x ss Hx' Hint) as (r & Hr & Hrb).
  exists x, ss, r.
  split; [reflexivity|]. split; [exact Hss|].
  split; [apply int_of_float_floor; assumption|].
  split; [exact Hb|]. split; [exact Hr|lia].
Qed.

Lemma sample_size_truncates_witness :
  ZipSizer.CHUNKSIZE = 10 * MiB /\
  exists x ss r,
    fmul_int ratio_third ZipSizer.CHUNKSIZE = OK x /\
    ZipSizer.sample_size_of (args_with_ratio ratio_third) = OK ss /\
    floor_is ss x /\
    0 <= ss <= ZipSizer.CHUNKSIZE /\
    sample_size_rounded (args_with_ratio ratio_third) = OK r /\
    r - 1 <= ss <= r.
Proof.
  apply (sample_size_truncates (args_with_ratio ratio_third)).
  repeat split.
Defined.

(** C4: for every run with a positive original size and a sample that
    is not empty, the estimate printed is
    [(float(compressed_len) / sample_len) * original_size], it is not
    zero, the ratio printed is [original_size / estimate], and the run
    ends without an exception; with a sample of 1000 bytes compressed
    to 250 and an original size of 100000 the estimate is 25000.0 and
    the ratio 4.0.  The three sizes are assumed to be integers that
    [float] converts. *)
Theorem estimate_extrapolates (w : world) (a : ZipSizer.args)
    (inv : inventory) (data : bytes) :
  outcome (ZipSizer.sample_data w a inv) = OK data ->
  0 < total_size inv < 2 ^ 1023 ->
  0 < len data < 2 ^ 1023 ->
  0 < compressed_length w a data < 2 ^ 1023 ->
  (exists c s t,
      float_of_int (compressed_length w a data) = OK c /\
      float_of_int (len data) = OK s /\
      float_of_int (total_size inv) = OK t /\
      is_zero (fmul (fdiv c s) t) = false /\
      run (ZipSizer.report w a inv)
      = (printed (ZipSizer.sample_data w a inv) ++ compress_lines w a data
         ++ [Rule; OriginalSize (total_size inv);
             EstimatedSize (Float (fmul (fdiv c s) t));
             CompressionRatio (fdiv t (fmul (fdiv c s) t)); Rule],
         OK tt)) /\
  (float_of_int 25000 = OK f25000 /\
   float_of_int 4 = OK f4 /\
   ZipSizer.estimate 250 1000 100000 = OK (Float f25000) /\
   truediv 100000 (Float f25000) = OK f4).
Proof.
  intros Hdata Htotal Hlen Hc. split.
  - destruct (report_tail_extrapolates _ _ _ Hc Hlen Htotal)
      as (c & s & t & Hfc & Hfs & Hft & Hz & _ & _ & Htail).
    exists c, s, t.
    split; [exact Hfc|]. split; [exact Hfs|]. split; [exact Hft|].
    split; [exact Hz|].
    rewrite (report_run w a inv data Hdata), Htail. reflexivity.
  - repeat split; vm_compute; reflexivity.
Qed.

Lemma zeros_world_compressed_length (d : bytes) :
  compressed_length zeros_world default_args d = 2 + len d.
Proof.
  unfold compressed_length, len.
  cbn [zeros_world default_args ZipSizer.algorithm ZipSizer.level
       gzip_compress List.length].
  lia.
Qed.

Lemma sampled_data_of (data : bytes) (points : list Z) (offset : Z)
    (log : list window) :
  sampled_data {| sampled_data := data; sampling_points := points;
                  current_offset := offset; reads := log |} = data.
Proof. reflexivity. Qed.

(** The sample of the three files of zero bytes. *)
Lemma zeros_world_sample :
  outcome (ZipSizer.sample_data zeros_world default_args
             (three_files "f1" "f2" "f3"))
  = OK (slice (zeros (4 * MiB)) MiB MiB) /\
  len (slice (zeros (4 * MiB)) MiB MiB) = MiB.
Proof.
  destruct (three_files_example zeros_world default_args "f1" "f2" "f3"
              (zeros (4 * MiB)) eq_refl eq_refl
              (len_zeros (4 * MiB) ltac:(discriminate)))
    as (_ & _ & Hst & Hlen).
  split; [|exact Hlen].
  pose proof (proj1 (sample_data_outcome _ _ _ _ Hst)) as Hd.
  rewrite sampled_data_of in Hd. exact Hd.
Qed.

Lemma estimate_extrapolates_witness :
  (exists c s t,
      float_of_int (compressed_length zeros_world default_args
                      (slice (zeros (4 * MiB)) MiB MiB)) = OK c /\
      float_of_int (len (slice (zeros (4 * MiB)) MiB MiB)) = OK s /\
      float_of_int (total_size (three_files "f1" "f2" "f3")) = OK t /\
      is_zero (fmul (fdiv c s) t) = false /\
      run (ZipSizer.report zeros_world default_args (three_files "f1" "f2" "f3"))
      = (printed (ZipSizer.sample_data zeros_world default_args
                    (three_files "f1" "f2" "f3"))
         ++ compress_lines zeros_world default_args
              (slice (zeros (4 * MiB)) MiB MiB)
         ++ [Rule; OriginalSize (total_size (three_files "f1" "f2" "f3"));
             EstimatedSize (Float (fmul (fdiv c s) t));
             CompressionRatio (fdiv t (fmul (fdiv c s) t)); Rule],
         OK tt)) /\
  (float_of_int 25000 = OK f25000 /\
   float_of_int 4 = OK f4 /\
   ZipSizer.estimate 250 1000 100000 = OK (Float f25000) /\
   truediv 100000 (Float f25000) = OK f4).
Proof.
  destruct zeros_world_sample as [Hd Hlen].
  apply (estimate_extrapolates zeros_world default_args
           (three_files "f1" "f2" "f3") (slice (zeros (4 * MiB)) MiB MiB)).
  - exact Hd.
  - split; reflexivity.
  - rewrite Hlen. split; reflexivity.
  - rewrite zeros_world_compressed_length, Hlen. split; reflexivity.
Defined.

(** * Further properties of the two scripts *)

(** ** [sample_data] of [estimate-compression.py] against [zip-sizer.py] *)

(** Whenever the sampler of [estimate-compression.py] returns a buffer,
    the sampler of [zip-sizer.py] with the default ratio returns the
    same buffer and logs no warning: it prints its diagnostics only. *)
Theorem estimate_compression_refines (w : world) (a : ZipSizer.args)
    (inv : inventory) (data : bytes) :
  ZipSizer.sampling_ratio a = ratio_default ->
  EstimateCompression.sample_data w inv
    EstimateCompression.default_chunk_size
    EstimateCompression.default_sample_size = OK data ->
  run (ZipSizer.sample_data w a inv) = (sampler_lines a inv MiB, OK data).
Proof.
  intros Hratio Hest.
  pose proof (sample_size_default a Hratio) as Hss.
  pose proof (plan_eq MiB (total_size inv)) as Hplan.
  set (plan := range_from _ _ _) in Hplan.
  unfold EstimateCompression.sample_data in Hest.
  change EstimateCompression.default_chunk_size with ZipSizer.CHUNKSIZE in Hest.
  change EstimateCompression.default_sample_size with MiB in Hest.
  rewrite Hplan in Hest. fold (initial plan) in Hest.
  destruct (EstimateCompression.walk w MiB 0 inv (initial plan))
    as [st|e] eqn:Hwalk; [|discriminate].
  apply OK_inj in Hest. subst data.
  pose proof (walk_lockstep w MiB inv 0%nat (initial plan) st [] Hwalk) as Hzip.
  rewrite (sample_data_run w a inv MiB plan st Hss Hplan).
  - unfold printed, run. rewrite Hzip. cbn [fst]. rewrite app_nil_r.
    reflexivity.
  - unfold outcome, run. rewrite Hzip. reflexivity.
Qed.

(** The sampler of [estimate-compression.py] on the three files of
    zero bytes: the window of 1 MiB read in the third file. *)
Lemma zeros_world_estimate_compression :
  EstimateCompression.sample_data zeros_world (three_files "f1" "f2" "f3")
    EstimateCompression.default_chunk_size
    EstimateCompression.default_sample_size
  = OK (slice (zeros (4 * MiB)) MiB MiB).
Proof.
  destruct zeros_world_sample as [Hzs _].
  pose proof (sample_size_default default_args eq_refl) as Hss.
  pose proof (plan_eq MiB (total_size (three_files "f1" "f2" "f3"))) as Hplan.
  set (n := Z.to_nat _) in Hplan.
  set (plan := range_from (ZipSizer.CHUNKSIZE - MiB) ZipSizer.CHUNKSIZE n) in *.
  assert (Hb : 0 <= MiB <= ZipSizer.CHUNKSIZE) by (split; discriminate).
  assert (Hsp : spaced ZipSizer.CHUNKSIZE plan).
  { apply spaced_range_from. discriminate. }
  destruct (walk_error_free zeros_world (three_files "f1" "f2" "f3") MiB
              ZipSizer.CHUNKSIZE plan Hb Hsp
              (three_files "f1" "f2" "f3") [] 0%nat (initial plan) []
              eq_refl eq_refl zeros_world_error_free
              (walk_inv_init zeros_world (three_files "f1" "f2" "f3") MiB n Hb)
              eq_refl (Forall_nil _))
    as (st & Hzip & Hest & _).
  assert (Hout : outcome (ZipSizer.sample_data zeros_world default_args
                            (three_files "f1" "f2" "f3"))
                 = OK (sampled_data st)).
  { apply sample_data_outcome.
    rewrite (sample_data_state_walk zeros_world default_args _ MiB plan
               Hss Hplan).
    unfold outcome, run. fold (initial plan). rewrite Hzip. reflexivity. }
  rewrite Hzs in Hout. apply OK_inj in Hout.
  unfold EstimateCompression.sample_data.
  change EstimateCompression.default_chunk_size with ZipSizer.CHUNKSIZE.
  change EstimateCompression.default_sample_size with MiB.
  rewrite Hplan. fold (initial plan). rewrite Hest, <- Hout. reflexivity.
Qed.

Lemma estimate_compression_refines_witness :
  run (ZipSizer.sample_data zeros_world default_args
         (three_files "f1" "f2" "f3"))
  = (sampler_lines default_args (three_files "f1" "f2" "f3") MiB,
     OK (slice (zeros (4 * MiB)) MiB MiB)).
Proof.
  apply (estimate_compression_refines zeros_world default_args
           (three_files "f1" "f2" "f3") (slice (zeros (4 * MiB)) MiB MiB)).
  - reflexivity.
  - exact zeros_world_estimate_compression.
Defined.

(** Whenever the sampler of [estimate-compression.py] raises, the
    exception is an [OSError] of a file of the inventory; the sampler of
    [zip-sizer.py] logs a warning for a file of the inventory and still
    returns. *)
Theorem estimate_compression_failure_is_logged (w : world)
    (a : ZipSizer.args) (inv : inventory) (e : exn) :
  ZipSizer.sampling_ratio a = ratio_default ->
  EstimateCompression.sample_data w inv
    EstimateCompression.default_chunk_size
    EstimateCompression.default_sample_size = Raise e ->
  exists c filepath data,
    e = OSError c /\
    In filepath (map fst inv) /\
    (exists logged,
        In (Warning filepath logged)
           (printed (ZipSizer.sample_data w a inv))) /\
    outcome (ZipSizer.sample_data w a inv) = OK data.
Proof.
  intros Hratio Hest.
  pose proof (sample_size_default a Hratio) as Hss.
  pose proof (plan_eq MiB (total_size inv)) as Hplan.
  set (n := Z.to_nat _) in Hplan.
  set (plan := range_from _ _ n) in Hplan.
  unfold EstimateCompression.sample_data in Hest.
  change EstimateCompression.default_chunk_size with ZipSizer.CHUNKSIZE in Hest.
  change EstimateCompression.default_sample_size with MiB in Hest.
  rewrite Hplan in Hest. fold (initial plan) in Hest.
  destruct (EstimateCompression.walk w MiB 0 inv (initial plan))
    as [st|e1] eqn:Hwalk; [discriminate|].
  inversion Hest; subst e1.
  destruct (walk_raises_OSError w MiB ltac:(discriminate) _ _ _ _ Hwalk)
    as (c & ->).
  pose proof (walk_first_failure w MiB inv 0%nat (initial plan) _ [] Hwalk)
    as Hfail.
  cbn [ZipSizer.caught] in Hfail. destruct Hfail as (filepath & Hin & Hwarn).
  assert (Hb : 0 <= MiB <= ZipSizer.CHUNKSIZE) by (split; discriminate).
  assert (Hsp : spaced ZipSizer.CHUNKSIZE plan).
  { apply spaced_range_from. discriminate. }
  destruct (walk_keeps_inv w inv MiB ZipSizer.CHUNKSIZE plan Hb Hsp
              inv [] 0%nat (initial plan) [] eq_refl eq_refl
              (walk_inv_init w inv MiB n Hb)) as (out' & st' & Hzip & _).
  exists c, filepath, (sampled_data st').
  split; [reflexivity|]. split; [exact Hin|].
  assert (Hrun : run (ZipSizer.sample_data w a inv)
                 = (sampler_lines a inv MiB
                    ++ printed (ZipSizer.walk w MiB 0 inv (initial plan)),
                    OK (sampled_data st'))).
  { apply (sample_data_run w a inv MiB plan st' Hss Hplan).
    unfold outcome, run. rewrite Hzip. reflexivity. }
  split.
  - exists (OSError c). unfold printed at 1. rewrite Hrun. cbn [fst].
    apply in_or_app. right. exact Hwarn.
  - unfold outcome. rewrite Hrun. reflexivity.
Qed.

Lemma estimate_compression_failure_is_logged_witness :
  exists c filepath data,
    OSError EACCES = OSError c /\
    In filepath (map fst (two_files "a" "b")) /\
    (exists logged,
        In (Warning filepath logged)
           (printed (ZipSizer.sample_data locked_world default_args
                       (two_files "a" "b")))) /\
    outcome (ZipSizer.sample_data locked_world default_args
               (two_files "a" "b")) = OK data.
Proof.
  apply (estimate_compression_failure_is_logged locked_world default_args
           (two_files "a" "b") (OSError EACCES)); reflexivity.
Defined.

(** ** [sample_data] of [zip-sizer.py]: no file aborts the walk *)

(** Whatever the files do, for a ratio in (0, 1] the sampler returns; it
    prints diagnostics, and warnings for exceptions that it catches,
    each for a file of the inventory. *)
Theorem sample_data_never_aborts (w : world) (a : ZipSizer.args)
    (inv : inventory) :
  in_unit_interval (ZipSizer.sampling_ratio a) ->
  exists data,
    outcome (ZipSizer.sample_data w a inv) = OK data /\
    Forall (fun l => diagnostic l = true \/
                     exists filepath e,
                       l = Warning filepath e /\
                       ZipSizer.caught e = true /\
                       In filepath (map fst inv))
           (printed (ZipSizer.sample_data w a inv)).
Proof.
  intros Hr.
  destruct (sample_size_bounds a Hr) as (ss & Hss & Hb).
  pose proof (plan_eq ss (total_size inv)) as Hplan.
  set (n := Z.to_nat _) in Hplan.
  set (plan := range_from _ _ n) in Hplan.
  assert (Hsp : spaced ZipSizer.CHUNKSIZE plan).
  { apply spaced_range_from. discriminate. }
  destruct (walk_keeps_inv w inv ss ZipSizer.CHUNKSIZE plan Hb Hsp
              inv [] 0%nat (initial plan) [] eq_refl eq_refl
              (walk_inv_init w inv ss n Hb)) as (out' & st' & Hzip & _).
  assert (Hrun : run (ZipSizer.sample_data w a inv)
                 = (sampler_lines a inv ss
                    ++ printed (ZipSizer.walk w ss 0 inv (initial plan)),
                    OK (sampled_data st'))).
  { apply (sample_data_run w a inv ss plan st' Hss Hplan).
    unfold outcome, run. rewrite Hzip. reflexivity. }
  exists (sampled_data st'). split.
  - unfold outcome. rewrite Hrun. reflexivity.
  - unfold printed at 1. rewrite Hrun. cbn [fst].
    apply Forall_app. split.
    + unfold sampler_lines. destruct (ZipSizer.verbose a);
        repeat constructor.
    + eapply Forall_impl; [|apply walk_prints_warnings].
      intros l H. right. exact H.
Qed.

Lemma sample_data_never_aborts_witness :
  exists data,
    outcome (ZipSizer.sample_data locked_world default_args
               (two_files "a" "b")) = OK data /\
    Forall (fun l => diagnostic l = true \/
                     exists filepath e,
                       l = Warning filepath e /\
                       ZipSizer.caught e = true /\
                       In filepath (map fst (two_files "a" "b")))
           (printed (ZipSizer.sample_data locked_world default_args
                       (two_files "a" "b"))).
Proof.
  apply (sample_data_never_aborts locked_world default_args
           (two_files "a" "b")).
  exact ratio_default_in_unit_interval.
Defined.

(** ** The listings *)

(** [list_files_with_sizes] of [zip-sizer.py]: when [getsize] returns
    for every name that passes the filter, the inventory holds exactly
    the names of the walk that are regular files and neither directories
    nor symbolic links, in the order of the walk, each with the size
    [getsize] returned; nothing is printed. *)
Theorem listing_keeps_regular_files (w : world) (directory : string) :
  (forall p, In p (os_walk w directory) -> listed w p = true ->
             exists size, getsize w p = OK size) ->
  exists inv,
    run (ZipSizer.list_files_with_sizes w directory) = ([], OK inv) /\
    map fst inv = filter (listed w) (os_walk w directory) /\
    Forall (fun entry => getsize w (fst entry) = OK (snd entry)) inv.
Proof.
  intros Hsize.
  destruct (list_files_filter w (os_walk w directory) [] [] Hsize)
    as (inv & Hrun & Hm & Hf).
  exists inv. split; [exact Hrun|]. split; [exact Hm|exact Hf].
Qed.

Lemma listing_keeps_regular_files_witness :
  exists inv,
    run (ZipSizer.list_files_with_sizes mixed_world "d") = ([], OK inv) /\
    map fst inv = filter (listed mixed_world) (os_walk mixed_world "d") /\
    Forall (fun entry => getsize mixed_world (fst entry) = OK (snd entry)) inv.
Proof.
  apply (listing_keeps_regular_files mixed_world "d").
  intros p _ _. exists 3. reflexivity.
Defined.

(** [list_files_with_sizes] of [zip-sizer.py] on an error of [getsize]:
    the file is not skipped.  The handler passes [file=sys.stderr] to
    [logging.warning], which raises [TypeError]; the listing and the
    whole run end with it and print nothing. *)
Theorem listing_error_raises_TypeError (w : world) (a : ZipSizer.args)
    (directory : string) (pre rest : list string) (p : string) (c : errno) :
  os_walk w directory = pre ++ p :: rest ->
  (forall q, In q pre -> listed w q = true ->
             exists size, getsize w q = OK size) ->
  listed w p = true ->
  getsize w p = Raise (OSError c) ->
  run (ZipSizer.list_files_with_sizes w directory) = ([], Raise TypeError) /\
  run (ZipSizer.main w a directory) = ([], Raise TypeError).
Proof.
  intros Hwalk Hsize Hl Hp.
  assert (Hrun : run (ZipSizer.list_files_with_sizes w directory)
                 = ([], Raise TypeError)).
  { unfold run, ZipSizer.list_files_with_sizes. rewrite Hwalk.
    apply (list_files_error w pre [] [] p rest c); assumption. }
  split; [exact Hrun|].
  unfold ZipSizer.main, run, bind. unfold run in Hrun. rewrite Hrun.
  reflexivity.
Qed.

Lemma listing_error_raises_TypeError_witness :
  run (ZipSizer.list_files_with_sizes vanished_world "d")
  = ([], Raise TypeError) /\
  run (ZipSizer.main vanished_world default_args "d") = ([], Raise TypeError).
Proof.
  apply (listing_error_raises_TypeError vanished_world default_args "d"
           ["a"%string] ["c"%string] "b" ENOENT).
  - reflexivity.
  - intros q [<-|[]] _. exists 3. reflexivity.
  - reflexivity.
  - reflexivity.
Defined.

(** The two listings: when [list_files_with_sizes] of
    [estimate-compression.py] returns, it lists every name of the walk
    in order, and [list_files_with_sizes] of [zip-sizer.py] returns the
    entries of that list that pass its filter. *)
Theorem listings_agree (w : world) (directory : string) (inv : inventory) :
  EstimateCompression.list_files_with_sizes w directory = OK inv ->
  map fst inv = os_walk w directory /\
  run (ZipSizer.list_files_with_sizes w directory)
  = ([], OK (filter (fun entry => listed w (fst entry)) inv)).
Proof.
  unfold EstimateCompression.list_files_with_sizes. intros H.
  destruct (list_files_all w _ _ _ H) as (inv' & -> & Hm & Hf).
  cbn [app]. split; [exact Hm|].
  unfold run, ZipSizer.list_files_with_sizes. rewrite <- Hm.
  apply (list_files_of_entries w inv' [] [] Hf).
Qed.

Lemma listings_agree_witness :
  map fst [("a"%string, 3); ("link"%string, 3); ("b"%string, 3)]
  = os_walk mixed_world "d" /\
  run (ZipSizer.list_files_with_sizes mixed_world "d")
  = ([], OK (filter (fun entry => listed mixed_world (fst entry))
               [("a"%string, 3); ("link"%string, 3); ("b"%string, 3)])).
Proof.
  apply (listings_agree mixed_world "d"). reflexivity.
Defined.

(** ** The validation of the command line *)

(** The test of the sampling ratio lets through the doubles above zero
    and up to one, and the value that is not a number, for which both
    comparisons are false; it stops every other double. *)
Theorem ratio_accepted_iff (r : float) :
  ZipSizer.ratio_rejected r = false <->
  r = S754_nan \/ (fltb zero r = true /\ fleb r one = true).
Proof.
  unfold ZipSizer.ratio_rejected.
  destruct r as [s|s| |s m e].
  - split; [discriminate|]. intros [H|[H _]]; [discriminate|].
    destruct s; discriminate.
  - destruct s.
    + split; [discriminate|]. intros [H|[H _]]; discriminate.
    + split; [discriminate|]. intros [H|[_ H]]; discriminate.
  - split; [auto|reflexivity].
  - destruct s.
    + split; [discriminate|]. intros [H|[H _]]; discriminate.
    + change (fleb (S754_finite false m e) zero) with false.
      change (fltb zero (S754_finite false m e)) with true.
      cbn [orb]. unfold fltb, fleb, SFltb, SFleb, one. cbn [SFcompare].
      rewrite (Z.compare_antisym e (-52)).
      change (Pos.compare_cont Eq 4503599627370496 m)
        with (Pos.compare_cont (CompOpp Eq) 4503599627370496 m).
      rewrite <- (Pos.compare_cont_antisym m 4503599627370496 Eq).
      destruct (e ?= -52); cbn [CompOpp].
      * destruct (Pos.compare_cont Eq m 4503599627370496); cbn [CompOpp];
          split; auto; try discriminate;
          intros [H|[_ H]]; discriminate.
      * split; auto.
      * split; [discriminate|]. intros [H|[_ H]]; discriminate.
Qed.

(** A sampling ratio that is not a number passes the validation, and
    the run then ends in [sample_data] with the [ValueError] of [int],
    before any file is opened and before any report line. *)
Theorem nan_ratio_passes_validation (w : world) (a : ZipSizer.args)
    (directory : string) :
  ZipSizer.sampling_ratio a = S754_nan ->
  1 <= ZipSizer.level a <= 9 ->
  isdir w directory = true ->
  ZipSizer.validate w (Some directory) a = ZipSizer.Run /\
  ZipSizer.sample_size_of a = Raise ValueError /\
  (forall inv,
      outcome (ZipSizer.sample_data w a inv) = Raise ValueError /\
      outcome (ZipSizer.report w a inv) = Raise ValueError /\
      printed (ZipSizer.report w a inv)
      = printed (ZipSizer.sample_data w a inv) /\
      quiet (printed (ZipSizer.sample_data w a inv)) = []) /\
  (forall inv,
      outcome (ZipSizer.list_files_with_sizes w directory) = OK inv ->
      outcome (ZipSizer.main w a directory) = Raise ValueError).
Proof.
  intros Hnan Hlevel Hdir.
  assert (Hss : ZipSizer.sample_size_of a = Raise ValueError).
  { unfold ZipSizer.sample_size_of, fmul_int.
    rewrite float_of_CHUNKSIZE, Hnan. reflexivity. }
  assert (Hsample : forall inv,
             outcome (ZipSizer.sample_data w a inv) = Raise ValueError /\
             quiet (printed (ZipSizer.sample_data w a inv)) = []).
  { intros inv.
    unfold outcome, printed, run, ZipSizer.sample_data,
      ZipSizer.sample_data_state, bind, when, lift, print, ret.
    rewrite Hss. destruct (ZipSizer.verbose a); split; reflexivity. }
  assert (Hreport : forall inv,
             outcome (ZipSizer.report w a inv) = Raise ValueError /\
             printed (ZipSizer.report w a inv)
             = printed (ZipSizer.sample_data w a inv)).
  { intros inv. unfold ZipSizer.report.
    apply bind_Raise; [apply appends_sample_data|apply Hsample]. }
  split.
  { unfold ZipSizer.validate, ZipSizer.ratio_rejected.
    rewrite Hnan, Hdir.
    destruct (Z.ltb_spec (ZipSizer.level a) 1); [lia|].
    destruct (Z.gtb_spec (ZipSizer.level a) 9); [lia|]. reflexivity. }
  split; [exact Hss|]. split.
  - intros inv. destruct (Hsample inv) as [Ho Hq].
    destruct (Hreport inv) as [Hro Hrp]. auto.
  - intros inv Hinv.
    destruct (main_run w a directory inv Hinv) as [Hm _].
    rewrite Hm. apply Hreport.
Qed.

Lemma nan_ratio_passes_validation_witness :
  ZipSizer.validate tree_world (Some "d"%string) (args_with_ratio S754_nan)
  = ZipSizer.Run /\
  ZipSizer.sample_size_of (args_with_ratio S754_nan) = Raise ValueError /\
  (forall inv,
      outcome (ZipSizer.sample_data tree_world (args_with_ratio S754_nan) inv)
      = Raise ValueError /\
      outcome (ZipSizer.report tree_world (args_with_ratio S754_nan) inv)
      = Raise ValueError /\
      printed (ZipSizer.report tree_world (args_with_ratio S754_nan) inv)
      = printed (ZipSizer.sample_data tree_world (args_with_ratio S754_nan) inv) /\
      quiet (printed (ZipSizer.sample_data tree_world
                        (args_with_ratio S754_nan) inv)) = []) /\
  (forall inv,
      outcome (ZipSizer.list_files_with_sizes tree_world "d") = OK inv ->
      outcome (ZipSizer.main tree_world (args_with_ratio S754_nan) "d")
      = Raise ValueError).
Proof.
  apply (nan_ratio_passes_validation tree_world (args_with_ratio S754_nan) "d").
  - reflexivity.
  - split; discriminate.
  - reflexivity.
Defined.

(** ** [sample_data] of [estimate-compression.py] with any parameters *)

(** For every chunk size above zero and every sample size from zero to
    the chunk size: when the sampler returns, the buffer is at most
    [sample_size] times the number of sampling points long, and there
    is at most one point for each chunk begun. *)
Theorem estimate_compression_sample_bounded (w : world) (inv : inventory)
    (chunk_size sample_size : Z) (data : bytes) :
  0 < chunk_size ->
  0 <= sample_size <= chunk_size ->
  0 <= total_size inv ->
  EstimateCompression.sample_data w inv chunk_size sample_size = OK data ->
  exists plan,
    range (chunk_size - sample_size) (total_size inv) chunk_size = OK plan /\
    len data <= sample_size * Z.of_nat (List.length plan) /\
    Z.of_nat (List.length plan) <= total_size inv / chunk_size + 1.
Proof.
  intros Hchunk Hss Htotal Hest.
  pose proof (range_positive_step (chunk_size - sample_size) (total_size inv)
                chunk_size Hchunk) as Hplan.
  set (n := Z.to_nat _) in Hplan.
  set (plan := range_from _ _ n) in Hplan.
  unfold EstimateCompression.sample_data in Hest.
  rewrite Hplan in Hest. fold (initial plan) in Hest.
  destruct (EstimateCompression.walk w sample_size 0 inv (initial plan))
    as [st|e] eqn:Hwalk; [|discriminate].
  apply OK_inj in Hest. subst data.
  pose proof (walk_lockstep w sample_size inv 0%nat (initial plan) st []
                Hwalk) as Hzip.
  assert (Hsp : spaced chunk_size plan)
    by (apply spaced_range_from; lia).
  assert (Hpos : Forall (fun p => 0 <= p) plan).
  { eapply Forall_impl;
      [|apply (range_from_lower chunk_size n (chunk_size - sample_size)); lia].
    cbv beta. intros p Hp. lia. }
  destruct (walk_keeps_inv w inv sample_size chunk_size plan Hss Hsp
              inv [] 0%nat (initial plan) [] eq_refl eq_refl
              (walk_inv_start w inv sample_size plan Hpos))
    as (out' & st' & Hzip' & Hinv).
  rewrite Hzip in Hzip'. inversion Hzip'; subst out' st'.
  destruct Hinv as (_ & Hdata & Hreads & Hpl & _).
  assert (Hwin : Forall (fun e => len (w_data e) <= sample_size) (reads st)).
  { eapply Forall_impl; [|exact Hreads]. cbv beta. intros e [_ He].
    destruct He as (path & size & f & _ & _ & _ & Hread).
    rewrite (seek_read_length _ _ _ _ (proj1 Hss) Hread). lia. }
  exists plan. split; [exact Hplan|]. split.
  - rewrite Hdata, bytes_of_concat.
    eapply Z.le_trans; [apply bytes_of_le; exact Hwin|].
    rewrite Hpl, length_app, length_map. nia.
  - unfold plan. rewrite range_from_length. unfold n.
    assert (Hq : (total_size inv - (chunk_size - sample_size) + chunk_size - 1)
                 / chunk_size <= total_size inv / chunk_size + 1).
    { replace (total_size inv / chunk_size + 1)
        with ((total_size inv + 1 * chunk_size) / chunk_size)
        by (rewrite Z.div_add by lia; reflexivity).
      apply Z.div_le_mono; lia. }
    assert (0 <= total_size inv / chunk_size)
      by (apply Z.div_pos; lia).
    lia.
Qed.

Lemma estimate_compression_sample_bounded_witness :
  exists plan,
    range (5 - 2) (total_size small_inventory) 5 = OK plan /\
    len [x01; x02] <= 2 * Z.of_nat (List.length plan) /\
    Z.of_nat (List.length plan) <= total_size small_inventory / 5 + 1.
Proof.
  apply (estimate_compression_sample_bounded small_world small_inventory
           5 2 [x01; x02]).
  - reflexivity.
  - split; discriminate.
  - discriminate.
  - reflexivity.
Defined.

(** A chunk size that is not positive: for zero [range] refuses the
    step and the sampler raises [ValueError]; for a negative one the
    range runs downwards from a start below the total size, so the plan
    is empty and the sampler returns an empty buffer.  No file is
    opened in either case. *)
Theorem estimate_compression_degenerate_chunk (w : world) (inv : inventory)
    (chunk_size sample_size : Z) :
  chunk_size <= 0 ->
  0 <= sample_size ->
  0 <= total_size inv ->
  EstimateCompression.sample_data w inv chunk_size sample_size
  = if chunk_size =? 0 then Raise ValueError else OK [].
Proof.
  intros Hchunk Hss Htotal. unfold EstimateCompression.sample_data, range.
  destruct (Z.eqb_spec chunk_size 0) as [|Hne]; [reflexivity|].
  destruct (Z.ltb_spec 0 chunk_size); [lia|].
  assert (Hn : (chunk_size - sample_size - total_size inv - chunk_size - 1)
               / (- chunk_size) <= 0).
  { apply Z.lt_succ_r. apply Z.div_lt_upper_bound; lia. }
  replace (Z.to_nat _) with 0%nat by lia.
  cbn [range_from]. fold (initial []).
  destruct (walk_without_points w sample_size inv 0%nat (initial []) eq_refl)
    as (st & Hwalk & Hdata).
  rewrite Hwalk, Hdata. reflexivity.
Qed.

Lemma estimate_compression_degenerate_chunk_witness :
  EstimateCompression.sample_data small_world small_inventory (-5) 2
  = if -5 =? 0 then Raise ValueError else OK [].
Proof.
  apply (estimate_compression_degenerate_chunk small_world small_inventory
           (-5) 2); discriminate.
Defined.

(** ** [main] of [estimate-compression.py] *)

(** A directory whose files fill less than the first nine MiB: the plan
    is empty, no file is opened, and [main] prints that it sampled 0
    bytes.  When the total size is positive the division by the length
    of the sample then raises [ZeroDivisionError]; when it is zero the
    conditional skips the division and the estimate printed is 0. *)
Theorem estimate_compression_main_small_directory (w : world)
    (directory : string) (inv : inventory) :
  EstimateCompression.list_files_with_sizes w directory = OK inv ->
  total_size inv
  <= EstimateCompression.default_chunk_size
     - EstimateCompression.default_sample_size ->
  EstimateCompression.main w directory
  = if total_size inv >? 0
    then ([EstimateCompression.Sampled 0], Raise ZeroDivisionError)
    else ([EstimateCompression.Sampled 0;
           EstimateCompression.CompressedSize (Int 0)], OK tt).
Proof.
  intros Hlist Htotal. unfold EstimateCompression.main. rewrite Hlist.
  unfold EstimateCompression.sample_data.
  rewrite range_empty; [|reflexivity|exact Htotal].
  destruct (walk_without_points w EstimateCompression.default_sample_size
              inv 0%nat (initial []) eq_refl) as (st & Hwalk & Hdata).
  fold (initial []). rewrite Hwalk.
  cbn [initial sampled_data] in Hdata. rewrite Hdata.
  cbv zeta. unfold EstimateCompression.estimate.
  change (len []) with 0.
  destruct (total_size inv >? 0); reflexivity.
Qed.

Lemma estimate_compression_main_small_directory_witness :
  EstimateCompression.main small_world "d"
  = if total_size small_inventory >? 0
    then ([EstimateCompression.Sampled 0], Raise ZeroDivisionError)
    else ([EstimateCompression.Sampled 0;
           EstimateCompression.CompressedSize (Int 0)], OK tt).
Proof.
  apply (estimate_compression_main_small_directory small_world "d"
           small_inventory).
  - reflexivity.
  - discriminate.
Defined.

(** ** [human_readable_size]: the number and the unit *)

(** An integer below 1024 that a double can hold, negative ones
    included, is shown as it is, in bytes: the loop returns at its first
    turn and the formatting converts the integer. *)
Theorem human_readable_bytes (n : Z) :
  - 2 ^ 1023 < n < 1024 ->
  ZipSizer.human_readable_size (Int n) = OK (Int n, "B"%string).
Proof.
  intros [Hlo Hhi]. unfold ZipSizer.human_readable_size, ZipSizer.units.
  cbn [ZipSizer.scale lt_1024 formatted].
  destruct (Z.ltb_spec n 1024) as [_|Hge];
    [|exfalso; apply (Z.lt_irrefl n); apply (Z.lt_le_trans _ 1024); assumption].
  destruct (float_of_int_in_range n) as [x Hx].
  { split; [exact Hlo|].
    apply (Z.lt_trans _ 1024); [exact Hhi|reflexivity]. }
  rewrite Hx. reflexivity.
Qed.

Lemma human_readable_bytes_witness :
  ZipSizer.human_readable_size (Int 0) = OK (Int 0, "B"%string).
Proof. apply (human_readable_bytes 0). split; reflexivity. Defined.

(** An integer from 1024 to below 1024 * 1024 is shown in KB: the
    number is a double that is exactly the size divided by 1024, the
    division loses nothing. *)
Theorem human_readable_kilobytes (n : Z) :
  1024 <= n < 1024 * 1024 ->
  exists m e,
    ZipSizer.human_readable_size (Int n)
    = OK (Float (S754_finite false m e), "KB"%string) /\
    e < 0 /\
    Zpos m * 1024 = n * 2 ^ (- e).
Proof.
  intros Hn. pose proof (int_truediv_1024 n Hn) as Hdiv.
  destruct Hn as [Hlo Hhi].
  assert (Hd1 : 11 <= Zdigits2 n).
  { apply Zdigits2_ge; [|lia]. change (2 ^ (11 - 1)) with 1024. exact Hlo. }
  assert (Hd2 : Zdigits2 n <= 20).
  { apply Zdigits2_le; [lia|]. change (2 ^ 20) with (1024 * 1024). lia. }
  set (d := Zdigits2 n) in *.
  exists (Z.to_pos (n * 2 ^ (53 - d))), (d - 63).
  split; [|split; [lia|]].
  - unfold ZipSizer.human_readable_size, ZipSizer.units.
    cbn [ZipSizer.scale lt_1024 div_1024].
    destruct (Z.ltb_spec n 1024); [lia|].
    rewrite Hdiv. cbn [lt_1024 formatted].
    unfold fltb, SFltb, f1024. cbn [SFcompare].
    destruct (Z.compare_spec (d - 63) (-42)); [lia|reflexivity|lia].
  - assert (Hp53 : 0 < 2 ^ (53 - d)) by (apply Z.pow_pos_nonneg; lia).
    rewrite Z2Pos.id by nia.
    replace (- (d - 63)) with ((53 - d) + 10) by lia.
    rewrite Z.pow_add_r by lia. change (2 ^ 10) with 1024. lia.
Qed.

Lemma human_readable_kilobytes_witness :
  exists m e,
    ZipSizer.human_readable_size (Int 1536)
    = OK (Float (S754_finite false m e), "KB"%string) /\
    e < 0 /\
    Zpos m * 1024 = 1536 * 2 ^ (- e).
Proof.
  apply (human_readable_kilobytes 1536). split; [discriminate|reflexivity].
Defined.

(** ** [current_offset] when files fail *)

(** Whatever the files do, with sizes that are not negative the
    [current_offset] that the walk ends with lies between zero and the
    total size, and it is the total size when no warning was logged: the
    walk falls behind only by files whose exception it caught. *)
Theorem offset_advances_unless_failure (w : world) (a : ZipSizer.args)
    (inv : inventory) :
  in_unit_interval (ZipSizer.sampling_ratio a) ->
  Forall (fun entry => 0 <= snd entry) inv ->
  exists st,
    outcome (ZipSizer.sample_data_state w a inv) = OK st /\
    0 <= current_offset st <= total_size inv /\
    (quiet (printed (ZipSizer.sample_data_state w a inv)) = [] ->
     current_offset st = total_size inv).
Proof.
  intros Hr Hpos.
  destruct (sampler_returns w a inv Hr)
    as (ss & plan & st & Hss & _ & Hplan & _ & _ & Hst & _).
  pose proof (sample_data_state_run w a inv ss plan Hss Hplan) as Hrun.
  assert (Hwalk : outcome (ZipSizer.walk w ss 0 inv (initial plan)) = OK st).
  { unfold outcome in Hst. rewrite Hrun in Hst. exact Hst. }
  destruct (walk_offset w ss inv 0%nat (initial plan) st Hpos Hwalk)
    as [Hb Heq].
  cbn [initial current_offset] in Hb, Heq.
  exists st. split; [exact Hst|]. split; [lia|].
  unfold printed at 1. rewrite Hrun. cbn [fst].
  rewrite quiet_app, quiet_walk.
  intros Hq. apply app_eq_nil in Hq. destruct Hq as [_ Hq].
  rewrite (Heq Hq). lia.
Qed.

Lemma offset_advances_unless_failure_witness :
  exists st,
    outcome (ZipSizer.sample_data_state locked_world default_args
               (two_files "a" "b")) = OK st /\
    0 <= current_offset st <= total_size (two_files "a" "b") /\
    (quiet (printed (ZipSizer.sample_data_state locked_world default_args
                       (two_files "a" "b"))) = [] ->
     current_offset st = total_size (two_files "a" "b")).
Proof.
  apply (offset_advances_unless_failure locked_world default_args
           (two_files "a" "b")).
  - exact ratio_default_in_unit_interval.
  - repeat constructor; discriminate.
Defined.
